(** * PlayWise: a shallow embedding of playWise.cpp

    The catalog engine of the PlayWise music player: the doubly linked
    playlist, the rating map, the two recency trackers, the playlist player
    and the auto-replay selector.

    Modelling conventions.
    - A [Song*] is an address ([ptr]); [None] is [nullptr].  All [Song]
      objects live in one store, a finite map from addresses to [Song]
      records, which the playlist owns ([new] in [add_song], [delete] in
      [delete_song]).
    - Reading through a pointer that is not live is undefined behaviour in
      the source.  The model reads [None] through such a pointer and ignores
      a write through it; the well-formedness invariant [Playlist_dll] rules
      these cases out.
    - An [int] is an integer of [Z] between [INT_MIN] and [INT_MAX].  Where
      an [int] expression can leave this range on [int] operands (the
      increment of a play count, [to_index - 1] in [move_song]) the model
      takes the two's complement result, [wrap]: signed overflow is
      undefined behaviour in the source, and this is what the build
      computes.  The statements on play counts and on negative targets
      bound the operands so that the expression stays in range; the lemma
      [move_song_INT_MIN] records the one wrapped case of [move_song].
      Sums and differences of positions are compared with the length of a
      sequence and stay in range for every [int] index below [INT_MAX].
    - A loop whose termination depends on the shape of the store takes fuel
      and returns [None] when the fuel runs out. *)

From Stdlib Require Import ZArith Ascii.
From stdpp Require Import gmap strings list fin_maps sorting.

Local Open Scope Z_scope.

Abbreviation ptr := positive.

(** ** int *)

Definition INT_MIN : Z := -2147483648.
Definition INT_MAX : Z := 2147483647.

(** The [int] that the build computes for an expression of mathematical
    value [z]: [z] itself inside the range, two's complement wrap-around
    outside. *)
Definition wrap (z : Z) : Z := (z + 2147483648) mod 4294967296 - 2147483648.

(** ** struct Song *)

Record Song := mkSong {
  title : string;
  artist : string;
  genre : string;
  duration : Z;
  prev : option ptr;
  next : option ptr
}.

(** [s->next = v], [s->prev = v] and [swap(s->next, s->prev)] on a node. *)
Definition set_next (v : option ptr) (s : Song) : Song :=
  mkSong (title s) (artist s) (genre s) (duration s) (prev s) v.

Definition set_prev (v : option ptr) (s : Song) : Song :=
  mkSong (title s) (artist s) (genre s) (duration s) v (next s).

Definition swap_links (s : Song) : Song :=
  mkSong (title s) (artist s) (genre s) (duration s) (next s) (prev s).

(** [a->next] and [a->prev] read from the store. *)
Definition load_next (h : gmap ptr Song) (a : ptr) : option ptr := h !! a ≫= next.
Definition load_prev (h : gmap ptr Song) (a : ptr) : option ptr := h !! a ≫= prev.

(** ** class Playlist *)

Module Playlist.

Record t := mk {
  heap : gmap ptr Song;
  head : option ptr;
  tail : option ptr
}.

(** [Playlist()] *)
Definition empty : t := mk ∅ None None.

(** [add_song(title, artist, genre, duration)].  [a] is the address that
    [new Song] returns. *)
Definition add_song (pl : t) (a : ptr) (title artist genre : string) (duration : Z)
  : t * ptr :=
  let h := <[a := mkSong title artist genre duration None None]> (heap pl) in
  match head pl with
  | None => (mk h (Some a) (Some a), a)
  | Some _ =>
      let h1 := match tail pl with
                | Some tl => alter (set_next (Some a)) tl h
                | None => h
                end in
      let h2 := alter (set_prev (tail pl)) a h1 in
      (mk h2 (head pl) (Some a), a)
  end.

(** [add_song(title, artist, duration)]: the genre defaults to "Unknown". *)
Definition add_song_no_genre (pl : t) (a : ptr) (title artist : string) (duration : Z)
  : t * ptr :=
  add_song pl a title artist "Unknown" duration.

(** [while (temp && i < index) { temp = temp->next; i++; }] with [i]
    starting at 0: at most [n] steps along [next], stopping at [nullptr]. *)
Fixpoint advance (h : gmap ptr Song) (temp : option ptr) (n : nat) : option ptr :=
  match n, temp with
  | S n', Some a => advance h (load_next h a) n'
  | _, _ => temp
  end.

(** The four link updates that [delete_song] and [move_song] both perform
    on the node [a] they have found:
    [if (a->prev) a->prev->next = a->next;]
    [if (a->next) a->next->prev = a->prev;]
    [if (a == head) head = a->next;]
    [if (a == tail) tail = a->prev;] *)
Definition unlink (pl : t) (a : ptr) : t :=
  let h := heap pl in
  let h1 := match load_prev h a with
            | Some b => alter (set_next (load_next h a)) b h
            | None => h
            end in
  let h2 := match load_next h1 a with
            | Some c => alter (set_prev (load_prev h1 a)) c h1
            | None => h1
            end in
  let hd := if decide (head pl = Some a) then load_next h2 a else head pl in
  let tl := if decide (tail pl = Some a) then load_prev h2 a else tail pl in
  mk h2 hd tl.

(** [delete_song(index)] *)
Definition delete_song (pl : t) (index : Z) : t :=
  match head pl with
  | None => pl
  | Some _ =>
      match advance (heap pl) (head pl) (Z.to_nat index) with
      | None => pl
      | Some temp =>
          let pl1 := unlink pl temp in
          mk (delete temp (heap pl1)) (head pl1) (tail pl1)
      end
  end.

(** The second half of [move_song], "Insert at new position": [song] is
    unlinked, its own links are [nullptr], and [to_index] is adjusted.
    The bound [to_index - 1] of the search loop is an [int] expression; it
    leaves the range for [to_index = INT_MIN]. *)
Definition relink (pl1 : t) (song : ptr) (to_index : Z) : t :=
  let h := heap pl1 in
  if decide (to_index = 0) then
    (* Insert at beginning *)
    let h1 := alter (set_next (head pl1)) song h in
    let h2 := match head pl1 with
              | Some b => alter (set_prev (Some song)) b h1
              | None => h1
              end in
    mk h2 (Some song) (match tail pl1 with None => Some song | tl => tl end)
  else
    (* Find insertion point *)
    match advance h (head pl1) (Z.to_nat (wrap (to_index - 1))) with
    | None =>
        (* Insert at end *)
        match tail pl1 with
        | Some tl =>
            let h1 := alter (set_next (Some song)) tl h in
            let h2 := alter (set_prev (Some tl)) song h1 in
            mk h2 (head pl1) (Some song)
        | None => mk h (Some song) (Some song)
        end
    | Some temp =>
        (* Insert after temp *)
        let h1 := alter (set_next (load_next h temp)) song h in
        let h2 := alter (set_prev (Some temp)) song h1 in
        let h3 := match load_next h2 temp with
                  | Some c => alter (set_prev (Some song)) c h2
                  | None => h2
                  end in
        let tl := match load_next h2 temp with
                  | Some _ => tail pl1
                  | None => Some song
                  end in
        mk (alter (set_next (Some song)) temp h3) (head pl1) tl
    end.

(** [move_song(from_index, to_index)] *)
Definition move_song (pl : t) (from_index to_index : Z) : t :=
  if decide (from_index = to_index) then pl else
  match head pl with
  | None => pl
  | Some _ =>
      (* Find song to move *)
      match advance (heap pl) (head pl) (Z.to_nat from_index) with
      | None => pl
      | Some song =>
          (* Remove from current position *)
          let pl1 := unlink pl song in
          let h := alter (set_next None) song (alter (set_prev None) song (heap pl1)) in
          (* "Adjust target index if moving backwards"; [to_index--] stays in
             range, [to_index] being greater than another [int] *)
          let to_index := if decide (to_index > from_index) then to_index - 1 else to_index in
          (* Insert at new position *)
          relink (mk h (head pl1) (tail pl1)) song to_index
      end
  end.

(** The loop of [reverse_playlist]:
    [while (curr) { swap(curr->next, curr->prev); curr = curr->prev; }] *)
Fixpoint reverse_loop (fuel : nat) (h : gmap ptr Song) (curr : option ptr)
  : option (gmap ptr Song) :=
  match curr with
  | None => Some h
  | Some a =>
      match fuel with
      | O => None
      | S fuel' =>
          let h' := alter swap_links a h in
          reverse_loop fuel' h' (load_prev h' a)
      end
  end.

(** [reverse_playlist()]; the loop visits every node once, so the number of
    live nodes is fuel enough unless the links form a cycle. *)
Definition reverse_playlist (pl : t) : option t :=
  h ← reverse_loop (size (heap pl)) (heap pl) (head pl);
  Some (mk h (tail pl) (head pl)).

(** The loop of [get_all_songs]:
    [while (temp) { songs.push_back(temp); temp = temp->next; }] *)
Fixpoint collect (fuel : nat) (h : gmap ptr Song) (temp : option ptr)
  : option (list ptr) :=
  match temp with
  | None => Some []
  | Some a =>
      match fuel with
      | O => None
      | S fuel' => (a ::.) <$> collect fuel' h (load_next h a)
      end
  end.

(** [get_all_songs()] *)
Definition get_all_songs (pl : t) : option (list ptr) :=
  collect (size (heap pl)) (heap pl) (head pl).

End Playlist.

(** ** The shape of a well-formed playlist

    [dlseg h pv ls nx]: the addresses [ls] are live nodes of [h] chained in
    this order, the first with [prev = pv], the last with [next = nx]. *)

Definition node (h : gmap ptr Song) (a : ptr) (pv nx : option ptr) : Prop :=
  ∃ s, h !! a = Some s ∧ prev s = pv ∧ next s = nx.

Definition first_or (ls : list ptr) (nx : option ptr) : option ptr :=
  match ls with
  | [] => nx
  | b :: _ => Some b
  end.

Definition last_or (ls : list ptr) (pv : option ptr) : option ptr :=
  match last ls with
  | None => pv
  | Some b => Some b
  end.

Fixpoint dlseg (h : gmap ptr Song) (pv : option ptr) (ls : list ptr) (nx : option ptr)
  : Prop :=
  match ls with
  | [] => True
  | a :: r => node h a pv (first_or r nx) ∧ dlseg h (Some a) r nx
  end.

(** [Playlist_dll pl ls]: the playlist is a doubly linked list whose nodes,
    from [head] to [tail], are the pairwise distinct addresses [ls]. *)
Definition Playlist_dll (pl : Playlist.t) (ls : list ptr) : Prop :=
  NoDup ls ∧
  Playlist.head pl = head ls ∧
  Playlist.tail pl = last ls ∧
  dlseg (Playlist.heap pl) None ls None.

(** The playlists that the operations build from the empty one, [new]
    returning an address that is not live. *)
Inductive reachable : Playlist.t → Prop :=
| reachable_empty : reachable Playlist.empty
| reachable_add pl a t ar g d :
    reachable pl → Playlist.heap pl !! a = None →
    reachable (Playlist.add_song pl a t ar g d).1
| reachable_delete pl index :
    reachable pl → reachable (Playlist.delete_song pl index)
| reachable_move pl from_index to_index :
    reachable pl → reachable (Playlist.move_song pl from_index to_index)
| reachable_reverse pl pl' :
    reachable pl → Playlist.reverse_playlist pl = Some pl' → reachable pl'.

(** The titles of a sequence of song references, for reading results. *)
Definition titles (h : gmap ptr Song) (songs : list ptr) : list string :=
  omap (λ a, title <$> h !! a) songs.

(** The titles of the playlist in traversal order. *)
Definition playlist_titles (pl : Playlist.t) : option (list string) :=
  titles (Playlist.heap pl) <$> Playlist.get_all_songs pl.

(** The catalog [A, B, C], built by three calls of [add_song] that allocate
    at the addresses 1, 2 and 3. *)
Definition catalog_ABC : Playlist.t :=
  let p1 := (Playlist.add_song Playlist.empty 1%positive "A" "Artist1" "Jazz" 100).1 in
  let p2 := (Playlist.add_song p1 2%positive "B" "Artist2" "Jazz" 100).1 in
  (Playlist.add_song p2 3%positive "C" "Artist3" "Rock" 100).1.

(** The catalog of the single song [A], allocated at address 1. *)
Definition catalog_A : Playlist.t :=
  (Playlist.add_song Playlist.empty 1%positive "A" "Artist1" "Jazz" 100).1.

(** ** What the playlist operations do to the sequence of nodes *)

(** Insertion of [a] so that it ends at position [k], at the end when [k] is
    beyond it. *)
Definition insert_at (k : nat) (a : ptr) (ls : list ptr) : list ptr :=
  take k ls ++ a :: drop k ls.

(** The position at which [move_song] inserts, counted in the sequence
    without the moved node: the target index, less one for a forward move;
    a negative position behaves like position 1, except that [INT_MIN]
    behaves like [INT_MAX + 1]. *)
Definition move_target (from_index to_index : Z) : nat :=
  let to_index := if decide (to_index > from_index) then to_index - 1 else to_index in
  if decide (to_index = 0) then 0%nat else S (Z.to_nat (wrap (to_index - 1))).

Definition move_list (from_index to_index : Z) (ls : list ptr) : list ptr :=
  if decide (from_index = to_index) then ls else
  match ls !! Z.to_nat from_index with
  | None => ls
  | Some a => insert_at (move_target from_index to_index) a (delete (Z.to_nat from_index) ls)
  end.

(** ** class PlaybackHistory *)

Module PlaybackHistory.

(** [stack<Song*>], top first. *)
Definition add (history : list ptr) (song : ptr) : list ptr := song :: history.

(** The loop of [get_recently_played] over the copy [temp] of the stack:
    [while (!temp.empty() && static_cast<int>(recent.size()) < n)]. *)
Fixpoint recently_played_loop (temp recent : list ptr) (n : Z) : list ptr :=
  match temp with
  | [] => recent
  | top :: rest =>
      if decide (Z.of_nat (length recent) < n)
      then recently_played_loop rest (recent ++ [top]) n
      else recent
  end.

(** [get_recently_played(n)] *)
Definition get_recently_played (history : list ptr) (n : Z) : list ptr :=
  recently_played_loop history [] n.

End PlaybackHistory.

(** ** class SongRatingTree *)

Module SongRatingTree.

(** [ratingMap[rating]]: [std::map::operator[]] value-initialises a missing
    entry and returns the entry's vector together with the updated map. *)
Definition subscript (ratingMap : gmap Z (list ptr)) (rating : Z)
  : list ptr * gmap Z (list ptr) :=
  match ratingMap !! rating with
  | Some vec => (vec, ratingMap)
  | None => ([], <[rating := []]> ratingMap)
  end.

Definition insert_song (ratingMap : gmap Z (list ptr)) (song : ptr) (rating : Z)
  : gmap Z (list ptr) :=
  let '(vec, m) := subscript ratingMap rating in
  <[rating := vec ++ [song]]> m.

Definition search_by_rating (ratingMap : gmap Z (list ptr)) (rating : Z)
  : list ptr * gmap Z (list ptr) :=
  subscript ratingMap rating.

(** [vec.erase(remove(vec.begin(), vec.end(), song), vec.end())]:
    [std::remove] drops every element equal to [song]. *)
Definition delete_song (ratingMap : gmap Z (list ptr)) (song : ptr) (rating : Z)
  : gmap Z (list ptr) :=
  let '(vec, m) := subscript ratingMap rating in
  <[rating := filter (λ x, x ≠ song) vec]> m.

Definition get_song_count_by_rating (ratingMap : gmap Z (list ptr)) : gmap Z Z :=
  (λ vec, Z.of_nat (length vec)) <$> ratingMap.

End SongRatingTree.

(** The songs filed under a rating: what [search_by_rating] returns. *)
Definition group (ratingMap : gmap Z (list ptr)) (rating : Z) : list ptr :=
  (SongRatingTree.search_by_rating ratingMap rating).1.

(** The rating map after a series of [insert_song] calls on an empty one. *)
Definition after_insertions (calls : list (ptr * Z)) : gmap Z (list ptr) :=
  foldl (λ m call, SongRatingTree.insert_song m call.1 call.2) ∅ calls.

(** Removal of the first occurrence only: what [find] followed by [erase]
    does to a tracker's deque, and what is claimed of
    [SongRatingTree::delete_song]. *)
Fixpoint remove_first (song : ptr) (vec : list ptr) : list ptr :=
  match vec with
  | [] => []
  | x :: r => if decide (x = song) then r else x :: remove_first song r
  end.

(** ** class SongLookup *)

Module SongLookup.

(** [add(song)]: [lookup[song->title] = song]. *)
Definition add (lookup : gmap string ptr) (mem : gmap ptr Song) (song : ptr)
  : gmap string ptr :=
  match mem !! song with
  | Some s => <[title s := song]> lookup
  | None => lookup
  end.

(** [get(title)]: [lookup.count(title) ? lookup[title] : nullptr]; the
    subscript is only reached for a key that is present, so nothing is
    inserted. *)
Definition get (lookup : gmap string ptr) (title : string) : option ptr :=
  lookup !! title.

End SongLookup.

(** ** class RecentlySkippedTracker *)

Module RecentlySkippedTracker.

Definition MAX_SKIPPED : nat := 10.

(** [deque<Song*>], front first. *)
Definition addSkippedSong (skippedSongs : list ptr) (song : ptr) : list ptr :=
  let erased := match list_find (λ x, x = song) skippedSongs with
                | Some (it, _) => delete it skippedSongs
                | None => skippedSongs
                end in
  let pushed := song :: erased in
  if decide (MAX_SKIPPED < length pushed)%nat then removelast pushed else pushed.

Definition isRecentlySkipped (skippedSongs : list ptr) (song : ptr) : bool :=
  match list_find (λ x, x = song) skippedSongs with
  | Some _ => true
  | None => false
  end.

Definition getSkippedSongs (skippedSongs : list ptr) : list ptr := skippedSongs.

Definition clearSkippedHistory (skippedSongs : list ptr) : list ptr := [].

End RecentlySkippedTracker.

(** ** class RecentlyAddedTracker *)

Module RecentlyAddedTracker.

Definition MAX_RECENT : nat := 15.

Definition addRecentSong (recentlyAdded : list ptr) (song : ptr) : list ptr :=
  let erased := match list_find (λ x, x = song) recentlyAdded with
                | Some (it, _) => delete it recentlyAdded
                | None => recentlyAdded
                end in
  let pushed := song :: erased in
  if decide (MAX_RECENT < length pushed)%nat then removelast pushed else pushed.

Definition isRecentlyAdded (recentlyAdded : list ptr) (song : ptr) : bool :=
  match list_find (λ x, x = song) recentlyAdded with
  | Some _ => true
  | None => false
  end.

Definition clearRecentlyAdded (recentlyAdded : list ptr) : list ptr := [].

(** [getRecentlyAdded(limit)]: [count = min(limit, size)], then
    [recentlyAdded[i]] for [i] from 0 below [count]. *)
Definition getRecentlyAdded (recentlyAdded : list ptr) (limit : Z) : list ptr :=
  let count := Z.min limit (Z.of_nat (length recentlyAdded)) in
  omap (λ i, recentlyAdded !! i) (seq 0 (Z.to_nat count)).

(** The loop of [getRecentlyAddedByGenre]; [song->genre == genre] compares
    the strings as they are.  The size test and the [break] come after the
    [push_back]. *)
Fixpoint by_genre_loop (mem : gmap ptr Song) (wanted : string) (limit : Z)
    (window result : list ptr) : list ptr :=
  match window with
  | [] => result
  | song :: rest =>
      if bool_decide (genre <$> mem !! song = Some wanted) then
        let result' := result ++ [song] in
        if decide (Z.of_nat (length result') >= limit) then result'
        else by_genre_loop mem wanted limit rest result'
      else by_genre_loop mem wanted limit rest result
  end.

(** [getRecentlyAddedByGenre(genre, limit)] *)
Definition getRecentlyAddedByGenre (mem : gmap ptr Song) (recentlyAdded : list ptr)
    (wanted : string) (limit : Z) : list ptr :=
  by_genre_loop mem wanted limit recentlyAdded [].

End RecentlyAddedTracker.

(** The step that both trackers perform, for a window of capacity [cap]. *)
Definition touch (cap : nat) (window : list ptr) (song : ptr) : list ptr :=
  let erased := match list_find (λ x, x = song) window with
                | Some (it, _) => delete it window
                | None => window
                end in
  let pushed := song :: erased in
  if decide (cap < length pushed)%nat then removelast pushed else pushed.

(** The recency window as a specification: the distinct elements of a
    sequence, each at its first occurrence. *)
Fixpoint first_occurrences (l : list ptr) : list ptr :=
  match l with
  | [] => []
  | x :: r => x :: filter (λ y, y ≠ x) (first_occurrences r)
  end.

(** The invariant of a recency window of capacity [cap]. *)
Definition window_ok (cap : nat) (w : list ptr) : Prop :=
  (length w ≤ cap)%nat ∧ NoDup w.

(** What is claimed of a tracker with step [step] and capacity [cap] that
    starts from the window [w0] and is touched with the songs [ts] in turn:
    the size bound, no duplicates, the last touched song in front, the
    window as the [cap] most recently touched distinct songs, most recent
    first, and the three cases of one more touch. *)
Definition recency_properties (cap : nat) (step : list ptr → ptr → list ptr)
    (w0 ts : list ptr) : Prop :=
  let w := foldl step w0 ts in
  (length w ≤ cap)%nat ∧
  NoDup w ∧
  (∀ song, last ts = Some song → head w = Some song) ∧
  w = take cap (first_occurrences (reverse ts ++ w0)) ∧
  (∀ song, song ∈ w → step w song = song :: filter (λ y, y ≠ song) w) ∧
  (∀ song, song ∉ w → (length w < cap)%nat → step w song = song :: w) ∧
  (∀ song, song ∉ w → length w = cap → step w song = song :: removelast w).

(** ** class PlaylistPlayer *)

Module PlaylistPlayer.

Record t := mk {
  currentIndex : Z;
  isPlaying : bool;
  currentSong : option ptr
}.

(** [PlaylistPlayer()] *)
Definition init : t := mk (-1) false None.

(** The line written to the console. *)
Inductive message :=
| PlaylistIsEmpty
| ReachedEndOfPlaylist
| Next (position total : Z) (song : ptr).

(** The return value, the console line, and the three objects the call can
    change. *)
Record outcome := out {
  returned : bool;
  shown : message;
  player : t;
  history : list ptr;
  playCounts : gmap string Z
}.

(** [playNext(playlist, ph, playCounts)].  [songs[currentIndex]] with an
    index outside the vector and [currentSong->title] through a dead
    pointer are undefined: [None].  [playCounts[title]++] is an increment
    of an [int], value-initialised to 0 when the title has no entry. *)
Definition playNext (p : t) (playlist : Playlist.t) (ph : list ptr)
    (playCounts : gmap string Z) : option outcome :=
  songs ← Playlist.get_all_songs playlist;
  if decide (songs = []) then
    Some (out false PlaylistIsEmpty p ph playCounts)
  else if decide (currentIndex p + 1 >= Z.of_nat (length songs)) then
    Some (out false ReachedEndOfPlaylist p ph playCounts)
  else
    let index := currentIndex p + 1 in
    song ← (if decide (0 ≤ index) then songs !! Z.to_nat index else None);
    s ← Playlist.heap playlist !! song;
    Some (out true (Next (index + 1) (Z.of_nat (length songs)) song)
              (mk index true (Some song))
              (PlaybackHistory.add ph song)
              (<[title s := wrap (default 0 (playCounts !! title s) + 1)]> playCounts)).

(** The console line of [playPrevious]. *)
Inductive previous_message :=
| PreviousPlaylistIsEmpty
| AlreadyAtBeginning
| Previous (position total : Z) (song : ptr).

Record previous_outcome := previous_out {
  previous_returned : bool;
  previous_shown : previous_message;
  previous_player : t;
  previous_history : list ptr;
  previous_playCounts : gmap string Z
}.

(** [playPrevious(playlist, ph, playCounts)].  There is no test of the
    index against the size of the vector: [songs[currentIndex]] past its
    end is undefined, [None]. *)
Definition playPrevious (p : t) (playlist : Playlist.t) (ph : list ptr)
    (playCounts : gmap string Z) : option previous_outcome :=
  songs ← Playlist.get_all_songs playlist;
  if decide (songs = []) then
    Some (previous_out false PreviousPlaylistIsEmpty p ph playCounts)
  else if decide (currentIndex p <= 0) then
    Some (previous_out false AlreadyAtBeginning p ph playCounts)
  else
    let index := currentIndex p - 1 in
    song ← songs !! Z.to_nat index;
    s ← Playlist.heap playlist !! song;
    Some (previous_out true (Previous (index + 1) (Z.of_nat (length songs)) song)
            (mk index true (Some song))
            (PlaybackHistory.add ph song)
            (<[title s := wrap (default 0 (playCounts !! title s) + 1)]> playCounts)).

(** The loop of [playEntirePlaylist], from position [i] on. *)
Fixpoint play_all (mem : gmap ptr Song) (songs : list ptr) (i : Z) (p : t)
    (ph : list ptr) (playCounts : gmap string Z)
  : option (t * list ptr * gmap string Z) :=
  match songs with
  | [] => Some (p, ph, playCounts)
  | song :: rest =>
      s ← mem !! song;
      play_all mem rest (i + 1) (mk i true (Some song)) (PlaybackHistory.add ph song)
        (<[title s := wrap (default 0 (playCounts !! title s) + 1)]> playCounts)
  end.

(** [playEntirePlaylist(playlist, ph, playCounts)]: the player, the history
    and the play counts after the call. *)
Definition playEntirePlaylist (p : t) (playlist : Playlist.t) (ph : list ptr)
    (playCounts : gmap string Z) : option (t * list ptr * gmap string Z) :=
  songs ← Playlist.get_all_songs playlist;
  if decide (songs = []) then Some (p, ph, playCounts)
  else
    '(p', ph', playCounts') ← play_all (Playlist.heap playlist) songs 0 p ph playCounts;
    Some (mk (currentIndex p') false (currentSong p'), ph', playCounts').

End PlaylistPlayer.

(** ** class AutoReplaySystem *)

Module AutoReplaySystem.

Definition calmingGenres : list string :=
  ["Lo-Fi"; "Jazz"; "Classical"; "Ambient"; "Chill"; "Lofi"].

(** [::tolower] in the "C" locale. *)
Definition tolower (c : ascii) : ascii :=
  let n := nat_of_ascii c in
  if decide (65 ≤ n ≤ 90)%nat then ascii_of_nat (n + 32) else c.

(** [transform(s.begin(), s.end(), s.begin(), ::tolower)] *)
Fixpoint lowered (s : string) : string :=
  match s with
  | EmptyString => EmptyString
  | String c r => String (tolower c) (lowered r)
  end.

Definition isCalming (genre : string) : bool :=
  existsb (λ calming, bool_decide (lowered genre = lowered calming)) calmingGenres.

(** [operator<] of [std::pair<int, Song*>] and [std::greater] over it.
    Pointers are ordered by address. *)
Definition pair_less (x y : Z * ptr) : Prop :=
  x.1 < y.1 ∨ (¬ y.1 < x.1 ∧ (x.2 < y.2)%positive).

Definition pair_greater (x y : Z * ptr) : Prop := pair_less y x.

(** [x] may stand before [y] in a range sorted by [pair_greater]. *)
Definition not_after (x y : Z * ptr) : Prop := ¬ pair_greater y x.

Global Instance pair_less_dec x y : Decision (pair_less x y).
Proof. unfold pair_less. apply _. Defined.

Global Instance pair_greater_dec x y : Decision (pair_greater x y).
Proof. unfold pair_greater. apply _. Defined.

Global Instance not_after_dec x y : Decision (not_after x y).
Proof. unfold not_after. apply _. Defined.

(** The entry pushed for a song that passes the filter. *)
Definition candidate (mem : gmap ptr Song) (playCounts : gmap string Z)
    (skipTracker : list ptr) (song : ptr) : option (Z * ptr) :=
  s ← mem !! song;
  if isCalming (genre s) && negb (RecentlySkippedTracker.isRecentlySkipped skipTracker song)
  then Some (default 0 (playCounts !! title s), song)
  else None.

(** [getTop3CalmingSongs(allSongs, playCounts, skipTracker)].  [std::sort]
    is modelled by a merge sort: [pair_greater] is a strict total order, so
    the sorted arrangement is unique (lemma [sorted_arrangement_unique]). *)
Definition getTop3CalmingSongs (mem : gmap ptr Song) (allSongs : list ptr)
    (playCounts : gmap string Z) (skipTracker : list ptr) : list ptr :=
  let calmingSongs := omap (candidate mem playCounts skipTracker) allSongs in
  if decide (calmingSongs = []) then []
  else
    let sorted := merge_sort not_after calmingSongs in
    (take (Nat.min 3 (length sorted)) sorted).*2.

(** The loop of [startAutoReplay]: [ph.add(song); playCounts[song->title]++]. *)
Fixpoint replay_loop (mem : gmap ptr Song) (calmingSongs ph : list ptr)
    (playCounts : gmap string Z) : option (list ptr * gmap string Z) :=
  match calmingSongs with
  | [] => Some (ph, playCounts)
  | song :: rest =>
      s ← mem !! song;
      replay_loop mem rest (PlaybackHistory.add ph song)
        (<[title s := wrap (default 0 (playCounts !! title s) + 1)]> playCounts)
  end.

(** [startAutoReplay(calmingSongs, ph, playCounts)] *)
Definition startAutoReplay (mem : gmap ptr Song) (calmingSongs ph : list ptr)
    (playCounts : gmap string Z) : option (list ptr * gmap string Z) :=
  if decide (calmingSongs = []) then Some (ph, playCounts)
  else replay_loop mem calmingSongs ph playCounts.

End AutoReplaySystem.

(** The play count that [getTop3CalmingSongs] reads for a song. *)
Definition play_count (mem : gmap ptr Song) (playCounts : gmap string Z) (song : ptr) : Z :=
  default 0 (mem !! song ≫= λ s, playCounts !! title s).

(** [x] ranks at least as high as [y]: more plays, or as many and an
    address that is not smaller. *)
Definition ranks_before (mem : gmap ptr Song) (playCounts : gmap string Z) (x y : ptr)
  : Prop :=
  play_count mem playCounts y < play_count mem playCounts x ∨
  (play_count mem playCounts x = play_count mem playCounts y ∧ (y ≤ x)%positive).

(** Equality of genre names up to the case of ASCII letters, stated without
    [tolower]: same length, and at each position the same character or the
    upper-case and lower-case form of one letter. *)
Definition is_upper (c : ascii) : Prop := (65 ≤ nat_of_ascii c ≤ 90)%nat.

Definition same_letter (c d : ascii) : Prop :=
  c = d ∨
  (is_upper c ∧ nat_of_ascii d = (nat_of_ascii c + 32)%nat) ∨
  (is_upper d ∧ nat_of_ascii c = (nat_of_ascii d + 32)%nat).

Fixpoint equal_ignoring_case (s1 s2 : string) : Prop :=
  match s1, s2 with
  | EmptyString, EmptyString => True
  | String c r1, String d r2 => same_letter c d ∧ equal_ignoring_case r1 r2
  | _, _ => False
  end.

(** The five genres the specification lists. *)
Definition five_genres : list string := ["Lo-Fi"; "Jazz"; "Classical"; "Ambient"; "Chill"].

(** ** What the remaining operations are measured against *)

(** The metadata of a song: everything but its links. *)
Definition meta (s : Song) : string * string * string * Z :=
  (title s, artist s, genre s, duration s).

(** How many songs of a sequence carry the title [t]. *)
Definition plays_of (mem : gmap ptr Song) (songs : list ptr) (t : string) : Z :=
  Z.of_nat (length (filter (λ a, title <$> mem !! a = Some t) songs)).

(** The play counts after one play of each song of a sequence. *)
Definition counts_after (mem : gmap ptr Song) (songs : list ptr)
    (playCounts : gmap string Z) (t : string) : option Z :=
  if decide (0 < plays_of mem songs t)
  then Some (default 0 (playCounts !! t) + plays_of mem songs t)
  else playCounts !! t.

(** The same in [int] arithmetic, as the code computes it. *)
Definition int_counts_after (mem : gmap ptr Song) (songs : list ptr)
    (playCounts : gmap string Z) (t : string) : option Z :=
  if decide (0 < plays_of mem songs t)
  then Some (wrap (default 0 (playCounts !! t) + plays_of mem songs t))
  else playCounts !! t.

(** The player, the history and the play counts after [k] presses of
    "Play Next Song". *)
Fixpoint after_next (k : nat) (p : PlaylistPlayer.t) (playlist : Playlist.t)
    (ph : list ptr) (playCounts : gmap string Z)
  : option (PlaylistPlayer.t * list ptr * gmap string Z) :=
  match k with
  | O => Some (p, ph, playCounts)
  | S k' =>
      '(p1, ph1, playCounts1) ← after_next k' p playlist ph playCounts;
      o ← PlaylistPlayer.playNext p1 playlist ph1 playCounts1;
      Some (PlaylistPlayer.player o, PlaylistPlayer.history o, PlaylistPlayer.playCounts o)
  end.

(** ** Persistence: parts of [save_all_data], and [load_all_data]

    The data file is a sequence of lines.  [operator<<] on [int],
    [std::stoi] ([None] when it throws, which ends the program: nothing
    catches the exception) and the address that [new Song] returns are
    parameters. *)

(** The seven objects that [main] creates and [load_all_data] fills. *)
Module Session.

Record t := mk {
  playlist : Playlist.t;
  lookup : gmap string ptr;
  playCounts : gmap string Z;
  srt : gmap Z (list ptr);
  ph : list ptr;
  skipTracker : list ptr;
  recentTracker : list ptr
}.

(** The objects as [main] declares them. *)
Definition fresh : t := mk Playlist.empty ∅ ∅ ∅ [] [] [].

End Session.

(** [line.back()] *)
Fixpoint back (line : string) : option ascii :=
  match line with
  | EmptyString => None
  | String c EmptyString => Some c
  | String _ rest => back rest
  end.

(** [line[0] == '[' && line.back() == ']'] on a line that is not empty. *)
Definition is_header (line : string) : bool :=
  match line with
  | String c _ => bool_decide (c = "["%char) && bool_decide (back line = Some "]"%char)
  | EmptyString => false
  end.

(** [getline(ss, field, ',')] on a stream that still holds [s]: the field,
    and what the stream holds afterwards ([None] once it has reached its
    end). *)
Fixpoint getline_comma (s : string) : string * option string :=
  match s with
  | EmptyString => (EmptyString, None)
  | String c rest =>
      if decide (c = ","%char) then (EmptyString, Some rest)
      else let '(field, remaining) := getline_comma rest in (String c field, remaining)
  end.

(** The same on a stream that may have reached its end, where the field
    stays empty. *)
Definition next_field (stream : option string) : string * option string :=
  match stream with
  | None => (EmptyString, None)
  | Some s => getline_comma s
  end.

(** The order in which a [std::map<int, T>] is walked: by ascending key. *)
Definition key_le {A} (x y : Z * A) : Prop := x.1 ≤ y.1.

Global Instance key_le_dec {A} : RelDecision (@key_le A).
Proof. intros x y. unfold key_le. apply _. Defined.

Definition in_key_order {A} (m : gmap Z A) : list (Z * A) :=
  merge_sort key_le (map_to_list m).

Section Persistence.
Variable show_int : Z → string.
Variable stoi : string → option Z.
Variable alloc : gmap ptr Song → ptr.

(** The line that [save_all_data] writes for a song in [[SONGS]]. *)
Definition song_line (s : Song) : string :=
  title s +:+ "," +:+ artist s +:+ "," +:+ genre s +:+ "," +:+ show_int (duration s).

(** The line that [save_all_data] writes for an entry of [playCounts] in
    [[PLAY_COUNTS]]. *)
Definition count_line (title : string) (count : Z) : string :=
  title +:+ "," +:+ show_int count.

(** [song->title] for each song of a vector, [None] when a pointer is
    dead. *)
Definition title_lines (mem : gmap ptr Song) (songs : list ptr) : option (list string) :=
  mapM (λ a, title <$> mem !! a) songs.

(** The [[HISTORY]], [[SKIPPED]] and [[RECENT_ADDED]] parts of
    [save_all_data]: the header, then one title a line. *)
Definition history_block (mem : gmap ptr Song) (ph : list ptr) : option (list string) :=
  lines ← title_lines mem (PlaybackHistory.get_recently_played ph 5);
  Some ("[HISTORY]" :: lines).

Definition skipped_block (mem : gmap ptr Song) (skipTracker : list ptr)
  : option (list string) :=
  lines ← title_lines mem (RecentlySkippedTracker.getSkippedSongs skipTracker);
  Some ("[SKIPPED]" :: lines).

Definition recent_added_block (mem : gmap ptr Song) (recentTracker : list ptr)
  : option (list string) :=
  lines ← title_lines mem (RecentlyAddedTracker.getRecentlyAdded recentTracker 15);
  Some ("[RECENT_ADDED]" :: lines).

(** The line that [save_all_data] writes for a song of a rating group in
    [[RATINGS]]. *)
Definition rating_line (title : string) (rating : Z) : string :=
  title +:+ "," +:+ show_int rating.

(** The loop of [save_all_data] over [ratingCounts]: for a rating with a
    positive count, one line for each song that [search_by_rating] returns;
    the rating map goes through the subscript of [search_by_rating]. *)
Fixpoint ratings_loop (mem : gmap ptr Song) (ratingCounts : list (Z * Z))
    (srt : gmap Z (list ptr)) : option (list string * gmap Z (list ptr)) :=
  match ratingCounts with
  | [] => Some ([], srt)
  | pair_ :: rest =>
      if decide (pair_.2 > 0) then
        let '(songsWithRating, srt') := SongRatingTree.search_by_rating srt pair_.1 in
        lines ← mapM (λ song, s ← mem !! song; Some (rating_line (title s) pair_.1))
                  songsWithRating;
        '(more, srt'') ← ratings_loop mem rest srt';
        Some (lines ++ more, srt'')
      else ratings_loop mem rest srt
  end.

(** The [[RATINGS]] part of [save_all_data]: the lines, and the rating map
    afterwards. *)
Definition ratings_block (mem : gmap ptr Song) (srt : gmap Z (list ptr))
  : option (list string * gmap Z (list ptr)) :=
  let ratingCounts := SongRatingTree.get_song_count_by_rating srt in
  '(lines, srt') ← ratings_loop mem (in_key_order ratingCounts) srt;
  Some ("[RATINGS]" :: lines, srt').

(** The body of the loop of [load_all_data]: the current section and the
    objects, before and after one line. *)
Definition load_line (state : string * Session.t) (line : string)
  : option (string * Session.t) :=
  let '(section, st) := state in
  if decide (line = "") then Some state
  else if is_header line then Some (line, st)
  else if decide (section = "[SONGS]") then
    let '(title, stream) := getline_comma line in
    let '(artist, stream) := next_field stream in
    let '(genre, stream) := next_field stream in
    let '(duration_str, _) := next_field stream in
    duration ← stoi duration_str;
    let '(playlist', newSong) :=
      Playlist.add_song (Session.playlist st) (alloc (Playlist.heap (Session.playlist st)))
        title artist genre duration in
    Some (section,
          Session.mk playlist'
            (SongLookup.add (Session.lookup st) (Playlist.heap playlist') newSong)
            (Session.playCounts st) (Session.srt st) (Session.ph st)
            (Session.skipTracker st) (Session.recentTracker st))
  else if decide (section = "[PLAY_COUNTS]") then
    let '(title, stream) := getline_comma line in
    let '(count_str, _) := next_field stream in
    count ← stoi count_str;
    Some (section,
          Session.mk (Session.playlist st) (Session.lookup st)
            (<[title := count]> (Session.playCounts st)) (Session.srt st) (Session.ph st)
            (Session.skipTracker st) (Session.recentTracker st))
  else if decide (section = "[RATINGS]") then
    let '(title, stream) := getline_comma line in
    let '(rating_str, _) := next_field stream in
    match SongLookup.get (Session.lookup st) title with
    | Some song =>
        rating ← stoi rating_str;
        Some (section,
              Session.mk (Session.playlist st) (Session.lookup st) (Session.playCounts st)
                (SongRatingTree.insert_song (Session.srt st) song rating) (Session.ph st)
                (Session.skipTracker st) (Session.recentTracker st))
    | None => Some state
    end
  else if decide (section = "[HISTORY]") then
    match SongLookup.get (Session.lookup st) line with
    | Some song =>
        Some (section,
              Session.mk (Session.playlist st) (Session.lookup st) (Session.playCounts st)
                (Session.srt st) (PlaybackHistory.add (Session.ph st) song)
                (Session.skipTracker st) (Session.recentTracker st))
    | None => Some state
    end
  else if decide (section = "[SKIPPED]") then
    match SongLookup.get (Session.lookup st) line with
    | Some song =>
        Some (section,
              Session.mk (Session.playlist st) (Session.lookup st) (Session.playCounts st)
                (Session.srt st) (Session.ph st)
                (RecentlySkippedTracker.addSkippedSong (Session.skipTracker st) song)
                (Session.recentTracker st))
    | None => Some state
    end
  else if decide (section = "[RECENT_ADDED]") then
    match SongLookup.get (Session.lookup st) line with
    | Some song =>
        Some (section,
              Session.mk (Session.playlist st) (Session.lookup st) (Session.playCounts st)
                (Session.srt st) (Session.ph st) (Session.skipTracker st)
                (RecentlyAddedTracker.addRecentSong (Session.recentTracker st) song))
    | None => Some state
    end
  else Some state.

(** The loop [while (getline(file, line))]. *)
Fixpoint load_lines (state : string * Session.t) (lines : list string)
  : option (string * Session.t) :=
  match lines with
  | [] => Some state
  | line :: rest => state' ← load_line state line; load_lines state' rest
  end.

(** [load_all_data]; [file] is [None] when the file cannot be opened. *)
Definition load_all_data (file : option (list string)) (st : Session.t)
  : option Session.t :=
  match file with
  | None => Some st
  | Some lines => snd <$> load_lines (EmptyString, st) lines
  end.

End Persistence.

(** A session with another rating map, history, skip window or window of
    additions. *)
Definition with_srt (st : Session.t) (srt : gmap Z (list ptr)) : Session.t :=
  Session.mk (Session.playlist st) (Session.lookup st) (Session.playCounts st)
    srt (Session.ph st) (Session.skipTracker st) (Session.recentTracker st).

Definition with_ph (st : Session.t) (ph : list ptr) : Session.t :=
  Session.mk (Session.playlist st) (Session.lookup st) (Session.playCounts st)
    (Session.srt st) ph (Session.skipTracker st) (Session.recentTracker st).

Definition with_skipTracker (st : Session.t) (skipTracker : list ptr) : Session.t :=
  Session.mk (Session.playlist st) (Session.lookup st) (Session.playCounts st)
    (Session.srt st) (Session.ph st) skipTracker (Session.recentTracker st).

Definition with_recentTracker (st : Session.t) (recentTracker : list ptr) : Session.t :=
  Session.mk (Session.playlist st) (Session.lookup st) (Session.playCounts st)
    (Session.srt st) (Session.ph st) (Session.skipTracker st) recentTracker.

(** The [insert_song] calls that the loaded [[RATINGS]] lines amount to,
    for the ratings in the order of the file: each song of a group under
    its rating, as the song [new a] that its title resolves to. *)
Definition loaded_ratings (new : ptr → ptr) (srt : gmap Z (list ptr)) (ratings : list Z)
  : list (ptr * Z) :=
  ratings ≫= λ r, (λ a, (new a, r)) <$> default [] (srt !! r).

(** A text of decimal digits and minus signs, as [operator<<] writes an
    [int]. *)
Fixpoint decimal (s : string) : Prop :=
  match s with
  | EmptyString => True
  | String c rest => (c = "-"%char ∨ (48 ≤ nat_of_ascii c ≤ 57)%nat) ∧ decimal rest
  end.

(** The number of commas of a line. *)
Fixpoint commas (s : string) : nat :=
  match s with
  | EmptyString => O
  | String c rest => if decide (c = ","%char) then S (commas rest) else commas rest
  end.

(** The number of fields that a stream can still give after the next one. *)
Definition commas_left (stream : option string) : nat :=
  match stream with
  | None => O
  | Some s => S (commas s)
  end.

(** A title that a line of the file can carry: not empty and not of the
    form of a section header. *)
Definition plain_title (t : string) : Prop := t ≠ "" ∧ is_header t = false.

(** A text without a comma. *)
Fixpoint comma_free (s : string) : Prop :=
  match s with
  | EmptyString => True
  | String c rest => c ≠ ","%char ∧ comma_free rest
  end.

(** * Proofs *)

(** ** int *)

Section Int.
Implicit Types (z n : Z).

Lemma wrap_in_range z : INT_MIN ≤ z ≤ INT_MAX → wrap z = z.
Proof.
  unfold INT_MIN, INT_MAX, wrap. intros Hz. rewrite Z.mod_small by lia. lia.
Qed.

Lemma wrap_range z : INT_MIN ≤ wrap z ≤ INT_MAX.
Proof.
  unfold INT_MIN, INT_MAX, wrap.
  pose proof (Z.mod_pos_bound (z + 2147483648) 4294967296). lia.
Qed.

(** Increments compose modulo the wrap-around. *)
Lemma wrap_add z n : wrap (wrap z + n) = wrap (z + n).
Proof.
  unfold wrap.
  replace ((z + 2147483648) mod 4294967296 - 2147483648 + n + 2147483648)
    with ((z + 2147483648) mod 4294967296 + n) by lia.
  rewrite Zplus_mod_idemp_l. f_equal. f_equal. lia.
Qed.

(** One before [INT_MIN] is [INT_MAX]. *)
Lemma wrap_before_INT_MIN : wrap (INT_MIN - 1) = INT_MAX.
Proof. reflexivity. Qed.

End Int.

(** ** Nodes and segments *)

Section Segments.
Implicit Types (h : gmap ptr Song) (a b : ptr) (ls : list ptr) (pv nx : option ptr).

Lemma load_next_node h a pv nx : node h a pv nx → load_next h a = nx.
Proof. intros (s & Hs & _ & <-). unfold load_next. by rewrite Hs. Qed.

Lemma load_prev_node h a pv nx : node h a pv nx → load_prev h a = pv.
Proof. intros (s & Hs & <- & _). unfold load_prev. by rewrite Hs. Qed.

Lemma node_alter_ne h f a b pv nx :
  a ≠ b → node (alter f b h) a pv nx ↔ node h a pv nx.
Proof. intros Hne. unfold node. by rewrite lookup_alter_ne. Qed.

Lemma node_set_next h a pv nx nx' :
  node h a pv nx → node (alter (set_next nx') a h) a pv nx'.
Proof.
  intros (s & Hs & Hp & _). exists (set_next nx' s).
  rewrite lookup_alter_eq, Hs. done.
Qed.

Lemma node_set_prev h a pv nx pv' :
  node h a pv nx → node (alter (set_prev pv') a h) a pv' nx.
Proof.
  intros (s & Hs & _ & Hn). exists (set_prev pv' s).
  rewrite lookup_alter_eq, Hs. done.
Qed.

Lemma node_swap_links h a pv nx :
  node h a pv nx → node (alter swap_links a h) a nx pv.
Proof.
  intros (s & Hs & Hp & Hn). exists (swap_links s).
  rewrite lookup_alter_eq, Hs. done.
Qed.

Lemma node_live h a pv nx : node h a pv nx → is_Some (h !! a).
Proof. intros (s & Hs & _). eauto. Qed.

(** A store that agrees with [h] on the nodes of a segment holds the same
    segment. *)
Lemma dlseg_agree h h' pv ls nx :
  (∀ a, a ∈ ls → h' !! a = h !! a) → dlseg h pv ls nx → dlseg h' pv ls nx.
Proof.
  revert pv. induction ls as [|a r IH]; intros pv Hag; simpl; [done|].
  intros [(s & Hs & Hp & Hn) Hr]. split.
  - exists s. rewrite Hag by left. done.
  - apply IH; [|done]. intros b Hb. apply Hag. by right.
Qed.

Lemma dlseg_alter h f b pv ls nx :
  b ∉ ls → dlseg h pv ls nx → dlseg (alter f b h) pv ls nx.
Proof.
  intros Hb. apply dlseg_agree. intros a Ha.
  apply lookup_alter_ne. intros ->. done.
Qed.

Lemma dlseg_delete h b pv ls nx :
  b ∉ ls → dlseg h pv ls nx → dlseg (delete b h) pv ls nx.
Proof.
  intros Hb. apply dlseg_agree. intros a Ha.
  apply lookup_delete_ne. intros ->. done.
Qed.

Lemma dlseg_insert h s b pv ls nx :
  b ∉ ls → dlseg h pv ls nx → dlseg (<[b := s]> h) pv ls nx.
Proof.
  intros Hb. apply dlseg_agree. intros a Ha.
  apply lookup_insert_ne. intros ->. done.
Qed.

Lemma dlseg_live h pv ls nx a : dlseg h pv ls nx → a ∈ ls → is_Some (h !! a).
Proof.
  revert pv. induction ls as [|b r IH]; intros pv; simpl.
  - intros _ Ha. by apply elem_of_nil in Ha.
  - intros [Hn Hr] [->|Ha]%elem_of_cons; [by eapply node_live | by eapply IH].
Qed.

Lemma first_or_app l1 l2 nx : first_or (l1 ++ l2) nx = first_or l1 (first_or l2 nx).
Proof. by destruct l1. Qed.

Lemma last_or_cons a ls pv : last_or (a :: ls) pv = last_or ls (Some a).
Proof. unfold last_or. rewrite last_cons. by destruct (last ls). Qed.

Lemma first_or_None ls : first_or ls None = head ls.
Proof. by destruct ls. Qed.

Lemma last_or_None ls : last_or ls None = last ls.
Proof. unfold last_or. by destruct (last ls). Qed.

(** Splitting and joining segments. *)
Lemma dlseg_app h pv l1 l2 nx :
  dlseg h pv (l1 ++ l2) nx ↔
  dlseg h pv l1 (first_or l2 nx) ∧ dlseg h (last_or l1 pv) l2 nx.
Proof.
  revert pv. induction l1 as [|a r IH]; intros pv; simpl.
  - unfold last_or. simpl. tauto.
  - rewrite first_or_app, last_or_cons, IH. tauto.
Qed.

(** [last->next = nx'] on the last node of a segment. *)
Lemma dlseg_set_next_last h pv ls b nx nx' :
  NoDup ls → last ls = Some b → dlseg h pv ls nx →
  dlseg (alter (set_next nx') b h) pv ls nx'.
Proof.
  intros Hnd Hlast Hseg.
  destruct (last_Some ls b) as [[l' ->] _]; [done|].
  apply NoDup_app in Hnd as (_ & Hdis & _).
  apply dlseg_app in Hseg as [H1 [H2 _]]. apply dlseg_app. simpl in *. split.
  - apply dlseg_alter; [|done]. intros Hb. apply (Hdis b Hb). by left.
  - split; [|done]. by eapply node_set_next.
Qed.

(** [first->prev = pv'] on the first node of a segment. *)
Lemma dlseg_set_prev_first h pv a r nx pv' :
  NoDup (a :: r) → dlseg h pv (a :: r) nx →
  dlseg (alter (set_prev pv') a h) pv' (a :: r) nx.
Proof.
  intros [Ha _]%NoDup_cons [Hn Hr]. simpl. split.
  - by eapply node_set_prev.
  - by apply dlseg_alter.
Qed.

(** The search loops find the node at the index, or [nullptr] past the
    end. *)
Lemma advance_dlseg h pv ls n :
  dlseg h pv ls None → Playlist.advance h (head ls) n = ls !! n.
Proof.
  revert pv ls. induction n as [|n IH]; intros pv [|a r]; simpl; try done.
  intros [Hn Hr]. rewrite (load_next_node _ _ _ _ Hn), first_or_None. by eapply IH.
Qed.

Lemma collect_dlseg h pv ls fuel :
  dlseg h pv ls None → (length ls ≤ fuel)%nat →
  Playlist.collect fuel h (head ls) = Some ls.
Proof.
  revert pv fuel. induction ls as [|a r IH]; intros pv fuel; simpl.
  - by destruct fuel.
  - intros [Hn Hr] Hlen. destruct fuel as [|fuel]; [lia|]. simpl.
    rewrite (load_next_node _ _ _ _ Hn), first_or_None.
    rewrite (IH (Some a)); [done|done|lia].
Qed.

(** Distinct live nodes are no more than the store holds. *)
Lemma live_nodes_size h ls :
  NoDup ls → (∀ a, a ∈ ls → is_Some (h !! a)) → (length ls ≤ size h)%nat.
Proof.
  intros Hnd Hlive.
  rewrite <- size_dom, <- (size_list_to_set (C := gset ptr) ls) by done.
  apply subseteq_size. intros a Ha%elem_of_list_to_set.
  by apply elem_of_dom, Hlive.
Qed.

End Segments.

(** ** The playlist as a sequence *)

(** Reduce the projections of a playlist that an operation has built. *)
Ltac playlist_fields := cbn [Playlist.heap Playlist.head Playlist.tail fst snd] in *.

Section PlaylistSequence.
Implicit Types (pl : Playlist.t) (ls : list ptr) (a : ptr).

Lemma Playlist_dll_empty : Playlist_dll Playlist.empty [].
Proof. repeat split. constructor. Qed.

Lemma Playlist_dll_live pl ls a :
  Playlist_dll pl ls → a ∈ ls → is_Some (Playlist.heap pl !! a).
Proof. intros (_ & _ & _ & Hseg). by eapply dlseg_live. Qed.

Lemma Playlist_dll_size pl ls :
  Playlist_dll pl ls → (length ls ≤ size (Playlist.heap pl))%nat.
Proof.
  intros Hdll. apply live_nodes_size; [apply Hdll|].
  intros a. by eapply Playlist_dll_live.
Qed.

(** [get_all_songs] terminates on a well-formed playlist and returns its
    nodes in order. *)
Lemma get_all_songs_dll pl ls :
  Playlist_dll pl ls → Playlist.get_all_songs pl = Some ls.
Proof.
  intros Hdll. pose proof (Playlist_dll_size _ _ Hdll) as Hsz.
  destruct Hdll as (_ & Hhd & _ & Hseg).
  unfold Playlist.get_all_songs. rewrite Hhd. by eapply collect_dlseg.
Qed.

Lemma Playlist_dll_unique pl ls ls' :
  Playlist_dll pl ls → Playlist_dll pl ls' → ls = ls'.
Proof.
  intros H1%get_all_songs_dll H2%get_all_songs_dll. congruence.
Qed.

Lemma advance_dll pl ls n :
  Playlist_dll pl ls → Playlist.advance (Playlist.heap pl) (Playlist.head pl) n = ls !! n.
Proof. intros (_ & -> & _ & Hseg). by eapply advance_dlseg. Qed.

(** [add_song] appends a node, provided the allocator returns an address
    that is not live. *)
Lemma add_song_dll pl ls a t ar g d :
  Playlist_dll pl ls → Playlist.heap pl !! a = None →
  Playlist_dll (Playlist.add_song pl a t ar g d).1 (ls ++ [a]).
Proof.
  intros Hdll Hfresh.
  assert (a ∉ ls) as Hnotin.
  { intros Ha. destruct (Playlist_dll_live _ _ _ Hdll Ha) as [s Hs]. congruence. }
  destruct Hdll as (Hnd & Hhd & Htl & Hseg).
  assert (NoDup (ls ++ [a])) as Hnd'.
  { apply NoDup_app. repeat split; [done| |apply NoDup_singleton].
    intros x Hx ->%list_elem_of_singleton. done. }
  unfold Playlist.add_song. rewrite Hhd, Htl.
  destruct ls as [|b r]; simpl.
  - repeat split; [done|]. simpl. eexists. rewrite lookup_insert_eq. done.
  - destruct (last (b :: r)) as [tl|] eqn:Hlast.
    2:{ by rewrite last_cons in Hlast; destruct (last r). }
    change (b :: r ++ [a]) with ((b :: r) ++ [a]).
    split; [done|]. split; [done|]. split; playlist_fields.
    + by rewrite last_app.
    + apply dlseg_app. split.
      * apply dlseg_alter; [done|].
        apply dlseg_set_next_last with (nx := None); [done|done|].
        by apply dlseg_insert.
      * simpl. split; [|done]. rewrite last_or_None, Hlast.
        eexists. rewrite lookup_alter_eq, lookup_alter_ne, lookup_insert_eq.
        -- done.
        -- intros ->. apply Hnotin. by eapply last_Some_elem_of.
Qed.

Lemma Playlist_dll_nil pl ls :
  Playlist_dll pl ls → Playlist.head pl = None → ls = [].
Proof. intros (_ & Hh & _) Hhd. rewrite Hhd in Hh. by destruct ls. Qed.

Lemma delete_past_end (l : list ptr) (i : nat) :
  (length l ≤ i)%nat → delete i l = l.
Proof.
  intros Hi. rewrite delete_take_drop, take_ge, drop_ge by lia.
  apply app_nil_r.
Qed.

(** The node found at a position of a well-formed playlist. *)
Lemma Playlist_dll_node pl l1 a l2 :
  Playlist_dll pl (l1 ++ a :: l2) →
  node (Playlist.heap pl) a (last l1) (head l2) ∧ (a ∉ l1) ∧ (a ∉ l2).
Proof.
  intros (Hnd & _ & _ & Hseg).
  apply NoDup_app in Hnd as (_ & Hdis & Hnd2).
  apply NoDup_cons in Hnd2 as [Ha2 _].
  apply dlseg_app in Hseg as [_ [Hna _]].
  rewrite last_or_None, first_or_None in Hna.
  split; [done|]. split; [|done]. intros Ha. apply (Hdis a Ha). by left.
Qed.

(** Unlinking a node leaves a well-formed playlist over the other nodes and
    does not touch the node itself. *)
Lemma unlink_dll pl l1 a l2 :
  Playlist_dll pl (l1 ++ a :: l2) →
  Playlist_dll (Playlist.unlink pl a) (l1 ++ l2) ∧
  Playlist.heap (Playlist.unlink pl a) !! a = Playlist.heap pl !! a.
Proof.
  intros Hdll. destruct (Playlist_dll_node _ _ _ _ Hdll) as (Hna & Ha1 & Ha2).
  destruct Hdll as (Hnd & Hhd & Htl & Hseg).
  apply NoDup_app in Hnd as (Hnd1 & Hdis & Hnd2).
  apply NoDup_cons in Hnd2 as [_ Hnd2].
  apply dlseg_app in Hseg as [Hs1 [_ Hs2]]. simpl in Hs1.
  unfold Playlist.unlink.
  rewrite (load_prev_node _ _ _ _ Hna), (load_next_node _ _ _ _ Hna).
  set (h := Playlist.heap pl) in *.
  set (h1 := match last l1 with Some b => alter _ b h | None => h end).
  assert (h1 !! a = h !! a) as Hh1a.
  { subst h1. destruct (last l1) as [b|] eqn:Hb; [|done].
    apply lookup_alter_ne. intros ->. apply Ha1. by eapply last_Some_elem_of. }
  assert (dlseg h1 None l1 (head l2)) as Hs1'.
  { subst h1. destruct (last l1) as [b|] eqn:Hb.
    - by eapply dlseg_set_next_last.
    - apply last_None in Hb as ->. done. }
  assert (dlseg h1 (Some a) l2 None) as Hs2'.
  { subst h1. destruct (last l1) as [b|] eqn:Hb; [|done].
    apply dlseg_alter; [|done]. intros Hb2. apply last_Some_elem_of in Hb.
    apply (Hdis b Hb). by right. }
  assert (node h1 a (last l1) (head l2)) as Hna1.
  { destruct Hna as (s & Hs & Hp & Hn). exists s. by rewrite Hh1a. }
  rewrite (load_prev_node _ _ _ _ Hna1), (load_next_node _ _ _ _ Hna1).
  set (h2 := match head l2 with Some c => alter _ c h1 | None => h1 end).
  assert (h2 !! a = h !! a) as Hh2a.
  { rewrite <- Hh1a. subst h2. destruct l2 as [|c r2]; [done|]. simpl.
    apply lookup_alter_ne. intros ->. apply Ha2. by left. }
  assert (dlseg h2 None l1 (head l2)) as Hs1''.
  { subst h2. destruct l2 as [|c r2]; [done|]. simpl.
    apply dlseg_alter; [|done]. intros Hc. apply (Hdis c Hc). right. by left. }
  assert (dlseg h2 (last l1) l2 None) as Hs2''.
  { subst h2. destruct l2 as [|c r2]; [done|]. cbn [head hd_error].
    by eapply dlseg_set_prev_first. }
  assert (node h2 a (last l1) (head l2)) as Hna2.
  { destruct Hna as (s & Hs & Hp & Hn). exists s. by rewrite Hh2a. }
  rewrite (load_prev_node _ _ _ _ Hna2), (load_next_node _ _ _ _ Hna2).
  split; [|done]. split; [|split; [|split]]; playlist_fields.
  - apply NoDup_app. split; [done|]. split; [|done].
    intros x Hx Hx2. apply (Hdis x Hx). by right.
  - rewrite Hhd. destruct l1 as [|b r1]; simpl.
    + by rewrite decide_True.
    + rewrite decide_False; [done|]. intros [= ->]. apply Ha1. by left.
  - rewrite Htl, !last_app, last_cons.
    destruct (last l2) as [y|] eqn:Hy.
    + rewrite decide_False; [done|]. intros [= ->].
      apply Ha2. by eapply last_Some_elem_of.
    + by rewrite decide_True.
  - apply dlseg_app. rewrite first_or_None, last_or_None. done.
Qed.

End PlaylistSequence.

Section PlaylistOperations.
Implicit Types (pl : Playlist.t) (ls : list ptr) (a : ptr).

(** [delete_song] removes the node at the index, where a negative index
    counts as 0; past the end it changes nothing. *)
Lemma delete_song_dll pl ls index :
  Playlist_dll pl ls →
  Playlist_dll (Playlist.delete_song pl index) (delete (Z.to_nat index) ls).
Proof.
  intros Hdll. unfold Playlist.delete_song.
  destruct (Playlist.head pl) as [hd|] eqn:Hhd.
  2:{ assert (ls = []) as -> by by eapply Playlist_dll_nil.
      by destruct (Z.to_nat index). }
  rewrite <- Hhd, (advance_dll _ _ _ Hdll).
  destruct (ls !! Z.to_nat index) as [a|] eqn:Hidx.
  2:{ apply lookup_ge_None in Hidx. by rewrite delete_past_end. }
  rewrite <- (take_drop_middle _ _ _ Hidx) in Hdll.
  rewrite delete_take_drop.
  destruct (unlink_dll _ _ _ _ Hdll) as [(Hnd & Hh & Ht & Hseg) _].
  destruct (Playlist_dll_node _ _ _ _ Hdll) as (_ & Ha1 & Ha2).
  split; [done|]. split; [done|]. split; [done|]. playlist_fields.
  apply dlseg_delete; [|done].
  intros [Ha|Ha]%elem_of_app; done.
Qed.

Lemma insert_at_past_end (k : nat) a ls :
  (length ls ≤ k)%nat → insert_at k a ls = ls ++ [a].
Proof. intros Hk. unfold insert_at. by rewrite take_ge, drop_ge by lia. Qed.

Lemma insert_at_after (k : nat) a b ls :
  ls !! k = Some b →
  insert_at (S k) a ls = (take k ls ++ [b]) ++ a :: drop (S k) ls.
Proof. intros Hk. unfold insert_at. by erewrite take_S_r. Qed.

(** The insertion half of [move_song] puts the node at position 0 when the
    adjusted target is 0, and otherwise behind the node at the adjusted
    target less one, or at the end when there is no such node. *)
Lemma relink_dll pl1 rest a to_index :
  Playlist_dll pl1 rest → a ∉ rest → node (Playlist.heap pl1) a None None →
  Playlist_dll (Playlist.relink pl1 a to_index)
    (insert_at (if decide (to_index = 0) then 0%nat else S (Z.to_nat (wrap (to_index - 1))))
       a rest).
Proof.
  intros Hdll Ha Hna. unfold Playlist.relink.
  pose proof (advance_dll _ _ (Z.to_nat (wrap (to_index - 1))) Hdll) as Hadv.
  destruct Hdll as (Hnd & Hhd & Htl & Hseg).
  set (h := Playlist.heap pl1) in *. rewrite Hhd, Htl in *. clear Hhd Htl.
  assert (NoDup (a :: rest)) as Hnd' by by apply NoDup_cons.
  destruct (decide (to_index = 0)) as [_|_].
  - (* at the beginning *)
    unfold insert_at. rewrite take_0, drop_0. simpl app.
    split; [done|]. split; [done|]. split; playlist_fields.
    { rewrite last_cons. by destruct (last rest). }
    destruct rest as [|b r]; cbn [head hd_error dlseg first_or].
    + split; [|done]. by apply node_set_next with (nx := None).
    + split.
      * apply node_alter_ne; [intros ->; apply Ha; by left|].
        by apply node_set_next with (nx := None).
      * apply dlseg_set_prev_first with (pv := None); [done|].
        by apply dlseg_alter.
  - rewrite Hadv. destruct (rest !! Z.to_nat (wrap (to_index - 1))) as [temp|] eqn:Hk.
    + (* behind temp *)
      rewrite (insert_at_after _ _ _ _ Hk).
      pose proof (take_drop_middle _ _ _ Hk) as Hrest.
      set (p := take (Z.to_nat (wrap (to_index - 1))) rest) in *.
      set (m2 := drop (S (Z.to_nat (wrap (to_index - 1)))) rest) in *.
      clearbody p m2. clear Hk Hadv Hnd'. subst rest.
      assert (a ≠ temp) as Hat.
      { intros ->. apply Ha. apply elem_of_app. right. by left. }
      assert (a ∉ p ++ [temp]) as Hap.
      { intros [H|H%list_elem_of_singleton]%elem_of_app; [|done].
        apply Ha, elem_of_app. by left. }
      assert (a ∉ m2) as Ham.
      { intros H. apply Ha, elem_of_app. right. by right. }
      rewrite (cons_middle temp), app_assoc in Hnd, Hseg.
      apply NoDup_app in Hnd as (Hnd1 & Hdis & Hnd2).
      apply dlseg_app in Hseg as [Hs1 Hs2].
      rewrite first_or_None in Hs1.
      rewrite last_or_None, last_snoc in Hs2.
      assert (node h temp (last p) (head m2)) as Hnt.
      { apply dlseg_app in Hs1 as [_ [Hnt _]]. by rewrite last_or_None in Hnt. }
      rewrite (load_next_node _ _ _ _ Hnt).
      set (h1 := alter (set_next (head m2)) a h).
      set (h2 := alter (set_prev (Some temp)) a h1).
      assert (node h2 a (Some temp) (head m2)) as Hna2.
      { apply node_set_prev with (pv := None). by eapply node_set_next. }
      assert (load_next h2 temp = head m2) as ->.
      { unfold load_next, h2, h1. rewrite !lookup_alter_ne by done.
        by apply (load_next_node _ _ _ _ Hnt). }
      set (h3 := match head m2 with Some c => alter _ c h2 | None => h2 end).
      assert (h3 !! a = h2 !! a) as Hh3a.
      { subst h3. destruct m2 as [|c r2]; [done|]. cbn [head hd_error].
        apply lookup_alter_ne. intros ->. apply Ham. by left. }
      assert (dlseg h3 None (p ++ [temp]) (head m2)) as Hs1'.
      { subst h3. destruct m2 as [|c r2]; cbn [head hd_error].
        - by do 2 (apply dlseg_alter; [done|]).
        - apply dlseg_alter; [|by do 2 (apply dlseg_alter; [done|])].
          intros Hc. apply (Hdis c Hc). by left. }
      assert (dlseg h3 (Some a) m2 None) as Hs2'.
      { subst h3. destruct m2 as [|c r2]; [done|]. cbn [head hd_error].
        apply dlseg_set_prev_first with (pv := Some temp); [done|].
        by do 2 (apply dlseg_alter; [done|]). }
      split; [|split; [|split]]; playlist_fields.
      * apply NoDup_app. split; [done|]. split; [|by apply NoDup_cons].
        intros x Hx [->|Hx2]%elem_of_cons; [done|]. by apply (Hdis x Hx).
      * rewrite <- !app_assoc. by destruct p.
      * destruct m2 as [|c r2]; cbn [head hd_error]; [by rewrite last_snoc|].
        rewrite !last_app, !last_cons. by destruct (last r2).
      * apply dlseg_app. rewrite last_or_None, last_snoc. split.
        -- apply dlseg_set_next_last with (nx := head m2);
             [done|apply last_snoc|done].
        -- cbn [dlseg first_or]. rewrite first_or_None. split.
           ++ apply node_alter_ne; [done|].
              destruct Hna2 as (s & Hs & Hp & Hn). exists s. by rewrite Hh3a.
           ++ apply dlseg_alter; [|done]. intros Ht. apply (Hdis temp); [|done].
              apply elem_of_app. right. by left.
    + (* at the end *)
      apply lookup_ge_None in Hk. rewrite insert_at_past_end by lia.
      destruct (last rest) as [tl|] eqn:Hlast.
      * assert (tl ∈ rest) as Htl by by eapply last_Some_elem_of.
        assert (NoDup (rest ++ [a])) as Hnd''.
        { apply NoDup_app. split; [done|]. split; [|apply NoDup_singleton].
          by intros x Hx ->%list_elem_of_singleton. }
        split; [done|]. split; [|split]; playlist_fields.
        -- by destruct rest.
        -- by rewrite last_snoc.
        -- apply dlseg_app. rewrite last_or_None, Hlast. split.
           ++ apply dlseg_alter; [done|]. by eapply dlseg_set_next_last.
           ++ split; [|done]. apply node_set_prev with (pv := None).
              apply node_alter_ne; [|done]. by intros ->.
      * apply last_None in Hlast as ->. split; [apply NoDup_singleton|].
        by repeat split.
Qed.

(** [move_song] refines [move_list]. *)
Lemma move_song_dll pl ls from_index to_index :
  Playlist_dll pl ls →
  Playlist_dll (Playlist.move_song pl from_index to_index)
    (move_list from_index to_index ls).
Proof.
  intros Hdll. unfold Playlist.move_song, move_list.
  destruct (decide (from_index = to_index)) as [_|_]; [done|].
  destruct (Playlist.head pl) as [hd|] eqn:Hhd.
  2:{ assert (ls = []) as -> by by eapply Playlist_dll_nil. done. }
  rewrite <- Hhd, (advance_dll _ _ _ Hdll).
  destruct (ls !! Z.to_nat from_index) as [a|] eqn:Hidx; [|done].
  rewrite <- (take_drop_middle _ _ _ Hidx) in Hdll.
  rewrite delete_take_drop.
  destruct (unlink_dll _ _ _ _ Hdll) as [Hdll1 Hsame].
  destruct (Playlist_dll_node _ _ _ _ Hdll) as ((s & Hs & _) & Ha1 & Ha2).
  set (rest := take (Z.to_nat from_index) ls ++ drop (S (Z.to_nat from_index)) ls) in *.
  assert (a ∉ rest) as Ha by by intros [H|H]%elem_of_app.
  apply relink_dll; [|done|].
  - destruct Hdll1 as (Hnd & Hh & Ht & Hseg).
    split; [done|]. split; [done|]. split; [done|]. playlist_fields.
    by do 2 (apply dlseg_alter; [done|]).
  - playlist_fields. apply node_set_next with (nx := next s).
    apply node_set_prev with (pv := prev s).
    exists s. by rewrite Hsame.
Qed.

(** Past the end, and on an empty playlist, [delete_song] returns the
    playlist as it is. *)
Lemma delete_song_past_end pl ls index :
  Playlist_dll pl ls → Z.of_nat (length ls) ≤ index →
  Playlist.delete_song pl index = pl.
Proof.
  intros Hdll Hidx. unfold Playlist.delete_song.
  destruct (Playlist.head pl) as [hd|] eqn:Hhd; [|done].
  rewrite <- Hhd, (advance_dll _ _ _ Hdll).
  rewrite (proj2 (lookup_ge_None ls (Z.to_nat index))) by lia. done.
Qed.

Lemma delete_song_empty pl index :
  Playlist.head pl = None → Playlist.delete_song pl index = pl.
Proof. intros Hhd. unfold Playlist.delete_song. by rewrite Hhd. Qed.

End PlaylistOperations.

(** ** Reversal *)

Section Reversal.
Implicit Types (pl : Playlist.t) (ls : list ptr) (a : ptr) (h : gmap ptr Song).

Lemma swap_links_involutive (s : Song) : swap_links (swap_links s) = s.
Proof. by destruct s. Qed.

(** The loop terminates on a segment that ends in [nullptr], swaps the
    links of exactly the nodes of the segment, and what it leaves is the
    segment read backwards. *)
Lemma reverse_loop_dlseg ls : ∀ h pv fuel,
  NoDup ls → dlseg h pv ls None → (length ls ≤ fuel)%nat →
  ∃ h', Playlist.reverse_loop fuel h (head ls) = Some h' ∧
        dlseg h' None (reverse ls) pv ∧
        ∀ b, h' !! b = if decide (b ∈ ls) then swap_links <$> h !! b else h !! b.
Proof.
  induction ls as [|a r IH]; intros h pv fuel Hnd Hseg Hfuel.
  - exists h. split; [by destruct fuel|]. split; [done|].
    intros b. rewrite decide_False; [done|]. apply not_elem_of_nil.
  - destruct fuel as [|fuel]; [simpl in Hfuel; lia|].
    apply NoDup_cons in Hnd as [Ha Hnd]. destruct Hseg as [Hna Hseg].
    rewrite first_or_None in Hna.
    pose proof (node_swap_links _ _ _ _ Hna) as Hna'.
    destruct (IH (alter swap_links a h) (Some a) fuel) as (h' & Hloop & Hrev & Hlook).
    { done. } { by apply dlseg_alter. } { simpl in Hfuel. lia. }
    exists h'. cbn [head hd_error Playlist.reverse_loop].
    rewrite (load_prev_node _ _ _ _ Hna'). split; [done|]. split.
    + rewrite reverse_cons. apply dlseg_app. split; [done|].
      rewrite last_or_None, last_reverse. split; [|done].
      destruct Hna' as (s & Hs & Hp & Hn). exists s.
      by rewrite Hlook, decide_False.
    + intros b. rewrite Hlook. destruct (decide (b = a)) as [->|Hne].
      * rewrite decide_False, decide_True by (done || by left).
        apply lookup_alter_eq.
      * rewrite lookup_alter_ne by done.
        destruct (decide (b ∈ r)) as [Hb|Hb].
        -- rewrite decide_True; [done|]. by right.
        -- rewrite decide_False; [done|]. by intros [?|?]%elem_of_cons.
Qed.

(** [reverse_playlist] terminates on a well-formed playlist and yields the
    playlist of the reversed sequence. *)
Lemma reverse_playlist_dll pl ls :
  Playlist_dll pl ls →
  ∃ pl', Playlist.reverse_playlist pl = Some pl' ∧
         Playlist_dll pl' (reverse ls) ∧
         Playlist.head pl' = Playlist.tail pl ∧
         Playlist.tail pl' = Playlist.head pl ∧
         ∀ b, Playlist.heap pl' !! b =
              if decide (b ∈ ls) then swap_links <$> Playlist.heap pl !! b
              else Playlist.heap pl !! b.
Proof.
  intros Hdll. pose proof (Playlist_dll_size _ _ Hdll) as Hsz.
  destruct Hdll as (Hnd & Hhd & Htl & Hseg).
  destruct (reverse_loop_dlseg ls _ _ _ Hnd Hseg Hsz) as (h' & Hloop & Hrev & Hlook).
  exists (Playlist.mk h' (Playlist.tail pl) (Playlist.head pl)).
  unfold Playlist.reverse_playlist. rewrite Hhd at 1. rewrite Hloop.
  split; [done|]. split; [|done].
  split; [by rewrite reverse_Permutation|]. playlist_fields.
  by rewrite head_reverse, last_reverse.
Qed.

(** Every playlist the operations can build is well formed. *)
Lemma reachable_dll pl : reachable pl → ∃ ls, Playlist_dll pl ls.
Proof.
  induction 1 as [|pl a t ar g d _ [ls IH] Hfresh|pl index _ [ls IH]
                 |pl from_index to_index _ [ls IH]|pl pl' _ [ls IH] Hrev].
  - exists []. apply Playlist_dll_empty.
  - exists (ls ++ [a]). by apply add_song_dll.
  - eexists. by apply delete_song_dll.
  - eexists. by apply move_song_dll.
  - destruct (reverse_playlist_dll _ _ IH) as (pl'' & Hrev' & Hdll & _).
    exists (reverse ls). congruence.
Qed.

(** Two reversals give back the playlist, links included. *)
Lemma reverse_playlist_twice pl ls :
  Playlist_dll pl ls →
  ∃ pl', Playlist.reverse_playlist pl = Some pl' ∧
         Playlist.reverse_playlist pl' = Some pl.
Proof.
  intros Hdll.
  destruct (reverse_playlist_dll _ _ Hdll) as (pl1 & Hr1 & Hdll1 & Hh1 & Ht1 & Hl1).
  destruct (reverse_playlist_dll _ _ Hdll1) as (pl2 & Hr2 & Hdll2 & Hh2 & Ht2 & Hl2).
  exists pl1. split; [done|]. rewrite Hr2. f_equal.
  destruct pl as [h hd tl], pl2 as [h2 hd2 tl2]. playlist_fields.
  f_equal; [|congruence|congruence].
  apply map_eq. intros b. rewrite Hl2, Hl1.
  destruct (decide (b ∈ ls)) as [Hb|Hb].
  - rewrite decide_True by by apply elem_of_reverse.
    rewrite <- option_fmap_compose.
    destruct (h !! b) as [s|]; [|done]. simpl.
    by rewrite swap_links_involutive.
  - rewrite decide_False; [done|]. by rewrite elem_of_reverse.
Qed.

End Reversal.

(** ** The rating map *)

Section Ratings.
Implicit Types (ratingMap : gmap Z (list ptr)) (song : ptr) (rating : Z).

Lemma group_lookup ratingMap rating :
  group ratingMap rating = default [] (ratingMap !! rating).
Proof.
  unfold group, SongRatingTree.search_by_rating, SongRatingTree.subscript.
  by destruct (ratingMap !! rating).
Qed.

Lemma insert_song_lookup_ne ratingMap song rating r :
  r ≠ rating → SongRatingTree.insert_song ratingMap song rating !! r = ratingMap !! r.
Proof.
  intros Hne. unfold SongRatingTree.insert_song, SongRatingTree.subscript.
  destruct (ratingMap !! rating); by rewrite ?lookup_insert_ne.
Qed.

(** A rating under which nothing was inserted has no group. *)
Lemma after_insertions_untouched (calls : list (ptr * Z)) rating :
  rating ∉ calls.*2 → after_insertions calls !! rating = None.
Proof.
  unfold after_insertions. induction calls as [|[s r] calls IH] using rev_ind.
  - done.
  - rewrite fmap_app, foldl_app. simpl. intros Hnot.
    rewrite insert_song_lookup_ne.
    + apply IH. intros H. apply Hnot, elem_of_app. by left.
    + intros ->. apply Hnot, elem_of_app. right. by left.
Qed.

Lemma delete_song_lookup ratingMap song rating :
  SongRatingTree.delete_song ratingMap song rating !! rating
  = Some (filter (λ x, x ≠ song) (group ratingMap rating)).
Proof.
  rewrite group_lookup. unfold SongRatingTree.delete_song, SongRatingTree.subscript.
  destruct (ratingMap !! rating); by rewrite lookup_insert_eq.
Qed.

Lemma delete_song_lookup_ne ratingMap song rating r :
  r ≠ rating → SongRatingTree.delete_song ratingMap song rating !! r = ratingMap !! r.
Proof.
  intros Hne. unfold SongRatingTree.delete_song, SongRatingTree.subscript.
  destruct (ratingMap !! rating); by rewrite ?lookup_insert_ne.
Qed.

Lemma filter_absent song (vec : list ptr) :
  song ∉ vec → filter (λ x, x ≠ song) vec = vec.
Proof.
  intros Hnot. induction vec as [|x vec IH]; [done|].
  apply not_elem_of_cons in Hnot as [Hne Hnot].
  rewrite filter_cons_True by done. by rewrite IH.
Qed.

End Ratings.

(** ** The recency trackers *)

Section Recency.
Variable cap : nat.
Hypothesis cap_positive : (0 < cap)%nat.
Implicit Types (w ts : list ptr) (song x : ptr).

Lemma erase_remove_first w song :
  match list_find (λ x, x = song) w with
  | Some (it, _) => delete it w
  | None => w
  end = remove_first song w.
Proof.
  induction w as [|y w IH]; [done|].
  cbn [list_find remove_first]. destruct (decide (y = song)) as [->|Hne]; [done|].
  destruct (list_find (λ x, x = song) w) as [[it z]|]; simpl in *; by rewrite <- IH.
Qed.

Lemma remove_first_absent w song : song ∉ w → remove_first song w = w.
Proof.
  induction w as [|y w IH]; [done|]. intros [Hne Hnot]%not_elem_of_cons.
  simpl. rewrite decide_False by done. by rewrite IH.
Qed.

Lemma remove_first_NoDup w song :
  NoDup w → remove_first song w = filter (λ y, y ≠ song) w.
Proof.
  induction w as [|y w IH]; [done|]. intros [Hy Hnd]%NoDup_cons. simpl.
  destruct (decide (y = song)) as [->|Hne].
  - rewrite filter_cons_False by (intros H; by apply H).
    by rewrite filter_absent.
  - rewrite filter_cons_True by done. by rewrite IH.
Qed.

Lemma remove_first_length w song : (length (remove_first song w) ≤ length w)%nat.
Proof.
  induction w as [|y w IH]; [done|]. simpl. case_decide; simpl; lia.
Qed.

Lemma remove_first_present_length w song :
  song ∈ w → S (length (remove_first song w)) = length w.
Proof.
  induction w as [|y w IH]; [by intros ?%elem_of_nil|]. simpl.
  destruct (decide (y = song)) as [->|Hne]; [done|].
  intros [?|Hin]%elem_of_cons; [done|]. simpl. by rewrite IH.
Qed.

(** One touch: the song in front of the window without it, cut to the
    capacity. *)
Lemma touch_take w song :
  (length w ≤ cap)%nat → touch cap w song = take cap (song :: remove_first song w).
Proof.
  intros Hlen. unfold touch. rewrite erase_remove_first.
  pose proof (remove_first_length w song) as Hrm.
  case_decide as Hover.
  - rewrite removelast_firstn_len. f_equal. simpl in *. lia.
  - rewrite take_ge; [done|]. simpl in *. lia.
Qed.

Lemma filter_take_other (P : ptr → Prop) `{∀ x, Decision (P x)} song (D : list ptr) :
  NoDup D → (∀ y, y ≠ song → P y) → ∀ c,
  take c (filter P (take (S c) D)) = take c (filter P D).
Proof.
  intros Hnd HP. induction D as [|y D IH]; intros c; [done|].
  apply NoDup_cons in Hnd as [Hy Hnd]. cbn [take].
  destruct (decide (P y)) as [Hp|Hp].
  - rewrite !filter_cons_True by done. destruct c as [|c]; [done|].
    cbn [take]. by rewrite IH.
  - rewrite !filter_cons_False by done.
    assert (y = song) as -> by (destruct (decide (y = song)); [done|by destruct Hp; apply HP]).
    assert (∀ l : list ptr, song ∉ l → filter P l = l) as Hid.
    { intros l Hl. induction l as [|z l IHl]; [done|].
      apply not_elem_of_cons in Hl as [Hz Hl].
      rewrite filter_cons_True by by apply HP. by rewrite IHl. }
    rewrite !Hid; [by rewrite take_idemp|done|].
    intros Hin. apply Hy. by eapply subseteq_take.
Qed.

Lemma first_occurrences_NoDup l : NoDup (first_occurrences l).
Proof.
  induction l as [|x l IH]; simpl; [constructor|].
  apply NoDup_cons. split; [|by apply NoDup_filter].
  intros [H _]%list_elem_of_filter. done.
Qed.

Lemma first_occurrences_id w : NoDup w → first_occurrences w = w.
Proof.
  induction w as [|x w IH]; [done|]. intros [Hx Hnd]%NoDup_cons. simpl.
  by rewrite IH, filter_absent.
Qed.

(** The window after a series of touches holds the [cap] most recently
    touched distinct songs, most recent first. *)
Lemma touches_first_occurrences w0 ts :
  window_ok cap w0 →
  foldl (touch cap) w0 ts = take cap (first_occurrences (reverse ts ++ w0)).
Proof.
  intros [Hlen Hnd]. induction ts as [|song ts IH] using rev_ind.
  - simpl. rewrite first_occurrences_id by done. by rewrite take_ge.
  - rewrite foldl_app, reverse_snoc. simpl. rewrite IH.
    set (D := first_occurrences (reverse ts ++ w0)).
    assert (NoDup D) as HD by apply first_occurrences_NoDup.
    rewrite touch_take by (rewrite length_take; lia).
    rewrite remove_first_NoDup by (eapply sublist_NoDup; [done|apply sublist_take]).
    destruct cap as [|c]; [lia|]. cbn [take]. f_equal.
    by apply filter_take_other with (song := song).
Qed.

Lemma touches_ok w0 ts : window_ok cap w0 → window_ok cap (foldl (touch cap) w0 ts).
Proof.
  intros Hok. rewrite touches_first_occurrences by done. split.
  - rewrite length_take. lia.
  - eapply sublist_NoDup; [apply first_occurrences_NoDup|apply sublist_take].
Qed.

Lemma touch_front w song : head (touch cap w song) = Some song.
Proof.
  unfold touch. rewrite erase_remove_first. case_decide as Hover; [|done].
  destruct (remove_first song w); [simpl in Hover; lia|done].
Qed.

Lemma removelast_cons x y (l : list ptr) :
  removelast (x :: y :: l) = x :: removelast (y :: l).
Proof. done. Qed.

(** Every property claimed of a tracker holds of [touch cap]. *)
Lemma touch_recency_properties w0 ts :
  window_ok cap w0 → recency_properties cap (touch cap) w0 ts.
Proof.
  intros Hok. unfold recency_properties.
  destruct (touches_ok w0 ts Hok) as [Hlen Hnd].
  split; [done|]. split; [done|]. split; [|split; [|split; [|split]]].
  - intros song Hlast. apply last_Some in Hlast as [ts' ->].
    rewrite foldl_app. apply touch_front.
  - by apply touches_first_occurrences.
  - intros song Hin. rewrite touch_take, remove_first_NoDup by done.
    rewrite take_ge; [done|]. simpl.
    rewrite <- remove_first_NoDup by done.
    pose proof (remove_first_present_length _ _ Hin). lia.
  - intros song Hnot Hlt. rewrite touch_take, remove_first_absent by done.
    rewrite take_ge; [done|]. simpl. lia.
  - intros song Hnot Hfull. rewrite touch_take, remove_first_absent by done.
    rewrite <- Hfull at 1.
    destruct (foldl (touch cap) w0 ts) as [|y l] eqn:E; [simpl in Hfull; lia|].
    rewrite <- removelast_cons, removelast_firstn_len. done.
Qed.

End Recency.

(** ** Calming genres *)

Section Genres.

Lemma tolower_code (c : ascii) :
  nat_of_ascii (AutoReplaySystem.tolower c)
  = if decide (65 ≤ nat_of_ascii c ≤ 90)%nat
    then (nat_of_ascii c + 32)%nat else nat_of_ascii c.
Proof.
  unfold AutoReplaySystem.tolower. case_decide; [|done].
  apply nat_ascii_embedding. lia.
Qed.

Lemma nat_of_ascii_inj (c d : ascii) : nat_of_ascii c = nat_of_ascii d → c = d.
Proof.
  intros H. rewrite <- (ascii_nat_embedding c), <- (ascii_nat_embedding d).
  by rewrite H.
Qed.

Lemma same_letter_tolower (c d : ascii) :
  same_letter c d ↔ AutoReplaySystem.tolower c = AutoReplaySystem.tolower d.
Proof.
  unfold same_letter, is_upper. split.
  - intros [->|H]; [done|]. apply nat_of_ascii_inj. rewrite !tolower_code.
    repeat case_decide; lia.
  - intros H%(f_equal nat_of_ascii). rewrite !tolower_code in H.
    destruct (decide (nat_of_ascii c = nat_of_ascii d)) as [Heq|Hne].
    + left. by apply nat_of_ascii_inj.
    + right. repeat case_decide; lia.
Qed.

Lemma equal_ignoring_case_lowered (s1 s2 : string) :
  equal_ignoring_case s1 s2
  ↔ AutoReplaySystem.lowered s1 = AutoReplaySystem.lowered s2.
Proof.
  revert s2. induction s1 as [|c r1 IH]; intros [|d r2]; simpl; try done.
  rewrite same_letter_tolower, IH. split.
  - by intros [-> ->].
  - by intros [= -> ->].
Qed.

End Genres.

(** ** The auto-replay selection *)

Section Selection.
Import AutoReplaySystem.
Implicit Types (mem : gmap ptr Song) (playCounts : gmap string Z).
Implicit Types (skipTracker allSongs : list ptr) (song : ptr).

Lemma not_after_iff (x y : Z * ptr) :
  not_after x y ↔ y.1 < x.1 ∨ (x.1 = y.1 ∧ (y.2 ≤ x.2)%positive).
Proof. unfold not_after, pair_greater, pair_less. lia. Qed.

Global Instance not_after_total : Total not_after.
Proof. intros x y. rewrite !not_after_iff. lia. Qed.

Global Instance not_after_trans : Transitive not_after.
Proof. intros x y z. rewrite !not_after_iff. lia. Qed.

Global Instance not_after_antisymm : AntiSymm eq not_after.
Proof.
  intros [c1 a1] [c2 a2]. rewrite !not_after_iff. simpl.
  intros H1 H2. f_equal; lia.
Qed.

(** Whatever algorithm [std::sort] runs, its result on a range is the one
    arrangement of the range that is sorted by [pair_greater]. *)
Lemma sorted_arrangement_unique (range sorted : list (Z * ptr)) :
  sorted ≡ₚ range → Sorted not_after sorted → sorted = merge_sort not_after range.
Proof.
  intros Hperm Hsorted. apply (Sorted_unique not_after); [done| |].
  - apply Sorted_merge_sort, _.
  - by rewrite merge_sort_Permutation.
Qed.

Lemma StronglySorted_lookup {A} (R : relation A) (l : list A) i j a b :
  StronglySorted R l → (i < j)%nat → l !! i = Some a → l !! j = Some b → R a b.
Proof.
  intros Hs Hij Hi Hj. rewrite <- (take_drop_middle _ _ _ Hj) in Hs.
  eapply StronglySorted_app_1_elem_of; [done| |by left].
  apply elem_of_take. eauto.
Qed.

Lemma isRecentlySkipped_false skipTracker song :
  RecentlySkippedTracker.isRecentlySkipped skipTracker song = false ↔ song ∉ skipTracker.
Proof.
  unfold RecentlySkippedTracker.isRecentlySkipped.
  destruct (list_find _ skipTracker) as [[i x]|] eqn:E.
  - apply list_find_Some in E as (Hi & -> & _). split; [done|].
    intros Hnot. destruct Hnot. by eapply list_elem_of_lookup_2.
  - apply list_find_None in E. split; [|done]. intros _ Hin.
    by apply (proj1 (Forall_forall _ _) E song).
Qed.

Lemma candidate_Some mem playCounts skipTracker song e :
  candidate mem playCounts skipTracker song = Some e ↔
  e = (play_count mem playCounts song, song) ∧
  (song ∉ skipTracker) ∧
  ∃ s, mem !! song = Some s ∧ isCalming (genre s) = true.
Proof.
  unfold candidate, play_count. rewrite <- isRecentlySkipped_false.
  destruct (mem !! song) as [s|]; simpl.
  2:{ split; [done|]. by intros (_ & _ & s & ? & _). }
  destruct (isCalming (genre s)) eqn:Hc,
    (RecentlySkippedTracker.isRecentlySkipped skipTracker song) eqn:Hr; simpl.
  - split; [done|]. by intros (_ & ? & _).
  - split; [intros [= <-]; eauto|]. by intros (-> & _).
  - split; [done|]. intros (_ & _ & s' & [= <-] & ?). congruence.
  - split; [done|]. intros (_ & _ & s' & [= <-] & ?). congruence.
Qed.

(** The selection is the first three of the ranked candidates. *)
Lemma getTop3CalmingSongs_take mem allSongs playCounts skipTracker :
  getTop3CalmingSongs mem allSongs playCounts skipTracker
  = (take 3 (merge_sort not_after
               (omap (candidate mem playCounts skipTracker) allSongs))).*2.
Proof.
  unfold getTop3CalmingSongs. case_decide as Hempty.
  - by rewrite Hempty.
  - f_equal. set (sorted := merge_sort _ _).
    destruct (decide (3 ≤ length sorted)%nat).
    + by rewrite Nat.min_l.
    + rewrite Nat.min_r, !take_ge by lia. done.
Qed.

Lemma ranked_candidate mem allSongs playCounts skipTracker e :
  e ∈ merge_sort not_after (omap (candidate mem playCounts skipTracker) allSongs) ↔
  ∃ song, song ∈ allSongs ∧ candidate mem playCounts skipTracker song = Some e.
Proof. by rewrite merge_sort_Permutation, list_elem_of_omap. Qed.

Lemma top_lookup mem allSongs playCounts skipTracker i song :
  getTop3CalmingSongs mem allSongs playCounts skipTracker !! i = Some song →
  (i < 3)%nat ∧
  merge_sort not_after (omap (candidate mem playCounts skipTracker) allSongs) !! i
  = Some (play_count mem playCounts song, song).
Proof.
  rewrite getTop3CalmingSongs_take, list_lookup_fmap.
  intros [[c a] [Hlook ->]]%fmap_Some.
  apply lookup_take_Some in Hlook as [Hlook Hi]. split; [done|].
  rewrite Hlook. f_equal.
  assert ((c, a) ∈ merge_sort not_after
            (omap (candidate mem playCounts skipTracker) allSongs)) as Hin
    by by eapply list_elem_of_lookup_2.
  apply ranked_candidate in Hin as (song & _ & Hc).
  apply candidate_Some in Hc as ([= -> ->] & _). done.
Qed.

Lemma omap_no_candidate {A B} (f : A → option B) (l : list A) :
  (∀ x, x ∈ l → f x = None) → omap f l = [].
Proof.
  induction l as [|x l IH]; [done|]. intros Hnone. simpl.
  rewrite (Hnone x) by by left. apply IH. intros y Hy. apply Hnone. by right.
Qed.

Lemma top_lookup_ranked mem allSongs playCounts skipTracker i c song :
  (i < 3)%nat →
  merge_sort not_after (omap (candidate mem playCounts skipTracker) allSongs) !! i
  = Some (c, song) →
  getTop3CalmingSongs mem allSongs playCounts skipTracker !! i = Some song.
Proof.
  intros Hi Hlook. rewrite getTop3CalmingSongs_take, list_lookup_fmap.
  by rewrite lookup_take_lt, Hlook by done.
Qed.

Lemma not_after_ranks_before mem playCounts x y :
  not_after (play_count mem playCounts x, x) (play_count mem playCounts y, y)
  → ranks_before mem playCounts x y.
Proof. by rewrite not_after_iff. Qed.

End Selection.

(** ** The catalog operations on the sequence of songs *)

Section Catalog.
Implicit Types (pl : Playlist.t) (ls : list ptr) (a : ptr).

Lemma catalog_ABC_dll : Playlist_dll catalog_ABC [1; 2; 3]%positive.
Proof.
  unfold catalog_ABC.
  change [1; 2; 3]%positive
    with ((([] ++ [1%positive]) ++ [2%positive]) ++ [3%positive]).
  repeat apply add_song_dll; first [apply Playlist_dll_empty | by vm_compute].
Qed.

(** Where [move_song] puts the song for a pair of distinct indices inside
    the playlist: at [to_index] for a backward move and at [to_index - 1]
    for a forward move; the other songs keep their order. *)
Lemma move_song_lands pl ls from_index to_index a :
  Playlist_dll pl ls →
  0 ≤ from_index < Z.of_nat (length ls) →
  0 ≤ to_index < Z.of_nat (length ls) → to_index ≤ INT_MAX →
  from_index ≠ to_index →
  ls !! Z.to_nat from_index = Some a →
  let landing := if decide (to_index > from_index) then to_index - 1 else to_index in
  ∃ ls', Playlist.get_all_songs (Playlist.move_song pl from_index to_index) = Some ls' ∧
         ls' = insert_at (Z.to_nat landing) a (delete (Z.to_nat from_index) ls) ∧
         ls' !! Z.to_nat landing = Some a.
Proof.
  intros Hdll Hfrom Hto Hint Hne Ha landing.
  pose proof (move_song_dll _ _ from_index to_index Hdll) as Hmove.
  apply get_all_songs_dll in Hmove. eexists. split; [done|].
  unfold move_list. rewrite decide_False, Ha by done.
  assert (move_target from_index to_index = Z.to_nat landing) as ->.
  { unfold move_target. fold landing. subst landing. unfold INT_MAX in Hint.
    repeat case_decide; try lia;
      rewrite wrap_in_range by (unfold INT_MIN, INT_MAX; lia); lia. }
  split; [done|]. unfold insert_at.
  assert (Z.to_nat landing ≤ length (delete (Z.to_nat from_index) ls))%nat as Hlen.
  { rewrite length_delete by (apply lookup_lt_is_Some_2; lia).
    subst landing. case_decide; lia. }
  rewrite lookup_app_r; rewrite length_take, Nat.min_l by lia; [|lia].
  by rewrite Nat.sub_diag.
Qed.

(** A negative index makes [delete_song] remove the first song. *)
Lemma delete_song_negative pl a r index :
  Playlist_dll pl (a :: r) → index < 0 →
  Playlist_dll (Playlist.delete_song pl index) r.
Proof.
  intros Hdll Hneg. pose proof (delete_song_dll _ _ index Hdll) as H.
  by replace (Z.to_nat index) with 0%nat in H by lia.
Qed.

End Catalog.

(** C1 (the code misses it).  For distinct indices inside the catalog,
    [moveTo(fromIndex, toIndex)] is to leave the moved element at position
    [toIndex]; on [A, B, C], [moveTo(0, 2)] is to give [B, C, A].  The code
    gives [B, A, C]: a forward move lands one position short (lemma
    [move_song_lands]), so that [moveTo(0, 1)] changes nothing, while the
    backward move [moveTo(2, 0)] lands on its target. *)
Theorem move_song_forward_lands_short :
  playlist_titles catalog_ABC = Some ["A"; "B"; "C"] ∧
  playlist_titles (Playlist.move_song catalog_ABC 0 2) = Some ["B"; "A"; "C"] ∧
  playlist_titles (Playlist.move_song catalog_ABC 0 1) = Some ["A"; "B"; "C"] ∧
  playlist_titles (Playlist.move_song catalog_ABC 2 0) = Some ["C"; "A"; "B"].
Proof. by vm_compute. Qed.

(** C5.  On every well-formed catalog [reverse_playlist] terminates and
    leaves the songs in exactly the reversed order, and a second
    [reverse_playlist] gives back the catalog it started from, and with it
    the original order. *)
Theorem reverse_playlist_involution (pl : Playlist.t) (ls : list ptr) :
  Playlist_dll pl ls →
  ∃ pl', Playlist.reverse_playlist pl = Some pl' ∧
         Playlist.get_all_songs pl' = Some (reverse ls) ∧
         Playlist.reverse_playlist pl' = Some pl ∧
         Playlist.get_all_songs pl = Some ls.
Proof.
  intros Hdll.
  destruct (reverse_playlist_twice _ _ Hdll) as (pl' & Hr1 & Hr2).
  destruct (reverse_playlist_dll _ _ Hdll) as (pl'' & Hr1' & Hdll' & _).
  assert (pl'' = pl') as -> by congruence.
  exists pl'. split; [done|]. split; [by apply get_all_songs_dll|].
  split; [done|]. by apply get_all_songs_dll.
Qed.

Lemma reverse_playlist_involution_witness :
  Playlist_dll catalog_ABC [1; 2; 3]%positive ∧
  ∃ pl', Playlist.reverse_playlist catalog_ABC = Some pl' ∧
         Playlist.get_all_songs pl' = Some (reverse [1; 2; 3]%positive) ∧
         Playlist.reverse_playlist pl' = Some catalog_ABC ∧
         Playlist.get_all_songs catalog_ABC = Some [1; 2; 3]%positive.
Proof.
  split; [exact catalog_ABC_dll|].
  apply (reverse_playlist_involution catalog_ABC [1; 2; 3]%positive).
  exact catalog_ABC_dll.
Defined.

(** C7 (the code misses it).  [removeAt(index)] is to leave the catalog as
    it is for every index outside it.  The code does so past the end and on
    the empty catalog (lemmas [delete_song_past_end], [delete_song_empty]),
    but a negative index removes the first song (lemma
    [delete_song_negative]): on [A, B, C], [delete_song(-1)] leaves
    [B, C]. *)
Theorem delete_song_negative_index_removes_head :
  playlist_titles catalog_ABC = Some ["A"; "B"; "C"] ∧
  playlist_titles (Playlist.delete_song catalog_ABC (-1)) = Some ["B"; "C"] ∧
  playlist_titles (Playlist.delete_song catalog_ABC 3) = Some ["A"; "B"; "C"].
Proof. by vm_compute. Qed.

(** C8 (as the code has it).  [SongRatingTree::delete_song] uses the
    erase-remove idiom: it removes every occurrence of the reference from
    the group of that rating, leaves the other groups as they are, and
    leaves the songs of the group as they are when the reference is not
    among them, the map itself being unchanged when the group exists. *)
Theorem delete_song_removes_all (ratingMap : gmap Z (list ptr)) (song : ptr) (rating : Z) :
  let ratingMap' := SongRatingTree.delete_song ratingMap song rating in
  group ratingMap' rating = filter (λ x, x ≠ song) (group ratingMap rating) ∧
  (song ∉ group ratingMap' rating) ∧
  (∀ r, r ≠ rating → ratingMap' !! r = ratingMap !! r) ∧
  (song ∉ group ratingMap rating →
     group ratingMap' rating = group ratingMap rating ∧
     (is_Some (ratingMap !! rating) → ratingMap' = ratingMap)).
Proof.
  intros ratingMap'.
  assert (group ratingMap' rating = filter (λ x, x ≠ song) (group ratingMap rating)) as Hg.
  { rewrite (group_lookup ratingMap'). subst ratingMap'.
    by rewrite delete_song_lookup. }
  split; [done|]. split; [|split].
  - rewrite Hg. intros [H _]%list_elem_of_filter. done.
  - intros r Hr. by apply delete_song_lookup_ne.
  - intros Habs. rewrite Hg, filter_absent by done. split; [done|].
    intros [vec Hvec]. apply map_eq. intros r.
    destruct (decide (r = rating)) as [->|Hne].
    + subst ratingMap'. rewrite delete_song_lookup, filter_absent by done.
      by rewrite group_lookup, Hvec.
    + by apply delete_song_lookup_ne.
Qed.

Lemma delete_song_removes_all_witness :
  let ratingMap := after_insertions [(7%positive, 5); (8%positive, 5)] in
  let ratingMap' := SongRatingTree.delete_song ratingMap 9%positive 5 in
  group ratingMap' 5 = filter (λ x, x ≠ 9%positive) (group ratingMap 5) ∧
  (9%positive ∉ group ratingMap' 5) ∧
  (∀ r, r ≠ 5 → ratingMap' !! r = ratingMap !! r) ∧
  (9%positive ∉ group ratingMap 5 →
     group ratingMap' 5 = group ratingMap 5 ∧
     (is_Some (ratingMap !! 5) → ratingMap' = ratingMap)).
Proof.
  exact (delete_song_removes_all
           (after_insertions [(7%positive, 5); (8%positive, 5)]) 9%positive 5).
Defined.

(** C8 fails as stated: a reference inserted twice under one rating is
    gone after one [delete_song], where removing the first occurrence would
    leave one. *)
Lemma delete_song_not_first_only :
  let ratingMap := after_insertions [(7%positive, 5); (7%positive, 5)] in
  group ratingMap 5 = [7%positive; 7%positive] ∧
  remove_first 7%positive (group ratingMap 5) = [7%positive] ∧
  group (SongRatingTree.delete_song ratingMap 7%positive 5) 5 = [] ∧
  group (SongRatingTree.delete_song ratingMap 7%positive 5) 5
    ≠ remove_first 7%positive (group ratingMap 5).
Proof. by vm_compute. Qed.

(** C10.  [search_by_rating] is not a pure read.  On a rating that has no
    group (as is every rating under which nothing was inserted, lemma
    [after_insertions_untouched]) it returns the empty sequence and leaves
    an empty group behind, so that [get_song_count_by_rating] then has the
    entry [rating -> 0], which it does not have without the search; the
    other entries are the same. *)
Theorem search_by_rating_creates_group (ratingMap : gmap Z (list ptr)) (rating : Z) :
  ratingMap !! rating = None →
  let found := (SongRatingTree.search_by_rating ratingMap rating).1 in
  let ratingMap' := (SongRatingTree.search_by_rating ratingMap rating).2 in
  found = [] ∧
  ratingMap' = <[rating := []]> ratingMap ∧
  SongRatingTree.get_song_count_by_rating ratingMap' !! rating = Some 0 ∧
  SongRatingTree.get_song_count_by_rating ratingMap !! rating = None ∧
  (∀ r, r ≠ rating →
     SongRatingTree.get_song_count_by_rating ratingMap' !! r
     = SongRatingTree.get_song_count_by_rating ratingMap !! r).
Proof.
  intros Hnone found ratingMap'. subst found ratingMap'.
  unfold SongRatingTree.search_by_rating, SongRatingTree.subscript,
    SongRatingTree.get_song_count_by_rating.
  rewrite Hnone. simpl. repeat split.
  - by rewrite lookup_fmap, lookup_insert_eq.
  - by rewrite lookup_fmap, Hnone.
  - intros r Hr. by rewrite !lookup_fmap, lookup_insert_ne.
Qed.

Lemma search_by_rating_creates_group_witness :
  let ratingMap := after_insertions [(7%positive, 5); (8%positive, 3)] in
  ratingMap !! 4 = None ∧
  (SongRatingTree.search_by_rating ratingMap 4).1 = [] ∧
  SongRatingTree.get_song_count_by_rating
    (SongRatingTree.search_by_rating ratingMap 4).2 !! 4 = Some 0 ∧
  SongRatingTree.get_song_count_by_rating ratingMap !! 4 = None.
Proof.
  assert (after_insertions [(7%positive, 5); (8%positive, 3)] !! 4 = None) as H
    by by vm_compute.
  split; [exact H|].
  pose proof (search_by_rating_creates_group _ 4 H) as (H1 & _ & H3 & H4 & _).
  split; [exact H1|]. split; [exact H3|exact H4].
Defined.

(** C4.  Both recency trackers, the skip tracker with capacity 10 and the
    addition tracker with capacity 15, keep their window within the
    capacity and free of duplicates over every series of touches; the
    song touched last is in front; the window is the capacity's worth of
    most recently touched distinct songs, most recent first; touching a
    song already in the window moves it to the front; touching a new song
    while the window is full evicts the last, least recently touched
    entry. *)
Theorem recency_trackers_bounded_deduplicated (skipped added ts : list ptr) :
  window_ok RecentlySkippedTracker.MAX_SKIPPED skipped →
  window_ok RecentlyAddedTracker.MAX_RECENT added →
  recency_properties RecentlySkippedTracker.MAX_SKIPPED
    RecentlySkippedTracker.addSkippedSong skipped ts ∧
  recency_properties RecentlyAddedTracker.MAX_RECENT
    RecentlyAddedTracker.addRecentSong added ts.
Proof.
  intros Hs Ha. split.
  - apply (touch_recency_properties 10); [lia|done].
  - apply (touch_recency_properties 15); [lia|done].
Qed.

Lemma recency_trackers_bounded_deduplicated_witness :
  window_ok RecentlySkippedTracker.MAX_SKIPPED [] ∧
  window_ok RecentlyAddedTracker.MAX_RECENT [] ∧
  recency_properties RecentlySkippedTracker.MAX_SKIPPED
    RecentlySkippedTracker.addSkippedSong []
    [1; 2; 3; 4; 5; 6; 7; 8; 9; 10; 11; 3; 12]%positive ∧
  recency_properties RecentlyAddedTracker.MAX_RECENT
    RecentlyAddedTracker.addRecentSong []
    [1; 2; 3; 4; 5; 6; 7; 8; 9; 10; 11; 3; 12]%positive.
Proof.
  assert (∀ cap, window_ok cap []) as Hnil.
  { intros cap. split; [simpl; lia|constructor]. }
  split; [apply Hnil|]. split; [apply Hnil|].
  apply (recency_trackers_bounded_deduplicated [] []); apply Hnil.
Defined.

(** C2.  Whatever the songs, the play counts and the skip window,
    [getTop3CalmingSongs] returns at most three songs; each of them is one
    of [allSongs], is not in the skip window, and has a genre that
    [isCalming] accepts; when no song passes the filter the result is the
    empty sequence. *)
Theorem getTop3CalmingSongs_sound (mem : gmap ptr Song) (allSongs : list ptr)
    (playCounts : gmap string Z) (skipTracker : list ptr) :
  let top := AutoReplaySystem.getTop3CalmingSongs mem allSongs playCounts skipTracker in
  (length top ≤ 3)%nat ∧
  (∀ song, song ∈ top →
     (song ∉ RecentlySkippedTracker.getSkippedSongs skipTracker) ∧
     RecentlySkippedTracker.isRecentlySkipped skipTracker song = false ∧
     song ∈ allSongs ∧
     ∃ s, mem !! song = Some s ∧ AutoReplaySystem.isCalming (genre s) = true) ∧
  ((∀ song, song ∈ allSongs →
      AutoReplaySystem.candidate mem playCounts skipTracker song = None) →
   top = []).
Proof.
  intros top. subst top. split; [|split].
  - rewrite getTop3CalmingSongs_take, length_fmap, length_take. lia.
  - intros song [i Hi]%list_elem_of_lookup.
    apply top_lookup in Hi as [_ Hi]. apply list_elem_of_lookup_2 in Hi.
    apply ranked_candidate in Hi as (song' & Hin & Hc).
    apply candidate_Some in Hc as (Heq & Hskip & Hs).
    assert (song = song') as -> by congruence.
    split; [done|]. split; [by apply isRecentlySkipped_false|]. done.
  - intros Hnone. rewrite getTop3CalmingSongs_take.
    by rewrite (omap_no_candidate _ _ Hnone).
Qed.

Lemma getTop3CalmingSongs_sound_witness :
  let mem := Playlist.heap catalog_ABC in
  let top := AutoReplaySystem.getTop3CalmingSongs mem [1; 2; 3]%positive ∅ [2%positive] in
  top = [1%positive] ∧
  (length top ≤ 3)%nat ∧
  (∀ song, song ∈ top →
     (song ∉ RecentlySkippedTracker.getSkippedSongs [2%positive]) ∧
     RecentlySkippedTracker.isRecentlySkipped [2%positive] song = false ∧
     song ∈ [1; 2; 3]%positive ∧
     ∃ s, mem !! song = Some s ∧ AutoReplaySystem.isCalming (genre s) = true).
Proof.
  intros mem top. split; [by vm_compute|].
  pose proof (getTop3CalmingSongs_sound mem [1; 2; 3]%positive ∅ [2%positive])
    as (H1 & H2 & _).
  split; [exact H1|exact H2].
Defined.

(** C3 (as the code has it).  [getTop3CalmingSongs] ranks by play count,
    most played first, and settles ties by the address of the [Song] object,
    greater address first, whatever the order in [allSongs]: of two
    returned songs the earlier one has more plays, or as many plays and an
    address that is not smaller; and a song that passes the filter but is
    left out ranks no higher than any returned song. *)
Theorem getTop3CalmingSongs_ranking (mem : gmap ptr Song) (allSongs : list ptr)
    (playCounts : gmap string Z) (skipTracker : list ptr) :
  let top := AutoReplaySystem.getTop3CalmingSongs mem allSongs playCounts skipTracker in
  (∀ i j x y, (i < j)%nat → top !! i = Some x → top !! j = Some y →
     ranks_before mem playCounts x y) ∧
  (∀ x c, x ∈ top → c ∈ allSongs →
     is_Some (AutoReplaySystem.candidate mem playCounts skipTracker c) →
     c ∉ top → ranks_before mem playCounts x c).
Proof.
  intros top. subst top.
  assert (StronglySorted AutoReplaySystem.not_after
            (merge_sort AutoReplaySystem.not_after
               (omap (AutoReplaySystem.candidate mem playCounts skipTracker) allSongs)))
    as Hsorted by (apply StronglySorted_merge_sort; apply _).
  split.
  - intros i j x y Hij [_ Hx]%top_lookup [_ Hy]%top_lookup.
    apply not_after_ranks_before. by eapply StronglySorted_lookup.
  - intros x c [i Hx]%list_elem_of_lookup Hc [e He] Hout.
    apply top_lookup in Hx as [Hi Hx].
    assert (e ∈ merge_sort AutoReplaySystem.not_after
              (omap (AutoReplaySystem.candidate mem playCounts skipTracker) allSongs))
      as [k Hk]%list_elem_of_lookup by (apply ranked_candidate; eauto).
    apply candidate_Some in He as (-> & _).
    destruct (decide (k < 3)%nat) as [Hlt|Hge].
    + destruct Hout. eapply list_elem_of_lookup_2. by eapply top_lookup_ranked.
    + apply not_after_ranks_before.
      eapply (StronglySorted_lookup _ _ i k); [done|lia|done|done].
Qed.

Lemma getTop3CalmingSongs_ranking_witness :
  let mem := Playlist.heap catalog_ABC in
  let top := AutoReplaySystem.getTop3CalmingSongs mem [1; 2; 3]%positive ∅ [] in
  (0 < 1)%nat ∧ top !! 0%nat = Some 2%positive ∧ top !! 1%nat = Some 1%positive ∧
  ranks_before mem ∅ 2%positive 1%positive.
Proof.
  intros mem top.
  assert (top !! 0%nat = Some 2%positive) as H0 by by vm_compute.
  assert (top !! 1%nat = Some 1%positive) as H1 by by vm_compute.
  assert (0 < 1)%nat as H01 by lia.
  split; [exact H01|]. split; [exact H0|]. split; [exact H1|].
  exact (proj1 (getTop3CalmingSongs_ranking mem [1; 2; 3]%positive ∅ [])
           0%nat 1%nat 2%positive 1%positive H01 H0 H1).
Defined.

(** C3 fails as stated: in the catalog [A, B, C] the songs [A] and [B]
    both pass the filter with equal play counts, [A] stands before [B] in
    the catalog, and [B] is returned before [A]. *)
Lemma ties_against_catalog_order :
  let mem := Playlist.heap catalog_ABC in
  Playlist.get_all_songs catalog_ABC = Some [1; 2; 3]%positive ∧
  AutoReplaySystem.candidate mem ∅ [] 1%positive = Some (0, 1%positive) ∧
  AutoReplaySystem.candidate mem ∅ [] 2%positive = Some (0, 2%positive) ∧
  AutoReplaySystem.getTop3CalmingSongs mem [1; 2; 3]%positive ∅ []
    = [2%positive; 1%positive] ∧
  titles mem (AutoReplaySystem.getTop3CalmingSongs mem [1; 2; 3]%positive ∅ [])
    = ["B"; "A"].
Proof. by vm_compute. Qed.

(** C6 (as the code has it).  [isCalming] accepts a genre exactly when it
    equals, up to the case of letters, one of the six names in
    [calmingGenres]: the five of the specification and "Lofi". *)
Theorem isCalming_six_genres (genre : string) :
  AutoReplaySystem.isCalming genre = true
  ↔ ∃ calming, calming ∈ ["Lo-Fi"; "Jazz"; "Classical"; "Ambient"; "Chill"; "Lofi"] ∧
               equal_ignoring_case genre calming.
Proof.
  unfold AutoReplaySystem.isCalming. rewrite existsb_exists.
  change ["Lo-Fi"; "Jazz"; "Classical"; "Ambient"; "Chill"; "Lofi"]
    with AutoReplaySystem.calmingGenres.
  split; intros (calming & Hin & Heq); exists calming.
  - split; [by apply list_elem_of_In|].
    apply equal_ignoring_case_lowered. by apply bool_decide_eq_true in Heq.
  - split; [by apply list_elem_of_In|].
    apply bool_decide_eq_true. by apply equal_ignoring_case_lowered.
Qed.

(** C6 fails as stated: "Lofi" is accepted and equals none of the five
    genres up to case. *)
Lemma isCalming_Lofi :
  AutoReplaySystem.isCalming "Lofi" = true ∧
  ¬ ∃ calming, calming ∈ five_genres ∧ equal_ignoring_case "Lofi" calming.
Proof.
  split; [by vm_compute|]. intros (calming & Hin & Heq).
  apply equal_ignoring_case_lowered in Heq. unfold five_genres in Hin.
  repeat (apply elem_of_cons in Hin as [->|Hin]; [by vm_compute in Heq|]).
  by apply elem_of_nil in Hin.
Qed.

(** C9 (as the code has it).  On a well-formed, non-empty catalog of length
    [L] and a player whose index is an [int] of at least -1 and below
    [INT_MAX], [playNext] with [index + 1 < L] moves the index on by one,
    makes that song the current one, marks the player as playing, pushes
    the song on the history, stores a new play count for its title and
    returns [true]; the new play count is the old one plus one whenever
    the old one is an [int] below [INT_MAX].  Otherwise [playNext] returns
    [false] with the end-of-playlist message and leaves the player (the
    playing flag included), the history and the play counts as they
    were. *)
Theorem playNext_advances_or_reports_end (p : PlaylistPlayer.t) (pl : Playlist.t)
    (ls ph : list ptr) (playCounts : gmap string Z) :
  Playlist_dll pl ls → ls ≠ [] → -1 ≤ PlaylistPlayer.currentIndex p < INT_MAX →
  let index := PlaylistPlayer.currentIndex p + 1 in
  (index < Z.of_nat (length ls) →
     ∃ song s count,
       ls !! Z.to_nat index = Some song ∧
       Playlist.heap pl !! song = Some s ∧
       PlaylistPlayer.playNext p pl ph playCounts
       = Some (PlaylistPlayer.out true
                 (PlaylistPlayer.Next (index + 1) (Z.of_nat (length ls)) song)
                 (PlaylistPlayer.mk index true (Some song))
                 (song :: ph)
                 (<[title s := count]> playCounts)) ∧
       (INT_MIN ≤ default 0 (playCounts !! title s) < INT_MAX →
          count = default 0 (playCounts !! title s) + 1)) ∧
  (Z.of_nat (length ls) ≤ index →
     PlaylistPlayer.playNext p pl ph playCounts
     = Some (PlaylistPlayer.out false PlaylistPlayer.ReachedEndOfPlaylist p ph playCounts)).
Proof.
  intros Hdll Hne Hidx index. unfold PlaylistPlayer.playNext.
  rewrite (get_all_songs_dll _ _ Hdll). simpl. fold index.
  rewrite (decide_False (P := ls = [])) by done. split.
  - intros Hlt. rewrite decide_False by lia. rewrite decide_True by lia.
    destruct (lookup_lt_is_Some_2 ls (Z.to_nat index)) as [song Hsong]; [lia|].
    destruct (Playlist_dll_live pl ls song Hdll) as [s Hs];
      [by eapply list_elem_of_lookup_2|].
    exists song, s, (wrap (default 0 (playCounts !! title s) + 1)).
    rewrite Hsong. simpl. rewrite Hs. split; [done|]. split; [done|].
    split; [done|]. intros Hcount. apply wrap_in_range. lia.
  - intros Hge. by rewrite decide_True by lia.
Qed.

Lemma playNext_advances_or_reports_end_witness :
  Playlist_dll catalog_ABC [1; 2; 3]%positive ∧
  [1; 2; 3]%positive ≠ [] ∧
  -1 ≤ PlaylistPlayer.currentIndex PlaylistPlayer.init < INT_MAX ∧
  ∃ song s,
    [1; 2; 3]%positive !! Z.to_nat 0 = Some song ∧
    Playlist.heap catalog_ABC !! song = Some s ∧
    PlaylistPlayer.playNext PlaylistPlayer.init catalog_ABC [] ∅
    = Some (PlaylistPlayer.out true (PlaylistPlayer.Next 1 3 song)
              (PlaylistPlayer.mk 0 true (Some song)) [song]
              (<[title s := default 0 ((∅ : gmap string Z) !! title s) + 1]> ∅)).
Proof.
  assert ([1; 2; 3]%positive ≠ []) as Hne by done.
  assert (-1 ≤ PlaylistPlayer.currentIndex PlaylistPlayer.init < INT_MAX) as Hidx
    by (vm_compute; intuition discriminate).
  split; [exact catalog_ABC_dll|]. split; [exact Hne|]. split; [exact Hidx|].
  destruct (proj1 (playNext_advances_or_reports_end PlaylistPlayer.init catalog_ABC
                     [1; 2; 3]%positive [] ∅ catalog_ABC_dll Hne Hidx))
    as (song & s & count & Hsong & Hs & Hnext & Hcount); [by vm_compute|].
  exists song, s. split; [exact Hsong|]. split; [exact Hs|].
  rewrite <- Hcount; [exact Hnext|].
  rewrite lookup_empty. vm_compute. intuition discriminate.
Defined.

(** C9 fails as stated: at the end of the catalog [playNext] does not put
    the player into the stopped state.  From the initial player on the
    one-song catalog, the first call plays the song and the second call
    reports the end with the playing flag still set. *)
Lemma playNext_at_end_still_playing :
  ∃ o1 o2,
    PlaylistPlayer.playNext PlaylistPlayer.init catalog_A [] ∅ = Some o1 ∧
    PlaylistPlayer.returned o1 = true ∧
    PlaylistPlayer.playNext (PlaylistPlayer.player o1) catalog_A
      (PlaylistPlayer.history o1) (PlaylistPlayer.playCounts o1) = Some o2 ∧
    PlaylistPlayer.returned o2 = false ∧
    PlaylistPlayer.shown o2 = PlaylistPlayer.ReachedEndOfPlaylist ∧
    PlaylistPlayer.isPlaying (PlaylistPlayer.player o2) = true.
Proof.
  eexists _, _. split; [by vm_compute|]. split; [done|].
  split; [by vm_compute|]. done.
Qed.

(** * Further properties of the catalog engine *)

(** ** The playlist: what the operations keep *)

Section PlaylistKeeps.
Implicit Types (pl : Playlist.t) (ls : list ptr) (a b : ptr) (h : gmap ptr Song).

(** A write to the links of a node leaves the metadata of every node. *)
Lemma lookup_alter_meta (f : Song → Song) h b x :
  (∀ s, meta (f s) = meta s) → meta <$> alter f b h !! x = meta <$> h !! x.
Proof.
  intros Hf. destruct (decide (b = x)) as [->|Hne].
  - rewrite lookup_alter_eq. destruct (h !! x) as [s|]; simpl; [|done].
    by rewrite Hf.
  - by rewrite lookup_alter_ne.
Qed.

Lemma unlink_meta pl a x :
  meta <$> Playlist.heap (Playlist.unlink pl a) !! x = meta <$> Playlist.heap pl !! x.
Proof.
  unfold Playlist.unlink. playlist_fields.
  repeat first [rewrite lookup_alter_meta by done | case_match]; done.
Qed.

Lemma relink_meta pl a to_index x :
  meta <$> Playlist.heap (Playlist.relink pl a to_index) !! x
  = meta <$> Playlist.heap pl !! x.
Proof.
  unfold Playlist.relink.
  repeat first [progress playlist_fields | rewrite lookup_alter_meta by done
               | case_decide | case_match]; done.
Qed.

Lemma move_song_meta pl from_index to_index x :
  meta <$> Playlist.heap (Playlist.move_song pl from_index to_index) !! x
  = meta <$> Playlist.heap pl !! x.
Proof.
  unfold Playlist.move_song.
  destruct (decide (from_index = to_index)); [done|].
  destruct (Playlist.head pl); [|done].
  destruct (Playlist.advance _ _ _) as [song|]; [|done].
  rewrite relink_meta. playlist_fields.
  rewrite !lookup_alter_meta by done. apply unlink_meta.
Qed.

Lemma insert_at_Permutation (k : nat) a ls : insert_at k a ls ≡ₚ a :: ls.
Proof.
  unfold insert_at. rewrite <- Permutation_middle.
  by rewrite take_drop.
Qed.

Lemma move_list_Permutation from_index to_index ls :
  move_list from_index to_index ls ≡ₚ ls.
Proof.
  unfold move_list. case_decide; [done|].
  destruct (ls !! Z.to_nat from_index) as [a|] eqn:Ha; [|done].
  rewrite insert_at_Permutation, delete_take_drop.
  rewrite <- (take_drop_middle _ _ _ Ha) at 3.
  by rewrite <- Permutation_middle.
Qed.

Lemma titles_meta h h' ls :
  (∀ a, meta <$> h' !! a = meta <$> h !! a) → titles h' ls = titles h ls.
Proof.
  intros Hmeta. unfold titles. apply list_omap_ext, Forall2_same_length_lookup.
  split; [done|]. intros i a a' Ha Ha'. assert (a' = a) as -> by congruence.
  specialize (Hmeta a).
  destruct (h' !! a) as [s'|], (h !! a) as [s|]; simpl in *; try done.
  by injection Hmeta as -> _ _ _.
Qed.

Lemma titles_reverse h ls : titles h (reverse ls) = reverse (titles h ls).
Proof.
  unfold titles. induction ls as [|a ls IH]; [done|].
  rewrite reverse_cons, omap_app, IH. simpl.
  destruct (h !! a); simpl; [by rewrite reverse_cons|].
  by rewrite app_nil_r.
Qed.

End PlaylistKeeps.

(** X1.  [add_song] returns the address of the new node and appends it: on a
    well-formed playlist, with an address that is not live, the sequence of
    songs grows by the new song at its end, the new node carries the given
    title, artist, genre and duration, and no other song's metadata
    changes.  The overload without a genre stores the genre "Unknown". *)
Theorem add_song_appends (pl : Playlist.t) (ls : list ptr) (a : ptr)
    (t ar g : string) (d : Z) :
  Playlist_dll pl ls → Playlist.heap pl !! a = None →
  let pl' := (Playlist.add_song pl a t ar g d).1 in
  (Playlist.add_song pl a t ar g d).2 = a ∧
  Playlist.get_all_songs pl' = Some (ls ++ [a]) ∧
  meta <$> Playlist.heap pl' !! a = Some (t, ar, g, d) ∧
  (∀ b, b ≠ a → meta <$> Playlist.heap pl' !! b = meta <$> Playlist.heap pl !! b) ∧
  meta <$> Playlist.heap (Playlist.add_song_no_genre pl a t ar d).1 !! a
  = Some (t, ar, "Unknown", d).
Proof.
  intros Hdll Hfresh pl'.
  assert (∀ g', meta <$> Playlist.heap (Playlist.add_song pl a t ar g' d).1 !! a
                = Some (t, ar, g', d)) as Hnew.
  { intros g'. unfold Playlist.add_song.
    destruct (Playlist.head pl); playlist_fields.
    - destruct (Playlist.tail pl); rewrite !lookup_alter_meta by done;
        by rewrite lookup_insert_eq.
    - by rewrite lookup_insert_eq. }
  split; [|split; [|split; [|split]]].
  - unfold Playlist.add_song. by destruct (Playlist.head pl).
  - by apply get_all_songs_dll, add_song_dll.
  - apply Hnew.
  - intros b Hb. subst pl'. unfold Playlist.add_song.
    destruct (Playlist.head pl); playlist_fields.
    + destruct (Playlist.tail pl); rewrite !lookup_alter_meta by done;
        by rewrite lookup_insert_ne.
    + by rewrite lookup_insert_ne.
  - apply Hnew.
Qed.

Lemma add_song_appends_witness :
  Playlist_dll catalog_A [1%positive] ∧
  Playlist.heap catalog_A !! 2%positive = None ∧
  Playlist.get_all_songs (Playlist.add_song catalog_A 2%positive "B" "Artist2" "Jazz" 100).1
  = Some ([1%positive] ++ [2%positive]).
Proof.
  assert (Playlist_dll catalog_A [1%positive]) as Hdll.
  { change [1%positive] with ([] ++ [1%positive]).
    apply add_song_dll; [apply Playlist_dll_empty|done]. }
  assert (Playlist.heap catalog_A !! 2%positive = None) as Hfresh by by vm_compute.
  split; [exact Hdll|]. split; [exact Hfresh|].
  exact (proj1 (proj2 (add_song_appends catalog_A [1%positive] 2%positive
                         "B" "Artist2" "Jazz" 100 Hdll Hfresh))).
Defined.

(** X2.  For an index inside the playlist [delete_song] removes exactly the
    song at that index: the other songs keep their order and their
    metadata, and the node of the removed song is freed, so that a pointer
    to it kept elsewhere (title lookup, rating map, trackers) dangles. *)
Theorem delete_song_removes_index (pl : Playlist.t) (ls : list ptr) (index : Z) (a : ptr) :
  Playlist_dll pl ls → 0 ≤ index → ls !! Z.to_nat index = Some a →
  let pl' := Playlist.delete_song pl index in
  Playlist.get_all_songs pl' = Some (take (Z.to_nat index) ls ++ drop (S (Z.to_nat index)) ls) ∧
  Playlist.heap pl' !! a = None ∧
  (∀ b, b ≠ a → meta <$> Playlist.heap pl' !! b = meta <$> Playlist.heap pl !! b).
Proof.
  intros Hdll Hidx Ha pl'. split.
  - rewrite <- delete_take_drop. by apply get_all_songs_dll, delete_song_dll.
  - subst pl'. unfold Playlist.delete_song.
    destruct (Playlist.head pl) as [hd|] eqn:Hhd.
    2:{ assert (ls = []) as -> by by eapply Playlist_dll_nil. done. }
    rewrite <- Hhd, (advance_dll _ _ _ Hdll), Ha. playlist_fields. split.
    + apply lookup_delete_eq.
    + intros b Hb. rewrite lookup_delete_ne by done. apply unlink_meta.
Qed.

Lemma delete_song_removes_index_witness :
  Playlist_dll catalog_ABC [1; 2; 3]%positive ∧ 0 ≤ 1 ∧
  [1; 2; 3]%positive !! Z.to_nat 1 = Some 2%positive ∧
  Playlist.get_all_songs (Playlist.delete_song catalog_ABC 1) = Some [1; 3]%positive ∧
  Playlist.heap (Playlist.delete_song catalog_ABC 1) !! 2%positive = None.
Proof.
  assert (0 ≤ 1) as H01 by lia.
  assert ([1; 2; 3]%positive !! Z.to_nat 1 = Some 2%positive) as H2 by done.
  split; [exact catalog_ABC_dll|]. split; [exact H01|]. split; [exact H2|].
  pose proof (delete_song_removes_index catalog_ABC [1; 2; 3]%positive 1 2%positive
                catalog_ABC_dll H01 H2) as (H & H' & _).
  split; [exact H|exact H'].
Defined.

(** X3.  Whatever the two indices, [move_song] neither loses nor duplicates
    a song: the sequence after the call is a permutation of the sequence
    before it, and the metadata of every song is unchanged. *)
Theorem move_song_permutes (pl : Playlist.t) (ls : list ptr) (from_index to_index : Z) :
  Playlist_dll pl ls →
  ∃ ls', Playlist.get_all_songs (Playlist.move_song pl from_index to_index) = Some ls' ∧
         ls' ≡ₚ ls ∧
         ∀ x, meta <$> Playlist.heap (Playlist.move_song pl from_index to_index) !! x
              = meta <$> Playlist.heap pl !! x.
Proof.
  intros Hdll. exists (move_list from_index to_index ls). split; [|split].
  - by apply get_all_songs_dll, move_song_dll.
  - apply move_list_Permutation.
  - intros x. apply move_song_meta.
Qed.

Lemma move_song_permutes_witness :
  Playlist_dll catalog_ABC [1; 2; 3]%positive ∧
  ∃ ls', Playlist.get_all_songs (Playlist.move_song catalog_ABC 2 (-7)) = Some ls' ∧
         ls' ≡ₚ [1; 2; 3]%positive.
Proof.
  split; [exact catalog_ABC_dll|].
  destruct (move_song_permutes catalog_ABC [1; 2; 3]%positive 2 (-7) catalog_ABC_dll)
    as (ls' & H1 & H2 & _).
  exists ls'. split; [exact H1|exact H2].
Defined.

(** At [to_index = INT_MIN], with a source index inside a playlist of at
    most [INT_MAX] songs, the bound [to_index - 1] of the search loop wraps
    around to [INT_MAX], the search runs off the end, and the song is put
    last. *)
Lemma move_song_INT_MIN pl ls from_index a :
  Playlist_dll pl ls → Z.of_nat (length ls) ≤ INT_MAX →
  0 ≤ from_index → ls !! Z.to_nat from_index = Some a →
  Playlist.get_all_songs (Playlist.move_song pl from_index INT_MIN)
  = Some (delete (Z.to_nat from_index) ls ++ [a]).
Proof.
  intros Hdll Hlen Hfrom Ha.
  pose proof (lookup_lt_Some _ _ _ Ha) as Hlt.
  rewrite (get_all_songs_dll _ _ (move_song_dll _ _ from_index INT_MIN Hdll)).
  unfold move_list. rewrite Ha, decide_False by (unfold INT_MIN; lia). f_equal.
  unfold move_target.
  rewrite (decide_False (P := INT_MIN > from_index)) by (unfold INT_MIN; lia).
  rewrite decide_False by done. rewrite wrap_before_INT_MIN.
  apply insert_at_past_end. rewrite length_delete by eauto. lia.
Qed.

(** X4.  [move_song] outside the playlist.  A source index at or past the
    end changes nothing.  For a source index inside the playlist, a target
    index at or past the end moves the song to the end, and a negative
    target index above [INT_MIN] is not rejected: the song is put second
    (first when it is the only song). *)
Theorem move_song_out_of_range (pl : Playlist.t) (ls : list ptr) (from_index to_index : Z)
    (a : ptr) :
  Playlist_dll pl ls →
  (Z.of_nat (length ls) ≤ from_index → Playlist.move_song pl from_index to_index = pl) ∧
  (0 ≤ from_index → ls !! Z.to_nat from_index = Some a →
     (Z.of_nat (length ls) ≤ to_index ≤ INT_MAX →
        Playlist.get_all_songs (Playlist.move_song pl from_index to_index)
        = Some (delete (Z.to_nat from_index) ls ++ [a])) ∧
     (INT_MIN < to_index < 0 →
        Playlist.get_all_songs (Playlist.move_song pl from_index to_index)
        = Some (take 1 (delete (Z.to_nat from_index) ls) ++
                a :: drop 1 (delete (Z.to_nat from_index) ls)))).
Proof.
  intros Hdll. split.
  - intros Hfrom. unfold Playlist.move_song. case_decide; [done|].
    destruct (Playlist.head pl) as [hd|] eqn:Hhd; [|done].
    rewrite <- Hhd, (advance_dll _ _ _ Hdll).
    by rewrite (proj2 (lookup_ge_None ls (Z.to_nat from_index))) by lia.
  - intros Hfrom Ha.
    pose proof (lookup_lt_Some _ _ _ Ha) as Hlt.
    pose proof (get_all_songs_dll _ _ (move_song_dll _ _ from_index to_index Hdll)) as Hmove.
    unfold move_list in Hmove. rewrite Ha in Hmove. split.
    + intros [Hto Hint]. rewrite Hmove, decide_False by lia. f_equal.
      unfold move_target. rewrite (decide_True (P := to_index > from_index)) by lia.
      destruct (decide (to_index - 1 = 0)) as [Hz|Hz].
      * assert (length ls = 1%nat) as Hone by lia.
        destruct ls as [|x [|y ls]]; simpl in Hone; try lia.
        by replace (Z.to_nat from_index) with 0%nat by (simpl in Hlt; lia).
      * apply insert_at_past_end. rewrite length_delete by eauto.
        rewrite wrap_in_range by (unfold INT_MIN, INT_MAX in *; lia). lia.
    + intros [Hint Hto]. rewrite Hmove, decide_False by lia. f_equal.
      unfold move_target. rewrite (decide_False (P := to_index > from_index)) by lia.
      rewrite decide_False by lia.
      rewrite wrap_in_range by (unfold INT_MIN, INT_MAX in *; lia).
      by replace (Z.to_nat (to_index - 1)) with 0%nat by lia.
Qed.

Lemma move_song_out_of_range_witness :
  Playlist_dll catalog_ABC [1; 2; 3]%positive ∧
  Playlist.move_song catalog_ABC 3 0 = catalog_ABC ∧
  Playlist.get_all_songs (Playlist.move_song catalog_ABC 0 7) = Some [2; 3; 1]%positive ∧
  Playlist.get_all_songs (Playlist.move_song catalog_ABC 2 (-7)) = Some [1; 3; 2]%positive.
Proof.
  split; [exact catalog_ABC_dll|].
  pose proof (move_song_out_of_range catalog_ABC [1; 2; 3]%positive 3 0 1%positive
                catalog_ABC_dll) as [H1 _].
  pose proof (move_song_out_of_range catalog_ABC [1; 2; 3]%positive 0 7 1%positive
                catalog_ABC_dll) as [_ H2].
  pose proof (move_song_out_of_range catalog_ABC [1; 2; 3]%positive 2 (-7) 3%positive
                catalog_ABC_dll) as [_ H3].
  split; [apply H1; simpl; lia|]. split.
  - apply H2; [lia|done|unfold INT_MAX; simpl; lia].
  - apply H3; [lia|done|unfold INT_MIN; lia].
Defined.

(** X5.  In every playlist that the operations can build, the links are
    symmetric and the songs pairwise distinct: the traversal terminates,
    no song occurs twice, and the node at position [i] has the node at
    position [i + 1] as its [next] ([nullptr] at the end) and the node at
    position [i - 1] as its [prev] ([nullptr] at the front). *)
Theorem reachable_links_symmetric (pl : Playlist.t) :
  reachable pl →
  ∃ ls, Playlist.get_all_songs pl = Some ls ∧
        NoDup ls ∧
        Playlist.head pl = ls !! 0%nat ∧
        Playlist.tail pl = last ls ∧
        ∀ i a, ls !! i = Some a →
          load_next (Playlist.heap pl) a = ls !! S i ∧
          load_prev (Playlist.heap pl) a = match i with O => None | S j => ls !! j end.
Proof.
  intros [ls Hdll]%reachable_dll. exists ls.
  split; [by apply get_all_songs_dll|]. split; [apply Hdll|].
  split; [rewrite <- head_lookup; apply Hdll|]. split; [apply Hdll|].
  intros i a Ha. pose proof (lookup_lt_Some _ _ _ Ha) as Hlt.
  rewrite <- (take_drop_middle _ _ _ Ha) in Hdll.
  apply Playlist_dll_node in Hdll as [Hnode _].
  rewrite (load_next_node _ _ _ _ Hnode), (load_prev_node _ _ _ _ Hnode). split.
  - rewrite head_lookup, lookup_drop. f_equal. lia.
  - destruct i as [|j]; [done|].
    rewrite last_lookup, length_take, Nat.min_l by lia. simpl.
    apply lookup_take_lt. lia.
Qed.

Lemma reachable_links_symmetric_witness :
  reachable (Playlist.move_song catalog_ABC 2 0) ∧
  ∃ ls, Playlist.get_all_songs (Playlist.move_song catalog_ABC 2 0) = Some ls ∧ NoDup ls.
Proof.
  assert (reachable (Playlist.move_song catalog_ABC 2 0)) as Hreach.
  { apply reachable_move. unfold catalog_ABC.
    repeat (apply reachable_add; [|by vm_compute]). apply reachable_empty. }
  split; [exact Hreach|].
  destruct (reachable_links_symmetric _ Hreach) as (ls & H1 & H2 & _).
  exists ls. split; [exact H1|exact H2].
Defined.

(** X6.  [reverse_playlist] changes links only: the metadata of every song
    is what it was, and the titles of the playlist come out in reversed
    order. *)
Theorem reverse_playlist_titles (pl pl' : Playlist.t) (ls : list ptr) :
  Playlist_dll pl ls → Playlist.reverse_playlist pl = Some pl' →
  (∀ x, meta <$> Playlist.heap pl' !! x = meta <$> Playlist.heap pl !! x) ∧
  playlist_titles pl' = reverse <$> playlist_titles pl.
Proof.
  intros Hdll Hrev.
  destruct (reverse_playlist_dll _ _ Hdll) as (pl'' & Hrev' & Hdll' & _ & _ & Hlook).
  assert (pl'' = pl') as -> by congruence.
  assert (∀ x, meta <$> Playlist.heap pl' !! x = meta <$> Playlist.heap pl !! x) as Hmeta.
  { intros x. rewrite Hlook. case_decide; [|done].
    by destruct (Playlist.heap pl !! x). }
  split; [done|]. unfold playlist_titles.
  rewrite (get_all_songs_dll _ _ Hdll), (get_all_songs_dll _ _ Hdll'). simpl.
  by rewrite (titles_meta _ _ _ Hmeta), titles_reverse.
Qed.

Lemma reverse_playlist_titles_witness :
  Playlist_dll catalog_ABC [1; 2; 3]%positive ∧
  ∃ pl', Playlist.reverse_playlist catalog_ABC = Some pl' ∧
         playlist_titles pl' = reverse <$> playlist_titles catalog_ABC.
Proof.
  split; [exact catalog_ABC_dll|].
  destruct (reverse_playlist_dll _ _ catalog_ABC_dll) as (pl' & Hrev & _).
  exists pl'. split; [exact Hrev|].
  exact (proj2 (reverse_playlist_titles catalog_ABC pl' [1; 2; 3]%positive
                  catalog_ABC_dll Hrev)).
Defined.

(** ** History, title lookup and the tracker queries *)

Section Queries.
Implicit Types (mem : gmap ptr Song) (w l : list ptr) (song x : ptr).

Lemma recently_played_loop_take (temp recent : list ptr) (n : Z) :
  PlaybackHistory.recently_played_loop temp recent n
  = recent ++ take (Z.to_nat n - length recent) temp.
Proof.
  revert recent. induction temp as [|top rest IH]; intros recent; simpl.
  - by rewrite take_nil, app_nil_r.
  - case_decide as Hlt.
    + rewrite IH, length_app, <- app_assoc. simpl. f_equal.
      replace (Z.to_nat n - length recent)%nat
        with (S (Z.to_nat n - (length recent + 1)))%nat by lia.
      done.
    + replace (Z.to_nat n - length recent)%nat with 0%nat by lia.
      by rewrite app_nil_r.
Qed.

Lemma omap_lookup_seq (l : list ptr) (c : nat) :
  (c ≤ length l)%nat → omap (λ i, l !! i) (seq 0 c) = take c l.
Proof.
  induction c as [|c IH]; intros Hc; [done|].
  rewrite seq_S, omap_app, IH by lia. simpl.
  destruct (lookup_lt_is_Some_2 l c) as [y Hy]; [lia|].
  rewrite Hy. by erewrite take_S_r.
Qed.

Lemma by_genre_loop_take mem (wanted : string) (limit : Z) (window result : list ptr) :
  (length result < Z.to_nat (Z.max 1 limit))%nat →
  RecentlyAddedTracker.by_genre_loop mem wanted limit window result
  = result ++ take (Z.to_nat (Z.max 1 limit) - length result)
                (filter (λ a, genre <$> mem !! a = Some wanted) window).
Proof.
  revert result. induction window as [|song rest IH]; intros result Hlen; simpl.
  - by rewrite filter_nil, take_nil, app_nil_r.
  - case_bool_decide as Hmatch.
    + rewrite filter_cons_True by done. case_decide as Hfull.
      * rewrite length_app in Hfull. simpl in Hfull.
        replace (Z.to_nat (Z.max 1 limit) - length result)%nat with 1%nat by lia.
        simpl. by rewrite take_0.
      * rewrite length_app in Hfull. simpl in Hfull.
        rewrite IH by (rewrite length_app; simpl; lia).
        rewrite length_app, <- app_assoc. simpl. f_equal.
        replace (Z.to_nat (Z.max 1 limit) - length result)%nat
          with (S (Z.to_nat (Z.max 1 limit) - (length result + 1)))%nat by lia.
        done.
    + rewrite filter_cons_False by done. by apply IH.
Qed.

Lemma removelast_subseteq (l : list ptr) x : x ∈ removelast l → x ∈ l.
Proof.
  rewrite removelast_firstn_len. apply subseteq_take.
Qed.

Lemma remove_first_subseteq l song x : x ∈ remove_first song l → x ∈ l.
Proof.
  induction l as [|y l IH]; simpl; [done|]. case_decide.
  - intros Hin. by right.
  - intros [->|Hin]%elem_of_cons; [by left|]. right. by apply IH.
Qed.

Lemma remove_first_other l song x : x ∈ l → x ≠ song → x ∈ remove_first song l.
Proof.
  induction l as [|y l IH]; simpl; [done|]. intros [->|Hin]%elem_of_cons Hne.
  - rewrite decide_False by done. by left.
  - case_decide; [done|]. right. by apply IH.
Qed.

Lemma touch_elem_of (cap : nat) w song x : x ∈ touch cap w song → x = song ∨ x ∈ w.
Proof.
  unfold touch. rewrite erase_remove_first. case_decide.
  - intros [->|Hin]%removelast_subseteq%elem_of_cons; [by left|].
    right. by eapply remove_first_subseteq.
  - intros [->|Hin]%elem_of_cons; [by left|].
    right. by eapply remove_first_subseteq.
Qed.

Lemma touch_elem_of_song (cap : nat) w song : (0 < cap)%nat → song ∈ touch cap w song.
Proof.
  intros Hcap. pose proof (touch_front cap Hcap w song) as Hhead.
  destruct (touch cap w song) as [|y l]; [done|]. injection Hhead as ->. by left.
Qed.

Lemma touch_keeps (cap : nat) w song x :
  (length w < cap)%nat → x ∈ w → x ∈ touch cap w song.
Proof.
  intros Hlen Hin. unfold touch. rewrite erase_remove_first.
  pose proof (remove_first_length 1 Nat.lt_0_1 w song).
  rewrite decide_False by (simpl; lia).
  destruct (decide (x = song)) as [->|Hne]; [by left|].
  right. by apply remove_first_other.
Qed.

Lemma isRecentlySkipped_true w x :
  RecentlySkippedTracker.isRecentlySkipped w x = true ↔ x ∈ w.
Proof.
  pose proof (isRecentlySkipped_false w x) as Hfalse.
  destruct (RecentlySkippedTracker.isRecentlySkipped w x).
  - split; [|done]. intros _. destruct (decide (x ∈ w)); [done|].
    by apply Hfalse in n.
  - split; [done|]. intros Hin. by apply Hfalse in Hin.
Qed.

End Queries.

(** X7.  [get_recently_played(n)] returns the [n] most recently played
    songs, most recent first: all of the history when it has fewer than [n]
    entries, and nothing when [n] is zero or negative. *)
Theorem get_recently_played_take (history : list ptr) (n : Z) :
  PlaybackHistory.get_recently_played history n = take (Z.to_nat n) history.
Proof.
  unfold PlaybackHistory.get_recently_played.
  rewrite recently_played_loop_take. simpl. by rewrite Nat.sub_0_r.
Qed.

(** X8.  After any series of [SongLookup::add] calls, [get] returns for a
    title the song added last under that title (a later song with the same
    title replaces the earlier one), and what the table held before when no
    added song has the title; [get] itself never inserts. *)
Theorem lookup_get_after_adds (mem : gmap ptr Song) (lookup : gmap string ptr)
    (songs : list ptr) (t : string) :
  SongLookup.get (foldl (λ table song, SongLookup.add table mem song) lookup songs) t
  = match last (filter (λ a, title <$> mem !! a = Some t) songs) with
    | Some a => Some a
    | None => SongLookup.get lookup t
    end.
Proof.
  induction songs as [|song songs IH] using rev_ind; [done|].
  rewrite foldl_app, filter_app. simpl. unfold SongLookup.add at 1.
  unfold SongLookup.get in *.
  destruct (mem !! song) as [s|] eqn:Hs.
  - destruct (decide (title s = t)) as [<-|Hne].
    + rewrite lookup_insert_eq, filter_cons_True by by rewrite Hs.
      by rewrite filter_nil, last_snoc.
    + rewrite lookup_insert_ne by done.
      rewrite filter_cons_False by (rewrite Hs; simpl; congruence).
      by rewrite filter_nil, app_nil_r.
  - rewrite filter_cons_False by by rewrite Hs. by rewrite filter_nil, app_nil_r.
Qed.

(** X9.  [getRecentlyAdded(limit)] returns the first [limit] entries of the
    window, most recent first: the whole window when [limit] exceeds its
    size, and nothing when [limit] is zero or negative. *)
Theorem getRecentlyAdded_take (recentlyAdded : list ptr) (limit : Z) :
  RecentlyAddedTracker.getRecentlyAdded recentlyAdded limit
  = take (Z.to_nat limit) recentlyAdded.
Proof.
  unfold RecentlyAddedTracker.getRecentlyAdded.
  rewrite omap_lookup_seq by lia.
  destruct (decide (limit ≤ Z.of_nat (length recentlyAdded))).
  - by rewrite Z.min_l.
  - rewrite Z.min_r, !take_ge by lia. done.
Qed.

(** X10.  [getRecentlyAddedByGenre(genre, limit)] returns, in window order,
    the first [limit] songs whose genre is exactly [genre] (the comparison
    is case-sensitive); because the size test follows the insertion, a
    [limit] of zero or less still returns one song when one matches. *)
Theorem getRecentlyAddedByGenre_take (mem : gmap ptr Song) (recentlyAdded : list ptr)
    (wanted : string) (limit : Z) :
  RecentlyAddedTracker.getRecentlyAddedByGenre mem recentlyAdded wanted limit
  = take (Z.to_nat (Z.max 1 limit))
      (filter (λ a, genre <$> mem !! a = Some wanted) recentlyAdded).
Proof.
  unfold RecentlyAddedTracker.getRecentlyAddedByGenre.
  rewrite by_genre_loop_take by (simpl; lia). simpl. by rewrite Nat.sub_0_r.
Qed.

(** X11.  Membership in the skip window: after [addSkippedSong(song)] the
    song is reported as recently skipped; no song is reported that was not
    reported before, other than [song]; while the window holds fewer than
    10 songs no song drops out; and after [clearSkippedHistory] no song is
    reported. *)
Theorem addSkippedSong_membership (skippedSongs : list ptr) (song x : ptr) :
  let skippedSongs' := RecentlySkippedTracker.addSkippedSong skippedSongs song in
  RecentlySkippedTracker.isRecentlySkipped skippedSongs' song = true ∧
  (RecentlySkippedTracker.isRecentlySkipped skippedSongs' x = true →
     x = song ∨ RecentlySkippedTracker.isRecentlySkipped skippedSongs x = true) ∧
  ((length skippedSongs < RecentlySkippedTracker.MAX_SKIPPED)%nat →
     RecentlySkippedTracker.isRecentlySkipped skippedSongs x = true →
     RecentlySkippedTracker.isRecentlySkipped skippedSongs' x = true) ∧
  RecentlySkippedTracker.isRecentlySkipped
    (RecentlySkippedTracker.clearSkippedHistory skippedSongs') x = false.
Proof.
  intros skippedSongs'. subst skippedSongs'. rewrite !isRecentlySkipped_true.
  change (RecentlySkippedTracker.addSkippedSong skippedSongs song)
    with (touch 10 skippedSongs song).
  split; [apply touch_elem_of_song; lia|]. split; [apply touch_elem_of|].
  split; [apply touch_keeps|done].
Qed.

Lemma addSkippedSong_membership_witness :
  RecentlySkippedTracker.isRecentlySkipped
    (RecentlySkippedTracker.addSkippedSong [1; 2]%positive 3%positive) 2%positive = true.
Proof.
  assert (length [1; 2]%positive < RecentlySkippedTracker.MAX_SKIPPED)%nat as Hlen
    by (vm_compute; lia).
  assert (RecentlySkippedTracker.isRecentlySkipped [1; 2]%positive 2%positive = true)
    as Hin by by vm_compute.
  exact (proj1 (proj2 (proj2 (addSkippedSong_membership [1; 2]%positive
                                3%positive 2%positive))) Hlen Hin).
Defined.

(** ** Playing: the player and the auto replay *)

Section Playing.
Implicit Types (mem : gmap ptr Song) (pl : Playlist.t) (ls songs ph : list ptr).
Implicit Types (playCounts : gmap string Z) (p : PlaylistPlayer.t) (song : ptr).

Lemma plays_of_cons mem song s songs t :
  mem !! song = Some s →
  plays_of mem (song :: songs) t
  = (if decide (title s = t) then 1 else 0) + plays_of mem songs t.
Proof.
  intros Hs. unfold plays_of. case_decide as Ht.
  - rewrite filter_cons_True by (rewrite Hs; simpl; congruence). simpl length. lia.
  - rewrite filter_cons_False by (rewrite Hs; simpl; congruence). lia.
Qed.

Lemma plays_of_nonneg mem songs t : 0 ≤ plays_of mem songs t.
Proof. unfold plays_of. lia. Qed.

Lemma plays_of_snoc mem song s songs t :
  mem !! song = Some s →
  plays_of mem (songs ++ [song]) t
  = plays_of mem songs t + (if decide (title s = t) then 1 else 0).
Proof.
  intros Hs. unfold plays_of. rewrite filter_app, length_app. case_decide as Ht.
  - rewrite (filter_cons_True _ song) by (rewrite Hs; simpl; congruence).
    rewrite filter_nil. simpl length. lia.
  - rewrite (filter_cons_False _ song) by (rewrite Hs; simpl; congruence).
    rewrite filter_nil. simpl length. lia.
Qed.

Lemma plays_of_le_length mem songs t : plays_of mem songs t ≤ Z.of_nat (length songs).
Proof. unfold plays_of. pose proof (length_filter (λ a, title <$> mem !! a = Some t) songs). lia. Qed.

(** One more play in front of a series of plays. *)
Lemma int_counts_after_cons mem song s songs playCounts playCounts' :
  mem !! song = Some s →
  (∀ t, playCounts' !! t
        = int_counts_after mem songs
            (<[title s := wrap (default 0 (playCounts !! title s) + 1)]> playCounts) t) →
  ∀ t, playCounts' !! t = int_counts_after mem (song :: songs) playCounts t.
Proof.
  intros Hs Hrest t. rewrite Hrest. unfold int_counts_after.
  rewrite (plays_of_cons _ _ _ _ _ Hs). pose proof (plays_of_nonneg mem songs t).
  destruct (decide (title s = t)) as [<-|Hne].
  - rewrite lookup_insert_eq. simpl. rewrite (decide_True (P := 0 < 1 + _)) by lia.
    case_decide.
    + rewrite wrap_add. do 2 f_equal. lia.
    + do 2 f_equal. lia.
  - rewrite lookup_insert_ne by done. simpl (0 + _). done.
Qed.

(** One more play behind a series of plays. *)
Lemma int_counts_after_snoc mem song s songs playCounts playCounts' :
  mem !! song = Some s →
  (∀ t, playCounts' !! t = int_counts_after mem songs playCounts t) →
  ∀ t, <[title s := wrap (default 0 (playCounts' !! title s) + 1)]> playCounts' !! t
       = int_counts_after mem (songs ++ [song]) playCounts t.
Proof.
  intros Hs Hbefore t. unfold int_counts_after.
  rewrite (plays_of_snoc _ _ _ _ _ Hs). pose proof (plays_of_nonneg mem songs t).
  destruct (decide (title s = t)) as [<-|Hne].
  - rewrite lookup_insert_eq, Hbefore. unfold int_counts_after.
    rewrite (decide_True (P := 0 < _ + 1)) by lia.
    case_decide.
    + simpl. rewrite wrap_add. do 2 f_equal. lia.
    + do 2 f_equal. lia.
  - rewrite lookup_insert_ne, Hbefore by done. unfold int_counts_after.
    by rewrite Z.add_0_r.
Qed.

(** Inside the range of [int] the play counts are the sums. *)
Lemma int_counts_after_in_range mem songs playCounts t :
  INT_MIN ≤ default 0 (playCounts !! t) →
  default 0 (playCounts !! t) + plays_of mem songs t ≤ INT_MAX →
  int_counts_after mem songs playCounts t = counts_after mem songs playCounts t.
Proof.
  intros Hlo Hhi. unfold int_counts_after, counts_after.
  pose proof (plays_of_nonneg mem songs t).
  case_decide; [|done]. rewrite wrap_in_range by lia. done.
Qed.

(** [playNext] inside the playlist. *)
Lemma playNext_inside p pl ls ph playCounts song :
  Playlist_dll pl ls →
  0 ≤ PlaylistPlayer.currentIndex p + 1 →
  ls !! Z.to_nat (PlaylistPlayer.currentIndex p + 1) = Some song →
  ∃ s, Playlist.heap pl !! song = Some s ∧
       PlaylistPlayer.playNext p pl ph playCounts
       = Some (PlaylistPlayer.out true
                 (PlaylistPlayer.Next (PlaylistPlayer.currentIndex p + 1 + 1)
                    (Z.of_nat (length ls)) song)
                 (PlaylistPlayer.mk (PlaylistPlayer.currentIndex p + 1) true (Some song))
                 (song :: ph)
                 (<[title s := wrap (default 0 (playCounts !! title s) + 1)]> playCounts)).
Proof.
  intros Hdll Hidx Hsong. pose proof (lookup_lt_Some _ _ _ Hsong) as Hlt.
  destruct (Playlist_dll_live pl ls song Hdll) as [s Hs];
    [by eapply list_elem_of_lookup_2|].
  exists s. split; [done|]. unfold PlaylistPlayer.playNext.
  rewrite (get_all_songs_dll _ _ Hdll). simpl.
  rewrite (decide_False (P := ls = [])) by (intros ->; done).
  rewrite decide_False by lia. rewrite decide_True by lia.
  rewrite Hsong. simpl. by rewrite Hs.
Qed.

(** [playNext] at the end of a playlist that is not empty. *)
Lemma playNext_end p pl ls ph playCounts :
  Playlist_dll pl ls → ls ≠ [] →
  Z.of_nat (length ls) ≤ PlaylistPlayer.currentIndex p + 1 →
  PlaylistPlayer.playNext p pl ph playCounts
  = Some (PlaylistPlayer.out false PlaylistPlayer.ReachedEndOfPlaylist p ph playCounts).
Proof.
  intros Hdll Hne Hge. unfold PlaylistPlayer.playNext.
  rewrite (get_all_songs_dll _ _ Hdll). simpl.
  rewrite (decide_False (P := ls = [])) by done. by rewrite decide_True by lia.
Qed.

(** [playPrevious] with a positive index that is not past the playlist. *)
Lemma playPrevious_inside p pl ls ph playCounts song :
  Playlist_dll pl ls →
  0 < PlaylistPlayer.currentIndex p →
  ls !! Z.to_nat (PlaylistPlayer.currentIndex p - 1) = Some song →
  ∃ s, Playlist.heap pl !! song = Some s ∧
       PlaylistPlayer.playPrevious p pl ph playCounts
       = Some (PlaylistPlayer.previous_out true
                 (PlaylistPlayer.Previous (PlaylistPlayer.currentIndex p - 1 + 1)
                    (Z.of_nat (length ls)) song)
                 (PlaylistPlayer.mk (PlaylistPlayer.currentIndex p - 1) true (Some song))
                 (song :: ph)
                 (<[title s := wrap (default 0 (playCounts !! title s) + 1)]> playCounts)).
Proof.
  intros Hdll Hidx Hsong.
  destruct (Playlist_dll_live pl ls song Hdll) as [s Hs];
    [by eapply list_elem_of_lookup_2|].
  exists s. split; [done|]. unfold PlaylistPlayer.playPrevious.
  rewrite (get_all_songs_dll _ _ Hdll). simpl.
  rewrite (decide_False (P := ls = [])) by (intros ->; done).
  rewrite decide_False by lia. rewrite Hsong. simpl. by rewrite Hs.
Qed.

(** The loop of [playEntirePlaylist] and of [startAutoReplay]. *)
Lemma play_all_result mem songs : ∀ i p ph playCounts,
  (∀ a, a ∈ songs → is_Some (mem !! a)) →
  ∃ playCounts',
    PlaylistPlayer.play_all mem songs i p ph playCounts
    = Some (match last songs with
            | None => p
            | Some a => PlaylistPlayer.mk (i + Z.of_nat (length songs) - 1) true (Some a)
            end, reverse songs ++ ph, playCounts') ∧
    ∀ t, playCounts' !! t = int_counts_after mem songs playCounts t.
Proof.
  induction songs as [|song rest IH]; intros i p ph playCounts Hlive.
  - exists playCounts. done.
  - destruct (Hlive song) as [s Hs]; [by left|].
    destruct (IH (i + 1) (PlaylistPlayer.mk i true (Some song))
                (PlaybackHistory.add ph song)
                (<[title s := wrap (default 0 (playCounts !! title s) + 1)]> playCounts))
      as (playCounts' & Hplay & Hcounts).
    { intros a Ha. apply Hlive. by right. }
    exists playCounts'. split; [|by eapply int_counts_after_cons].
    cbn [PlaylistPlayer.play_all]. rewrite Hs. simpl. rewrite Hplay.
    unfold PlaybackHistory.add. rewrite reverse_cons, <- app_assoc, last_cons.
    simpl. destruct (last rest) as [y|] eqn:Hlast.
    + do 3 f_equal. f_equal. lia.
    + apply last_None in Hlast as ->. do 3 f_equal. f_equal. simpl. lia.
Qed.

Lemma replay_loop_result mem songs : ∀ ph playCounts,
  (∀ a, a ∈ songs → is_Some (mem !! a)) →
  ∃ playCounts',
    AutoReplaySystem.replay_loop mem songs ph playCounts
    = Some (reverse songs ++ ph, playCounts') ∧
    ∀ t, playCounts' !! t = int_counts_after mem songs playCounts t.
Proof.
  induction songs as [|song rest IH]; intros ph playCounts Hlive.
  - exists playCounts. done.
  - destruct (Hlive song) as [s Hs]; [by left|].
    destruct (IH (PlaybackHistory.add ph song)
                (<[title s := wrap (default 0 (playCounts !! title s) + 1)]> playCounts))
      as (playCounts' & Hplay & Hcounts).
    { intros a Ha. apply Hlive. by right. }
    exists playCounts'. split; [|by eapply int_counts_after_cons].
    cbn [AutoReplaySystem.replay_loop]. rewrite Hs. simpl. rewrite Hplay.
    unfold PlaybackHistory.add. by rewrite reverse_cons, <- app_assoc.
Qed.

End Playing.

(** X12.  [playPrevious] on a playlist that is not empty: with an index of
    0 or less it reports that the player is at the beginning, returns
    false and changes nothing; with a positive index that is not past the
    playlist it moves the index back by one, makes that song the current
    one, marks the player as playing, pushes the song on the history,
    stores a new play count for its title and returns true; the new play
    count is the old one plus one whenever the old one is an [int] below
    [INT_MAX].  There is no test against the length: with an index beyond
    it (the playlist has shrunk since) [songs[currentIndex]] is read past
    the end of the vector. *)
Theorem playPrevious_steps_back (p : PlaylistPlayer.t) (pl : Playlist.t)
    (ls ph : list ptr) (playCounts : gmap string Z) :
  Playlist_dll pl ls → ls ≠ [] →
  let index := PlaylistPlayer.currentIndex p in
  (index ≤ 0 →
     PlaylistPlayer.playPrevious p pl ph playCounts
     = Some (PlaylistPlayer.previous_out false PlaylistPlayer.AlreadyAtBeginning
               p ph playCounts)) ∧
  (0 < index ≤ Z.of_nat (length ls) →
     ∃ song s count,
       ls !! Z.to_nat (index - 1) = Some song ∧
       Playlist.heap pl !! song = Some s ∧
       PlaylistPlayer.playPrevious p pl ph playCounts
       = Some (PlaylistPlayer.previous_out true
                 (PlaylistPlayer.Previous index (Z.of_nat (length ls)) song)
                 (PlaylistPlayer.mk (index - 1) true (Some song))
                 (song :: ph)
                 (<[title s := count]> playCounts)) ∧
       (INT_MIN ≤ default 0 (playCounts !! title s) < INT_MAX →
          count = default 0 (playCounts !! title s) + 1)) ∧
  (Z.of_nat (length ls) < index →
     PlaylistPlayer.playPrevious p pl ph playCounts = None).
Proof.
  intros Hdll Hne index. split; [|split].
  - intros Hidx. unfold PlaylistPlayer.playPrevious.
    rewrite (get_all_songs_dll _ _ Hdll). simpl.
    rewrite (decide_False (P := ls = [])) by done. by rewrite decide_True.
  - intros Hidx.
    destruct (lookup_lt_is_Some_2 ls (Z.to_nat (index - 1))) as [song Hsong]; [lia|].
    destruct (playPrevious_inside p pl ls ph playCounts song Hdll) as (s & Hs & Hprev);
      [lia|done|].
    exists song, s, (wrap (default 0 (playCounts !! title s) + 1)).
    split; [done|]. split; [done|]. split.
    + rewrite Hprev. subst index.
      by replace (PlaylistPlayer.currentIndex p - 1 + 1)
        with (PlaylistPlayer.currentIndex p) by lia.
    + intros Hcount. apply wrap_in_range. lia.
  - intros Hidx. unfold PlaylistPlayer.playPrevious.
    rewrite (get_all_songs_dll _ _ Hdll). simpl.
    rewrite (decide_False (P := ls = [])) by done. subst index.
    rewrite decide_False by lia.
    rewrite (proj2 (lookup_ge_None ls (Z.to_nat (PlaylistPlayer.currentIndex p - 1))))
      by lia.
    done.
Qed.

Lemma playPrevious_steps_back_witness :
  let p := PlaylistPlayer.mk 2 true (Some 3%positive) in
  let playCounts : gmap string Z := {[ "B" := 4 ]} in
  Playlist_dll catalog_ABC [1; 2; 3]%positive ∧ [1; 2; 3]%positive ≠ [] ∧
  PlaylistPlayer.playPrevious PlaylistPlayer.init catalog_ABC [3%positive] playCounts
  = Some (PlaylistPlayer.previous_out false PlaylistPlayer.AlreadyAtBeginning
            PlaylistPlayer.init [3%positive] playCounts) ∧
  PlaylistPlayer.playPrevious p catalog_ABC [3%positive] playCounts
  = Some (PlaylistPlayer.previous_out true (PlaylistPlayer.Previous 2 3 2%positive)
            (PlaylistPlayer.mk 1 true (Some 2%positive)) [2; 3]%positive
            (<["B" := 5]> playCounts)) ∧
  PlaylistPlayer.playPrevious (PlaylistPlayer.mk 4 true (Some 3%positive)) catalog_ABC
    [3%positive] playCounts = None.
Proof.
  intros p playCounts.
  assert ([1; 2; 3]%positive ≠ []) as Hne by done.
  split; [exact catalog_ABC_dll|]. split; [exact Hne|]. split; [|split].
  - apply (playPrevious_steps_back PlaylistPlayer.init catalog_ABC [1; 2; 3]%positive
             [3%positive] playCounts catalog_ABC_dll Hne).
    by vm_compute.
  - destruct (proj1 (proj2 (playPrevious_steps_back p catalog_ABC [1; 2; 3]%positive
                              [3%positive] playCounts catalog_ABC_dll Hne)))
      as (song & s & count & Hsong & Hs & Hprev & Hcount); [by vm_compute|].
    injection Hsong as <-. vm_compute in Hs. injection Hs as <-.
    rewrite Hprev, Hcount; [reflexivity|].
    vm_compute. intuition discriminate.
  - apply (playPrevious_steps_back (PlaylistPlayer.mk 4 true (Some 3%positive))
             catalog_ABC [1; 2; 3]%positive [3%positive] playCounts catalog_ABC_dll Hne).
    by vm_compute.
Defined.

(** X13.  Pressing "Play Next Song" [k] times on a fresh player walks the
    playlist from its first song: for [k] up to the length of the playlist
    every press succeeds, the player ends on the song at position [k - 1]
    and is playing, the history has received the first [k] songs in playing
    order, and the play count of each title whose count is an [int] and
    stays within [INT_MAX] has grown by the number of those songs that
    carry it.  After as many presses as the playlist has songs, one more
    press reports the end of the playlist and changes nothing. *)
Theorem next_presses_walk (pl : Playlist.t) (ls ph : list ptr)
    (playCounts : gmap string Z) (k : nat) :
  Playlist_dll pl ls → (k ≤ length ls)%nat →
  ∃ p' playCounts',
    after_next k PlaylistPlayer.init pl ph playCounts
    = Some (p', reverse (take k ls) ++ ph, playCounts') ∧
    p' = match k with
         | O => PlaylistPlayer.init
         | S j => PlaylistPlayer.mk (Z.of_nat j) true (ls !! j)
         end ∧
    (∀ t, INT_MIN ≤ default 0 (playCounts !! t) →
          default 0 (playCounts !! t) + plays_of (Playlist.heap pl) (take k ls) t ≤ INT_MAX →
          playCounts' !! t = counts_after (Playlist.heap pl) (take k ls) playCounts t) ∧
    (k = length ls → ls ≠ [] →
       PlaylistPlayer.playNext p' pl (reverse (take k ls) ++ ph) playCounts'
       = Some (PlaylistPlayer.out false PlaylistPlayer.ReachedEndOfPlaylist
                 p' (reverse (take k ls) ++ ph) playCounts')).
Proof.
  intros Hdll Hk.
  assert (∃ p' playCounts',
    after_next k PlaylistPlayer.init pl ph playCounts
    = Some (p', reverse (take k ls) ++ ph, playCounts') ∧
    p' = match k with
         | O => PlaylistPlayer.init
         | S j => PlaylistPlayer.mk (Z.of_nat j) true (ls !! j)
         end ∧
    (∀ t, playCounts' !! t
          = int_counts_after (Playlist.heap pl) (take k ls) playCounts t))
    as (p' & playCounts' & Hrun & Hp' & Hcounts).
  { induction k as [|k IH].
    - exists PlaylistPlayer.init, playCounts. done.
    - destruct IH as (p1 & playCounts1 & Hrun & Hp1 & Hcounts); [lia|].
      assert (PlaylistPlayer.currentIndex p1 = Z.of_nat k - 1) as Hidx.
      { rewrite Hp1. destruct k; simpl; lia. }
      destruct (lookup_lt_is_Some_2 ls k) as [song Hsong]; [lia|].
      destruct (playNext_inside p1 pl ls (reverse (take k ls) ++ ph) playCounts1 song Hdll)
        as (s & Hs & Hnext).
      { lia. } { rewrite Hidx. by replace (Z.to_nat (Z.of_nat k - 1 + 1)) with k by lia. }
      eexists _, _. split; [|split; [reflexivity|]].
      + cbn [after_next]. rewrite Hrun. simpl. rewrite Hnext. simpl.
        rewrite Hidx, Hsong. replace (Z.of_nat k - 1 + 1) with (Z.of_nat k) by lia.
        by rewrite (take_S_r _ _ _ Hsong), reverse_snoc.
      + rewrite (take_S_r _ _ _ Hsong). by apply int_counts_after_snoc. }
  exists p', playCounts'. split; [done|]. split; [done|]. split.
  - intros t Hlo Hhi. rewrite Hcounts. by apply int_counts_after_in_range.
  - intros Hlen Hne. apply (playNext_end _ pl ls); [done|done|].
    rewrite Hp'. destruct k as [|j]; [destruct ls; [done|simpl in Hlen; lia]|].
    simpl. lia.
Qed.

Lemma next_presses_walk_witness :
  Playlist_dll catalog_ABC [1; 2; 3]%positive ∧ (3 ≤ length [1; 2; 3]%positive)%nat ∧
  ∃ p' playCounts',
    after_next 3 PlaylistPlayer.init catalog_ABC [] {[ "B" := 4 ]}
    = Some (p', reverse (take 3 [1; 2; 3]%positive) ++ [], playCounts') ∧
    p' = PlaylistPlayer.mk 2 true (Some 3%positive) ∧
    playCounts' !! "B" = Some 5 ∧ playCounts' !! "A" = Some 1.
Proof.
  assert (3 ≤ length [1; 2; 3]%positive)%nat as Hk by (simpl; lia).
  split; [exact catalog_ABC_dll|]. split; [exact Hk|].
  destruct (next_presses_walk catalog_ABC [1; 2; 3]%positive [] {[ "B" := 4 ]} 3
              catalog_ABC_dll Hk) as (p' & playCounts' & H1 & H2 & H3 & _).
  exists p', playCounts'. split; [exact H1|]. split; [exact H2|]. split.
  - rewrite (H3 "B"); [by vm_compute| |]; vm_compute; discriminate.
  - rewrite (H3 "A"); [by vm_compute| |]; vm_compute; discriminate.
Defined.

(** X14.  "Play Next Song" followed by "Play Previous Song" returns the
    player to the position it had, and both presses are plays: from an
    index [i >= 0] with a song behind it, the player ends at index [i] on
    the song at position [i], and the history has received the song at
    [i + 1] and then the song at [i]. *)
Theorem playNext_then_playPrevious (p : PlaylistPlayer.t) (pl : Playlist.t)
    (ls ph : list ptr) (playCounts : gmap string Z) :
  Playlist_dll pl ls →
  0 ≤ PlaylistPlayer.currentIndex p →
  PlaylistPlayer.currentIndex p + 1 < Z.of_nat (length ls) →
  ∃ o1 o2 here there,
    ls !! Z.to_nat (PlaylistPlayer.currentIndex p) = Some here ∧
    ls !! Z.to_nat (PlaylistPlayer.currentIndex p + 1) = Some there ∧
    PlaylistPlayer.playNext p pl ph playCounts = Some o1 ∧
    PlaylistPlayer.returned o1 = true ∧
    PlaylistPlayer.playPrevious (PlaylistPlayer.player o1) pl
      (PlaylistPlayer.history o1) (PlaylistPlayer.playCounts o1) = Some o2 ∧
    PlaylistPlayer.previous_returned o2 = true ∧
    PlaylistPlayer.previous_player o2
    = PlaylistPlayer.mk (PlaylistPlayer.currentIndex p) true (Some here) ∧
    PlaylistPlayer.previous_history o2 = here :: there :: ph.
Proof.
  intros Hdll Hidx Hlt.
  destruct (lookup_lt_is_Some_2 ls (Z.to_nat (PlaylistPlayer.currentIndex p)))
    as [here Hhere]; [lia|].
  destruct (lookup_lt_is_Some_2 ls (Z.to_nat (PlaylistPlayer.currentIndex p + 1)))
    as [there Hthere]; [lia|].
  destruct (playNext_inside p pl ls ph playCounts there Hdll) as (s & Hs & Hnext);
    [lia|done|].
  destruct (playPrevious_inside
              (PlaylistPlayer.mk (PlaylistPlayer.currentIndex p + 1) true (Some there))
              pl ls (there :: ph)
              (<[title s := wrap (default 0 (playCounts !! title s) + 1)]> playCounts)
              here Hdll) as (s' & Hs' & Hprev).
  { simpl. lia. }
  { simpl. by replace (PlaylistPlayer.currentIndex p + 1 - 1)
      with (PlaylistPlayer.currentIndex p) by lia. }
  eexists _, _, here, there. split; [done|]. split; [done|].
  split; [exact Hnext|]. split; [done|]. simpl.
  split; [exact Hprev|]. simpl. split; [done|]. split; [|done].
  f_equal. lia.
Qed.

Lemma playNext_then_playPrevious_witness :
  Playlist_dll catalog_ABC [1; 2; 3]%positive ∧
  ∃ o1 o2,
    PlaylistPlayer.playNext (PlaylistPlayer.mk 0 true (Some 1%positive)) catalog_ABC [] ∅
    = Some o1 ∧
    PlaylistPlayer.playPrevious (PlaylistPlayer.player o1) catalog_ABC
      (PlaylistPlayer.history o1) (PlaylistPlayer.playCounts o1) = Some o2 ∧
    PlaylistPlayer.previous_history o2 = [1; 2]%positive.
Proof.
  split; [exact catalog_ABC_dll|].
  destruct (playNext_then_playPrevious (PlaylistPlayer.mk 0 true (Some 1%positive))
              catalog_ABC [1; 2; 3]%positive [] ∅ catalog_ABC_dll)
    as (o1 & o2 & here & there & Hhere & Hthere & H1 & _ & H2 & _ & _ & H3).
  { simpl. lia. } { simpl. lia. }
  exists o1, o2. split; [exact H1|]. split; [exact H2|].
  rewrite H3. simpl in Hhere, Hthere. congruence.
Defined.

(** X15.  [playEntirePlaylist] on an empty playlist changes nothing.
    Otherwise it plays every song once, in playlist order: the history
    receives all songs, the last song of the playlist on top, the play
    count of each title whose count is an [int] and stays within [INT_MAX]
    grows by the number of songs that carry it, and the player is left on
    the last song with the playing flag cleared. *)
Theorem playEntirePlaylist_plays_all (p : PlaylistPlayer.t) (pl : Playlist.t)
    (ls ph : list ptr) (playCounts : gmap string Z) :
  Playlist_dll pl ls →
  (ls = [] → PlaylistPlayer.playEntirePlaylist p pl ph playCounts = Some (p, ph, playCounts)) ∧
  (ls ≠ [] →
     ∃ playCounts',
       PlaylistPlayer.playEntirePlaylist p pl ph playCounts
       = Some (PlaylistPlayer.mk (Z.of_nat (length ls) - 1) false (last ls),
               reverse ls ++ ph, playCounts') ∧
       ∀ t, INT_MIN ≤ default 0 (playCounts !! t) →
            default 0 (playCounts !! t) + plays_of (Playlist.heap pl) ls t ≤ INT_MAX →
            playCounts' !! t = counts_after (Playlist.heap pl) ls playCounts t).
Proof.
  intros Hdll. unfold PlaylistPlayer.playEntirePlaylist.
  rewrite (get_all_songs_dll _ _ Hdll). simpl. split.
  - intros ->. done.
  - intros Hne. rewrite decide_False by done.
    destruct (play_all_result (Playlist.heap pl) ls 0 p ph playCounts)
      as (playCounts' & Hplay & Hcounts).
    { intros a. by eapply Playlist_dll_live. }
    exists playCounts'. split.
    + rewrite Hplay. simpl.
      destruct (last ls) as [y|] eqn:Hlast; [done|].
      by apply last_None in Hlast.
    + intros t Hlo Hhi. rewrite Hcounts. by apply int_counts_after_in_range.
Qed.

Lemma playEntirePlaylist_plays_all_witness :
  Playlist_dll catalog_ABC [1; 2; 3]%positive ∧ [1; 2; 3]%positive ≠ [] ∧
  ∃ playCounts',
    PlaylistPlayer.playEntirePlaylist PlaylistPlayer.init catalog_ABC [] {[ "B" := 4 ]}
    = Some (PlaylistPlayer.mk 2 false (Some 3%positive), [3; 2; 1]%positive, playCounts') ∧
    playCounts' !! "B" = Some 5 ∧ playCounts' !! "C" = Some 1.
Proof.
  assert ([1; 2; 3]%positive ≠ []) as Hne by done.
  split; [exact catalog_ABC_dll|]. split; [exact Hne|].
  destruct (proj2 (playEntirePlaylist_plays_all PlaylistPlayer.init catalog_ABC
                     [1; 2; 3]%positive [] {[ "B" := 4 ]} catalog_ABC_dll) Hne)
    as (playCounts' & H & Hcounts).
  exists playCounts'. split; [exact H|]. split.
  - rewrite (Hcounts "B"); [by vm_compute| |]; vm_compute; discriminate.
  - rewrite (Hcounts "C"); [by vm_compute| |]; vm_compute; discriminate.
Defined.

Section Replay.
Import AutoReplaySystem.
Implicit Types (mem : gmap ptr Song) (playCounts : gmap string Z).
Implicit Types (skipTracker allSongs : list ptr) (song : ptr).

(** What a song of the selection is. *)
Lemma top_elem_of mem allSongs playCounts skipTracker song :
  song ∈ getTop3CalmingSongs mem allSongs playCounts skipTracker →
  song ∈ allSongs ∧ (song ∉ skipTracker) ∧
  ∃ s, mem !! song = Some s ∧ isCalming (genre s) = true.
Proof.
  intros [i Hi]%list_elem_of_lookup.
  apply top_lookup in Hi as [_ Hi]. apply list_elem_of_lookup_2 in Hi.
  apply ranked_candidate in Hi as (song' & Hin & Hc).
  apply candidate_Some in Hc as (Heq & Hskip & Hs).
  assert (song = song') as -> by congruence. done.
Qed.

Lemma counts_after_ge mem songs playCounts playCounts' t :
  playCounts' !! t = counts_after mem songs playCounts t →
  default 0 (playCounts !! t) ≤ default 0 (playCounts' !! t).
Proof.
  intros ->. unfold counts_after. case_decide; simpl; lia.
Qed.

Lemma top_length mem allSongs playCounts skipTracker :
  (length (getTop3CalmingSongs mem allSongs playCounts skipTracker) ≤ 3)%nat.
Proof. rewrite getTop3CalmingSongs_take, length_fmap, length_take. lia. Qed.

Lemma omap_snd_filter {A} (f : ptr → option (A * ptr)) (l : list ptr) :
  (∀ a e, f a = Some e → e.2 = a) →
  (omap f l).*2 = filter (λ a, is_Some (f a)) l.
Proof.
  intros Hf. induction l as [|a l IH]; [done|].
  assert (omap f (a :: l)
          = match f a with Some e => e :: omap f l | None => omap f l end) as -> by done.
  destruct (f a) as [e|] eqn:He.
  - rewrite filter_cons_True by (rewrite He; eauto).
    by rewrite fmap_cons, IH, (Hf _ _ He).
  - rewrite filter_cons_False; [done|]. rewrite He. by intros [? ?].
Qed.

End Replay.

(** X16.  [startAutoReplay] records one play for each song it is given, in
    the order given: the history receives the songs, the last one on top,
    and the play count of each title whose count is an [int] and stays
    within [INT_MAX] grows by the number of given songs that carry it;
    given no songs it changes nothing. *)
Theorem startAutoReplay_plays_each (mem : gmap ptr Song) (calmingSongs ph : list ptr)
    (playCounts : gmap string Z) :
  (∀ a, a ∈ calmingSongs → is_Some (mem !! a)) →
  ∃ playCounts',
    AutoReplaySystem.startAutoReplay mem calmingSongs ph playCounts
    = Some (reverse calmingSongs ++ ph, playCounts') ∧
    (∀ t, INT_MIN ≤ default 0 (playCounts !! t) →
          default 0 (playCounts !! t) + plays_of mem calmingSongs t ≤ INT_MAX →
          playCounts' !! t = counts_after mem calmingSongs playCounts t) ∧
    (calmingSongs = [] → playCounts' = playCounts).
Proof.
  intros Hlive. unfold AutoReplaySystem.startAutoReplay. case_decide as Hempty.
  - subst. exists playCounts. done.
  - destruct (replay_loop_result mem calmingSongs ph playCounts Hlive)
      as (playCounts' & Hloop & Hcounts).
    exists playCounts'. split; [done|]. split; [|done].
    intros t Hlo Hhi. rewrite Hcounts. by apply int_counts_after_in_range.
Qed.

Lemma startAutoReplay_plays_each_witness :
  (∀ a, a ∈ [2; 1]%positive → is_Some (Playlist.heap catalog_ABC !! a)) ∧
  ∃ playCounts',
    AutoReplaySystem.startAutoReplay (Playlist.heap catalog_ABC) [2; 1]%positive []
      {[ "B" := 4 ]}
    = Some (reverse [2; 1]%positive ++ [], playCounts') ∧
    playCounts' !! "B" = Some 5 ∧ playCounts' !! "A" = Some 1 ∧ playCounts' !! "C" = None.
Proof.
  assert (∀ a, a ∈ [2; 1]%positive → is_Some (Playlist.heap catalog_ABC !! a)) as Hlive.
  { intros a Ha. apply (Playlist_dll_live _ _ _ catalog_ABC_dll).
    apply elem_of_cons in Ha as [->|Ha]; [by right; left|].
    apply list_elem_of_singleton in Ha as ->. by left. }
  split; [exact Hlive|].
  destruct (startAutoReplay_plays_each (Playlist.heap catalog_ABC) [2; 1]%positive []
              {[ "B" := 4 ]} Hlive) as (playCounts' & H & Hcounts & _).
  exists playCounts'. split; [exact H|]. split; [|split].
  - rewrite (Hcounts "B"); [by vm_compute| |]; vm_compute; discriminate.
  - rewrite (Hcounts "A"); [by vm_compute| |]; vm_compute; discriminate.
  - rewrite (Hcounts "C"); [by vm_compute| |]; vm_compute; discriminate.
Defined.

(** X17.  The auto replay that follows the end of the playlist: on a
    well-formed playlist, replaying the selection of
    [getTop3CalmingSongs] is defined, adds at most three plays to the
    history, plays no song of the skip window, and lowers no play count
    that is an [int] with room for three more plays. *)
Theorem auto_replay_of_selection (pl : Playlist.t) (ls ph skipTracker : list ptr)
    (playCounts : gmap string Z) :
  Playlist_dll pl ls →
  let top := AutoReplaySystem.getTop3CalmingSongs (Playlist.heap pl) ls playCounts
               skipTracker in
  ∃ ph' playCounts',
    AutoReplaySystem.startAutoReplay (Playlist.heap pl) top ph playCounts
    = Some (ph', playCounts') ∧
    ph' = reverse top ++ ph ∧
    (length ph' ≤ length ph + 3)%nat ∧
    (∀ song, song ∈ top → song ∈ ls ∧ song ∉ skipTracker) ∧
    (∀ t, INT_MIN ≤ default 0 (playCounts !! t) ≤ INT_MAX - 3 →
          default 0 (playCounts !! t) ≤ default 0 (playCounts' !! t)).
Proof.
  intros Hdll top.
  destruct (replay_loop_result (Playlist.heap pl) top ph playCounts)
    as (playCounts' & Hloop & Hcounts).
  { intros a (_ & _ & s & Hs & _)%top_elem_of. eauto. }
  assert (AutoReplaySystem.startAutoReplay (Playlist.heap pl) top ph playCounts
          = Some (reverse top ++ ph, playCounts')) as Hstart.
  { unfold AutoReplaySystem.startAutoReplay. case_decide as Hempty; [|done].
    rewrite Hempty in *. simpl in Hloop. by injection Hloop as <-. }
  pose proof (top_length (Playlist.heap pl) ls playCounts skipTracker) as Htop.
  fold top in Htop.
  exists (reverse top ++ ph), playCounts'. split; [done|]. split; [done|].
  split; [|split].
  - rewrite length_app, length_reverse. lia.
  - intros song (Hin & Hskip & _)%top_elem_of. done.
  - intros t Hrange. pose proof (plays_of_le_length (Playlist.heap pl) top t).
    eapply counts_after_ge. rewrite Hcounts. apply int_counts_after_in_range; lia.
Qed.

Lemma auto_replay_of_selection_witness :
  Playlist_dll catalog_ABC [1; 2; 3]%positive ∧
  ∃ ph' playCounts',
    AutoReplaySystem.startAutoReplay (Playlist.heap catalog_ABC)
      (AutoReplaySystem.getTop3CalmingSongs (Playlist.heap catalog_ABC)
         [1; 2; 3]%positive {[ "A" := 4 ]} [2%positive]) [] {[ "A" := 4 ]}
    = Some (ph', playCounts') ∧
    (length ph' ≤ length ([] : list ptr) + 3)%nat ∧
    4 ≤ default 0 (playCounts' !! "A").
Proof.
  split; [exact catalog_ABC_dll|].
  destruct (auto_replay_of_selection catalog_ABC [1; 2; 3]%positive [] [2%positive]
              {[ "A" := 4 ]} catalog_ABC_dll)
    as (ph' & playCounts' & H1 & _ & H2 & _ & H3).
  exists ph', playCounts'. split; [exact H1|]. split; [exact H2|].
  apply (H3 "A"). vm_compute. intuition discriminate.
Defined.

(** X18.  The selection does not depend on how [std::sort] arranges its
    range: [std::greater] on (play count, address) pairs is a total order,
    so for every arrangement of the candidates that is sorted by it the
    first three entries are the songs that [getTop3CalmingSongs]
    returns. *)
Theorem getTop3CalmingSongs_any_sort (mem : gmap ptr Song) (allSongs : list ptr)
    (playCounts : gmap string Z) (skipTracker : list ptr) (sorted : list (Z * ptr)) :
  sorted ≡ₚ omap (AutoReplaySystem.candidate mem playCounts skipTracker) allSongs →
  Sorted AutoReplaySystem.not_after sorted →
  AutoReplaySystem.getTop3CalmingSongs mem allSongs playCounts skipTracker
  = (take 3 sorted).*2.
Proof.
  intros Hperm Hsorted. rewrite getTop3CalmingSongs_take.
  by rewrite <- (sorted_arrangement_unique _ _ Hperm Hsorted).
Qed.

Lemma getTop3CalmingSongs_any_sort_witness :
  let mem := Playlist.heap catalog_ABC in
  AutoReplaySystem.getTop3CalmingSongs mem [1; 2; 3]%positive ∅ []
  = (take 3 [(0, 2%positive); (0, 1%positive)]).*2.
Proof.
  intros mem.
  apply (getTop3CalmingSongs_any_sort mem [1; 2; 3]%positive ∅ []
           [(0, 2%positive); (0, 1%positive)]).
  - assert (omap (AutoReplaySystem.candidate mem ∅ []) [1; 2; 3]%positive
            = [(0, 1%positive); (0, 2%positive)]) as -> by by vm_compute.
    apply perm_swap.
  - repeat constructor. apply not_after_iff. simpl. lia.
Defined.

(** X19.  The most played candidate comes first: when a song passes the
    filter the selection is not empty, and no song that passes the filter
    has more plays on record than the first song returned. *)
Theorem getTop3CalmingSongs_most_played_first (mem : gmap ptr Song)
    (allSongs : list ptr) (playCounts : gmap string Z) (skipTracker : list ptr)
    (c : ptr) :
  c ∈ allSongs →
  is_Some (AutoReplaySystem.candidate mem playCounts skipTracker c) →
  ∃ first,
    AutoReplaySystem.getTop3CalmingSongs mem allSongs playCounts skipTracker !! 0%nat
    = Some first ∧
    play_count mem playCounts c ≤ play_count mem playCounts first.
Proof.
  intros Hc [e He].
  assert (StronglySorted AutoReplaySystem.not_after
            (merge_sort AutoReplaySystem.not_after
               (omap (AutoReplaySystem.candidate mem playCounts skipTracker) allSongs)))
    as Hsorted by (apply StronglySorted_merge_sort; apply _).
  assert (e ∈ merge_sort AutoReplaySystem.not_after
            (omap (AutoReplaySystem.candidate mem playCounts skipTracker) allSongs))
    as [k Hk]%list_elem_of_lookup by (apply ranked_candidate; eauto).
  apply candidate_Some in He as (-> & _).
  destruct (lookup_lt_is_Some_2
              (merge_sort AutoReplaySystem.not_after
                 (omap (AutoReplaySystem.candidate mem playCounts skipTracker) allSongs))
              0) as [[c0 first] H0].
  { apply lookup_lt_Some in Hk. lia. }
  exists first. split; [by eapply top_lookup_ranked; [lia|]|].
  pose proof (top_lookup_ranked _ _ _ _ _ _ _ (Nat.lt_0_succ 2) H0) as Htop.
  apply top_lookup in Htop as [_ Htop]. rewrite H0 in Htop.
  injection Htop as ->.
  destruct k as [|k].
  - rewrite H0 in Hk. by injection Hk as -> ->.
  - pose proof (StronglySorted_lookup _ _ 0 (S k) _ _ Hsorted (Nat.lt_0_succ k) H0 Hk)
      as Hord.
    apply not_after_iff in Hord. simpl in Hord. lia.
Qed.

Lemma getTop3CalmingSongs_most_played_first_witness :
  let mem := Playlist.heap catalog_ABC in
  1%positive ∈ [1; 2; 3]%positive ∧
  is_Some (AutoReplaySystem.candidate mem {["A" := 4]} [] 1%positive) ∧
  ∃ first,
    AutoReplaySystem.getTop3CalmingSongs mem [1; 2; 3]%positive {["A" := 4]} [] !! 0%nat
    = Some first ∧
    play_count mem {["A" := 4]} 1%positive ≤ play_count mem {["A" := 4]} first.
Proof.
  intros mem.
  assert (1%positive ∈ [1; 2; 3]%positive) as Hin by by left.
  assert (is_Some (AutoReplaySystem.candidate mem {["A" := 4]} [] 1%positive)) as Hc
    by (eexists; by vm_compute).
  split; [exact Hin|]. split; [exact Hc|].
  exact (getTop3CalmingSongs_most_played_first mem [1; 2; 3]%positive {["A" := 4]} []
           1%positive Hin Hc).
Defined.

(** X20.  [getTop3CalmingSongs] returns three songs when three or more pass
    the filter, and otherwise every song that passes it: the number of
    songs returned is the smaller of 3 and the number of songs of
    [allSongs] that pass the filter, and when at most three pass, the
    result is an arrangement of exactly those. *)
Theorem getTop3CalmingSongs_complete (mem : gmap ptr Song) (allSongs : list ptr)
    (playCounts : gmap string Z) (skipTracker : list ptr) :
  let top := AutoReplaySystem.getTop3CalmingSongs mem allSongs playCounts skipTracker in
  let passing :=
    filter (λ a, is_Some (AutoReplaySystem.candidate mem playCounts skipTracker a))
      allSongs in
  length top = Nat.min 3 (length passing) ∧
  ((length passing ≤ 3)%nat → top ≡ₚ passing).
Proof.
  intros top passing.
  assert (passing
          = (omap (AutoReplaySystem.candidate mem playCounts skipTracker) allSongs).*2)
    as Hpassing.
  { symmetry. apply omap_snd_filter. intros a e He.
    apply candidate_Some in He as (-> & _). done. }
  subst top. rewrite getTop3CalmingSongs_take, Hpassing. split.
  - by rewrite !length_fmap, length_take, merge_sort_Permutation.
  - rewrite length_fmap. intros Hfew.
    rewrite take_ge by by rewrite merge_sort_Permutation.
    by rewrite merge_sort_Permutation.
Qed.

Lemma getTop3CalmingSongs_complete_witness :
  let mem := Playlist.heap catalog_ABC in
  AutoReplaySystem.getTop3CalmingSongs mem [1; 2; 3]%positive ∅ []
  ≡ₚ filter (λ a, is_Some (AutoReplaySystem.candidate mem ∅ [] a)) [1; 2; 3]%positive.
Proof.
  intros mem.
  apply (getTop3CalmingSongs_complete mem [1; 2; 3]%positive ∅ []).
  pose proof (length_filter
                (λ a, is_Some (AutoReplaySystem.candidate mem ∅ [] a))
                [1; 2; 3]%positive) as Hlen.
  exact Hlen.
Defined.

(** ** The rating map over a series of insertions *)

Section RatingHistory.
Implicit Types (ratingMap : gmap Z (list ptr)) (song : ptr) (rating : Z).

Lemma insert_song_lookup ratingMap song rating :
  SongRatingTree.insert_song ratingMap song rating !! rating
  = Some (default [] (ratingMap !! rating) ++ [song]).
Proof.
  unfold SongRatingTree.insert_song, SongRatingTree.subscript.
  destruct (ratingMap !! rating); by rewrite lookup_insert_eq.
Qed.

Lemma filter_rating_absent (calls : list (ptr * Z)) rating :
  rating ∉ calls.*2 → filter (λ call : ptr * Z, call.2 = rating) calls = [].
Proof.
  induction calls as [|call calls IH]; [done|]. rewrite fmap_cons.
  intros [Hne Hnot]%not_elem_of_cons.
  rewrite filter_cons_False by (intros Heq; by apply Hne). by apply IH.
Qed.

Lemma after_insertions_lookup (calls : list (ptr * Z)) rating :
  after_insertions calls !! rating
  = if decide (rating ∈ calls.*2)
    then Some (filter (λ call, call.2 = rating) calls).*1
    else None.
Proof.
  unfold after_insertions. induction calls as [|[s r] calls IH] using rev_ind.
  - rewrite decide_False; [done|]. apply not_elem_of_nil.
  - rewrite foldl_app, fmap_app, filter_app. simpl.
    destruct (decide (r = rating)) as [->|Hne].
    + rewrite (decide_True (P := rating ∈ calls.*2 ++ [rating]))
        by (apply elem_of_app; right; by left).
      rewrite insert_song_lookup, IH.
      rewrite filter_cons_True, filter_nil, fmap_app by done. simpl.
      case_decide as Hin; [done|]. by rewrite filter_rating_absent.
    + rewrite insert_song_lookup_ne, IH by done.
      rewrite filter_cons_False, filter_nil, app_nil_r by done.
      destruct (decide (rating ∈ calls.*2)) as [Hin|Hin].
      * rewrite decide_True; [done|]. apply elem_of_app. by left.
      * rewrite decide_False; [done|].
        intros [?|Hr%list_elem_of_singleton]%elem_of_app; [done|]. by apply Hne.
Qed.

End RatingHistory.

(** X21.  The rating map after any series of [insert_song] calls, whatever
    the rating values (the map does not restrict them to 1..5): the group
    of a rating holds the songs inserted under it, in insertion order and
    with repetitions, [get_song_count_by_rating] maps the rating to their
    number, and a rating under which nothing was inserted has no entry. *)
Theorem ratings_after_insertions (calls : list (ptr * Z)) (rating : Z) :
  group (after_insertions calls) rating = (filter (λ call, call.2 = rating) calls).*1 ∧
  SongRatingTree.get_song_count_by_rating (after_insertions calls) !! rating
  = if decide (rating ∈ calls.*2)
    then Some (Z.of_nat (length (filter (λ call, call.2 = rating) calls)))
    else None.
Proof.
  split.
  - rewrite group_lookup, after_insertions_lookup. case_decide as Hin; [done|].
    by rewrite filter_rating_absent.
  - unfold SongRatingTree.get_song_count_by_rating.
    rewrite lookup_fmap, after_insertions_lookup. case_decide; [|done].
    simpl. by rewrite length_fmap.
Qed.

(** X22.  Rating a song and taking the rating back: when the song is not
    yet in the group of the rating, [insert_song] followed by
    [SongRatingTree::delete_song] leaves the group with the songs it had,
    and the groups of all other ratings are not touched. *)
Theorem insert_then_delete_song (ratingMap : gmap Z (list ptr)) (song : ptr) (rating : Z) :
  song ∉ group ratingMap rating →
  let ratingMap' :=
    SongRatingTree.delete_song (SongRatingTree.insert_song ratingMap song rating)
      song rating in
  group ratingMap' rating = group ratingMap rating ∧
  ∀ r, r ≠ rating → ratingMap' !! r = ratingMap !! r.
Proof.
  intros Habsent ratingMap'. subst ratingMap'. split.
  - rewrite group_lookup, delete_song_lookup, group_lookup, insert_song_lookup.
    simpl. rewrite filter_app, filter_cons_False, filter_nil, app_nil_r
      by (intros H; by apply H).
    rewrite <- group_lookup. by apply filter_absent.
  - intros r Hr. by rewrite delete_song_lookup_ne, insert_song_lookup_ne.
Qed.

Lemma insert_then_delete_song_witness :
  let ratingMap := after_insertions [(7%positive, 5); (8%positive, 5)] in
  (9%positive ∉ group ratingMap 5) ∧
  group (SongRatingTree.delete_song (SongRatingTree.insert_song ratingMap 9%positive 5)
           9%positive 5) 5
  = group ratingMap 5.
Proof.
  intros ratingMap.
  assert (9%positive ∉ group ratingMap 5) as Habsent.
  { assert (group ratingMap 5 = [7; 8]%positive) as -> by by vm_compute.
    intros [?|[?|?%elem_of_nil]%elem_of_cons]%elem_of_cons; done. }
  split; [exact Habsent|].
  exact (proj1 (insert_then_delete_song ratingMap 9%positive 5 Habsent)).
Defined.

(** ** Loading the data file *)

Section Loading.
Variable show_int : Z → string.
Variable stoi : string → option Z.
Variable alloc : gmap ptr Song → ptr.
Implicit Types (st : Session.t) (line section : string) (body : list string).

Lemma load_line_header section st line :
  is_header line = true → load_line stoi alloc (section, st) line = Some (line, st).
Proof.
  intros Hhdr. unfold load_line. destruct line as [|c line]; [done|].
  rewrite decide_False by done. by rewrite Hhdr.
Qed.

Lemma load_line_history st line :
  plain_title line →
  load_line stoi alloc ("[HISTORY]", st) line
  = Some ("[HISTORY]",
          match SongLookup.get (Session.lookup st) line with
          | Some song => with_ph st (PlaybackHistory.add (Session.ph st) song)
          | None => st
          end).
Proof.
  intros [Hne Hhdr]. unfold load_line. rewrite decide_False by done. rewrite Hhdr.
  do 3 (rewrite (decide_False (P := "[HISTORY]" = _)) by done).
  rewrite decide_True by done. by destruct (SongLookup.get _ _).
Qed.

Lemma load_line_skipped st line :
  plain_title line →
  load_line stoi alloc ("[SKIPPED]", st) line
  = Some ("[SKIPPED]",
          match SongLookup.get (Session.lookup st) line with
          | Some song =>
              with_skipTracker st
                (RecentlySkippedTracker.addSkippedSong (Session.skipTracker st) song)
          | None => st
          end).
Proof.
  intros [Hne Hhdr]. unfold load_line. rewrite decide_False by done. rewrite Hhdr.
  do 4 (rewrite (decide_False (P := "[SKIPPED]" = _)) by done).
  rewrite decide_True by done. by destruct (SongLookup.get _ _).
Qed.

Lemma load_line_recent_added st line :
  plain_title line →
  load_line stoi alloc ("[RECENT_ADDED]", st) line
  = Some ("[RECENT_ADDED]",
          match SongLookup.get (Session.lookup st) line with
          | Some song =>
              with_recentTracker st
                (RecentlyAddedTracker.addRecentSong (Session.recentTracker st) song)
          | None => st
          end).
Proof.
  intros [Hne Hhdr]. unfold load_line. rewrite decide_False by done. rewrite Hhdr.
  do 5 (rewrite (decide_False (P := "[RECENT_ADDED]" = _)) by done).
  rewrite decide_True by done. by destruct (SongLookup.get _ _).
Qed.

(** A block of titles under one of the three title sections: each title
    that the lookup knows is handed to the object of the section, in file
    order. *)
Lemma load_lines_history body : ∀ st,
  Forall plain_title body →
  load_lines stoi alloc ("[HISTORY]", st) body
  = Some ("[HISTORY]",
          with_ph st (foldl PlaybackHistory.add (Session.ph st)
                        (omap (SongLookup.get (Session.lookup st)) body))).
Proof.
  induction body as [|line body IH]; intros st Hplain.
  - by destruct st.
  - apply Forall_cons in Hplain as [Hline Hplain].
    cbn [load_lines]. rewrite load_line_history by done. simpl.
    destruct (SongLookup.get (Session.lookup st) line) as [song|] eqn:Hget.
    + rewrite IH by done. by destruct st.
    + by rewrite IH.
Qed.

Lemma load_lines_skipped body : ∀ st,
  Forall plain_title body →
  load_lines stoi alloc ("[SKIPPED]", st) body
  = Some ("[SKIPPED]",
          with_skipTracker st
            (foldl RecentlySkippedTracker.addSkippedSong (Session.skipTracker st)
               (omap (SongLookup.get (Session.lookup st)) body))).
Proof.
  induction body as [|line body IH]; intros st Hplain.
  - by destruct st.
  - apply Forall_cons in Hplain as [Hline Hplain].
    cbn [load_lines]. rewrite load_line_skipped by done. simpl.
    destruct (SongLookup.get (Session.lookup st) line) as [song|] eqn:Hget.
    + rewrite IH by done. by destruct st.
    + by rewrite IH.
Qed.

Lemma load_lines_recent_added body : ∀ st,
  Forall plain_title body →
  load_lines stoi alloc ("[RECENT_ADDED]", st) body
  = Some ("[RECENT_ADDED]",
          with_recentTracker st
            (foldl RecentlyAddedTracker.addRecentSong (Session.recentTracker st)
               (omap (SongLookup.get (Session.lookup st)) body))).
Proof.
  induction body as [|line body IH]; intros st Hplain.
  - by destruct st.
  - apply Forall_cons in Hplain as [Hline Hplain].
    cbn [load_lines]. rewrite load_line_recent_added by done. simpl.
    destruct (SongLookup.get (Session.lookup st) line) as [song|] eqn:Hget.
    + rewrite IH by done. by destruct st.
    + by rewrite IH.
Qed.

Lemma omap_resolved (lookup : gmap string ptr) (ts : list string) (songs : list ptr) :
  Forall2 (λ t a, SongLookup.get lookup t = Some a) ts songs →
  omap (SongLookup.get lookup) ts = songs.
Proof.
  induction 1 as [|t a ts songs Ht _ IH]; [done|].
  change (omap (SongLookup.get lookup) (t :: ts))
    with (match SongLookup.get lookup t with
          | Some y => y :: omap (SongLookup.get lookup) ts
          | None => omap (SongLookup.get lookup) ts
          end).
  by rewrite Ht, IH.
Qed.

(** Touching the songs of a window in window order, starting from an empty
    window, gives the window in reverse. *)
Lemma touch_window_reverse (cap : nat) (w : list ptr) :
  (0 < cap)%nat → window_ok cap w → foldl (touch cap) [] w = reverse w.
Proof.
  intros Hcap [Hlen Hnd].
  rewrite (touches_first_occurrences cap Hcap [] w) by (split; [simpl; lia|constructor]).
  rewrite app_nil_r, first_occurrences_id by by rewrite reverse_Permutation.
  apply take_ge. by rewrite length_reverse.
Qed.

End Loading.

Section Fields.
Implicit Types (s t rest : string).

Lemma getline_comma_field t rest :
  comma_free t → getline_comma (t +:+ String ","%char rest) = (t, Some rest).
Proof.
  induction t as [|c t IH]; simpl.
  - done.
  - intros [Hc Ht]. rewrite decide_False by done. by rewrite IH.
Qed.

Lemma getline_comma_last t : comma_free t → getline_comma t = (t, None).
Proof.
  induction t as [|c t IH]; simpl; [done|].
  intros [Hc Ht]. rewrite decide_False by done. by rewrite IH.
Qed.

Lemma back_None s : back s = None → s = "".
Proof.
  induction s as [|c s IH]; [done|]. destruct s as [|e s]; [done|].
  change (back (String c (String e s))) with (back (String e s)).
  intros H. apply IH in H. discriminate H.
Qed.

Lemma back_append s t :
  back (s +:+ t) = match back t with Some c => Some c | None => back s end.
Proof.
  induction s as [|c s IH].
  - change ("" +:+ t) with t. by destruct (back t).
  - destruct s as [|e s].
    + change (String c "" +:+ t) with (String c t). destruct t as [|d t]; [done|].
      change (back (String c (String d t))) with (back (String d t)).
      destruct (back (String d t)) eqn:E; [done|]. by apply back_None in E.
    + change (back (String c (String e s) +:+ t)) with (back (String e s +:+ t)).
      rewrite IH. done.
Qed.

Lemma decimal_comma_free s : decimal s → comma_free s.
Proof.
  induction s as [|c s IH]; simpl; [done|]. intros [Hc Hs]. split; [|by apply IH].
  intros ->. destruct Hc as [?|Hc]; [done|]. by vm_compute in Hc; lia.
Qed.

Lemma decimal_back s : decimal s → back s ≠ Some "]"%char.
Proof.
  induction s as [|c s IH]; simpl; [done|]. intros [Hc Hs].
  destruct s as [|d s]; [|by apply IH].
  intros [= ->]. destruct Hc as [?|Hc]; [done|]. by vm_compute in Hc; lia.
Qed.

Lemma getline_comma_commas s : commas_left (getline_comma s).2 = commas s.
Proof.
  induction s as [|c s IH]; simpl; [done|]. case_decide; [done|].
  by destruct (getline_comma s).
Qed.

Lemma next_field_commas (stream : option string) :
  commas_left (next_field stream).2 = pred (commas_left stream).
Proof. destruct stream as [s|]; [|done]. apply getline_comma_commas. Qed.

End Fields.

Section Lines.
Variable show_int : Z → string.
Variable stoi : string → option Z.
Variable alloc : gmap ptr Song → ptr.
Implicit Types (st : Session.t) (line section : string) (s t rest : string).

Lemma append_comma_nonempty s rest : s +:+ String ","%char rest ≠ "".
Proof. by destruct s. Qed.

Lemma back_field s rest :
  back rest ≠ Some "]"%char → back (s +:+ String ","%char rest) ≠ Some "]"%char.
Proof.
  intros Hrest. rewrite back_append. destruct rest as [|c rest]; [done|].
  change (back (String "," (String c rest))) with (back (String c rest)).
  destruct (back (String c rest)) eqn:E; [done|]. by apply back_None in E.
Qed.

Lemma is_header_back line : back line ≠ Some "]"%char → is_header line = false.
Proof.
  intros Hback. destruct line as [|c line]; [done|].
  unfold is_header. rewrite (bool_decide_eq_false_2 (back _ = _)) by done.
  by rewrite andb_false_r.
Qed.

Lemma foldl_history_add (ph songs : list ptr) :
  foldl PlaybackHistory.add ph songs = reverse songs ++ ph.
Proof.
  revert ph. induction songs as [|a songs IH]; intros ph; [done|].
  simpl. rewrite IH, reverse_cons, <- app_assoc. done.
Qed.

Lemma title_lines_length mem (songs : list ptr) (ts : list string) :
  title_lines mem songs = Some ts → length ts = length songs.
Proof. intros H. symmetry. by eapply length_mapM. Qed.

Lemma add_song_new pl a t ar g d :
  (Playlist.add_song pl a t ar g d).2 = a ∧
  meta <$> Playlist.heap (Playlist.add_song pl a t ar g d).1 !! a = Some (t, ar, g, d).
Proof.
  unfold Playlist.add_song. destruct (Playlist.head pl); playlist_fields.
  - split; [done|]. destruct (Playlist.tail pl); rewrite !lookup_alter_meta by done;
      by rewrite lookup_insert_eq.
  - split; [done|]. by rewrite lookup_insert_eq.
Qed.

Lemma load_line_song st line t ar g ds d :
  line ≠ "" → is_header line = false →
  getline_comma line = (t, Some (ar +:+ String ","%char (g +:+ String ","%char ds))) →
  comma_free ar → comma_free g → comma_free ds → stoi ds = Some d →
  let added := Playlist.add_song (Session.playlist st)
                 (alloc (Playlist.heap (Session.playlist st))) t ar g d in
  load_line stoi alloc ("[SONGS]", st) line
  = Some ("[SONGS]",
          Session.mk added.1
            (SongLookup.add (Session.lookup st) (Playlist.heap added.1) added.2)
            (Session.playCounts st) (Session.srt st) (Session.ph st)
            (Session.skipTracker st) (Session.recentTracker st)).
Proof.
  intros Hne Hhdr Hfirst Har Hg Hds Hstoi added. unfold load_line.
  rewrite decide_False by done. rewrite Hhdr, decide_True by done.
  rewrite Hfirst. cbn [next_field].
  rewrite (getline_comma_field ar) by done.
  cbn [next_field]. rewrite (getline_comma_field g) by done.
  cbn [next_field]. rewrite (getline_comma_last ds) by done.
  rewrite Hstoi. cbn [mbind option_bind].
  fold added. by destruct added.
Qed.

End Lines.

(** ** The data file *)

(** X23. Reading back a song line. For a song whose title, artist and
    genre have no comma and whose duration is written in decimal digits that
    [stoi] reads back, the line that [save_all_data] writes under [[SONGS]]
    makes [load_all_data] append a song with the same title, artist, genre
    and duration at the end of the playlist and register it in the lookup
    under its title; the play counts, ratings, history and the two windows
    are left as they were. *)
Theorem load_song_line_round_trip (show_int : Z → string) (stoi : string → option Z)
    (alloc : gmap ptr Song → ptr) (st : Session.t) (ls : list ptr) (s : Song) :
  let a := alloc (Playlist.heap (Session.playlist st)) in
  Playlist_dll (Session.playlist st) ls →
  Playlist.heap (Session.playlist st) !! a = None →
  comma_free (title s) → comma_free (artist s) → comma_free (genre s) →
  decimal (show_int (duration s)) →
  stoi (show_int (duration s)) = Some (duration s) →
  ∃ st', load_line stoi alloc ("[SONGS]", st) (song_line show_int s) = Some ("[SONGS]", st') ∧
         Playlist.get_all_songs (Session.playlist st') = Some (ls ++ [a]) ∧
         meta <$> Playlist.heap (Session.playlist st') !! a = Some (meta s) ∧
         Session.lookup st' = <[title s := a]> (Session.lookup st) ∧
         Session.playCounts st' = Session.playCounts st ∧
         Session.srt st' = Session.srt st ∧
         Session.ph st' = Session.ph st ∧
         Session.skipTracker st' = Session.skipTracker st ∧
         Session.recentTracker st' = Session.recentTracker st.
Proof.
  intros a Hdll Hfresh Ht Har Hg Hdec Hstoi.
  pose proof (decimal_comma_free _ Hdec) as Hds.
  pose proof (decimal_back _ Hdec) as Hback.
  destruct (add_song_new (Session.playlist st) a (title s) (artist s) (genre s) (duration s))
    as [Hptr Hmeta].
  eexists. split.
  - apply (load_line_song stoi alloc st _ (title s) (artist s) (genre s)
             (show_int (duration s)) (duration s)); try done.
    + apply append_comma_nonempty.
    + apply is_header_back. by do 3 apply back_field.
    + by apply getline_comma_field.
  - cbn [Session.playlist Session.lookup Session.playCounts Session.srt Session.ph
         Session.skipTracker Session.recentTracker].
    fold a. rewrite Hptr.
    split; [by apply get_all_songs_dll, add_song_dll|].
    split; [done|]. split; [|done].
    unfold SongLookup.add.
    destruct (Playlist.heap (Playlist.add_song _ a _ _ _ _).1 !! a) as [n|]; [|done].
    by injection Hmeta as ->.
Qed.

Lemma load_song_line_round_trip_witness :
  let show_int := λ z : Z, if decide (z = 100) then "100" else "0" in
  let stoi := λ t : string, if decide (t = "100") then Some 100 else None in
  let alloc := λ _ : gmap ptr Song, 2%positive in
  let st := Session.mk catalog_A ∅ ∅ ∅ [] [] [] in
  let s := mkSong "B" "Artist2" "Jazz" 100 None None in
  Playlist_dll catalog_A [1%positive] ∧
  Playlist.heap catalog_A !! 2%positive = None ∧
  comma_free "B" ∧ comma_free "Artist2" ∧ comma_free "Jazz" ∧ decimal "100" ∧
  ∃ st', load_line stoi alloc ("[SONGS]", st) (song_line show_int s) = Some ("[SONGS]", st') ∧
         Playlist.get_all_songs (Session.playlist st') = Some [1; 2]%positive ∧
         Session.lookup st' = {[ "B" := 2%positive ]}.
Proof.
  intros show_int stoi alloc st s.
  assert (Playlist_dll catalog_A [1%positive]) as Hdll.
  { change [1%positive] with ([] ++ [1%positive]).
    apply add_song_dll; [apply Playlist_dll_empty|done]. }
  assert (Playlist.heap catalog_A !! 2%positive = None) as Hfresh by (vm_compute; reflexivity).
  assert (comma_free "B") as Ht by (vm_compute; intuition discriminate).
  assert (comma_free "Artist2") as Har by (vm_compute; intuition discriminate).
  assert (comma_free "Jazz") as Hg by (vm_compute; intuition discriminate).
  assert (decimal "100") as Hdec by (vm_compute; intuition lia).
  do 6 (split; [assumption|]).
  destruct (load_song_line_round_trip show_int stoi alloc st [1%positive] s
              Hdll Hfresh Ht Har Hg Hdec eq_refl)
    as (st' & Hload & Hall & _ & Hlookup & _).
  exists st'. split; [exact Hload|]. split; [exact Hall|]. exact Hlookup.
Defined.

(** X24. The skip window comes back reversed. [save_all_data] writes the
    titles of the skip window, most recent first, under [[SKIPPED]];
    [load_all_data] hands the song of each title to [addSkippedSong] in file
    order. With titles that are not empty and not of the form of a header,
    that resolve to distinct songs, and an empty tracker to load into, the
    loaded window holds those songs in the reverse of the saved order: the
    song skipped longest ago is now the most recent one. *)
Theorem skipped_window_reloads_reversed (stoi : string → option Z)
    (alloc : gmap ptr Song → ptr) (mem : gmap ptr Song) (st : Session.t)
    (section : string) (skippedSongs : list ptr) (ts : list string) (songs : list ptr) :
  window_ok RecentlySkippedTracker.MAX_SKIPPED skippedSongs →
  title_lines mem skippedSongs = Some ts →
  Forall plain_title ts →
  Forall2 (λ t a, SongLookup.get (Session.lookup st) t = Some a) ts songs →
  NoDup songs →
  Session.skipTracker st = [] →
  skipped_block mem skippedSongs = Some ("[SKIPPED]" :: ts) ∧
  load_lines stoi alloc (section, st) ("[SKIPPED]" :: ts)
  = Some ("[SKIPPED]", with_skipTracker st (reverse songs)).
Proof.
  intros [Hlen _] Hts Hplain Hres Hnd Hempty. split.
  - unfold skipped_block, RecentlySkippedTracker.getSkippedSongs. by rewrite Hts.
  - cbn [load_lines]. rewrite load_line_header by done. cbn [mbind option_bind].
    rewrite load_lines_skipped by done.
    rewrite (omap_resolved _ _ _ Hres), Hempty.
    change (foldl RecentlySkippedTracker.addSkippedSong [] songs)
      with (foldl (touch 10) [] songs).
    rewrite touch_window_reverse; [done|lia|].
    split; [|done]. apply title_lines_length in Hts.
    apply Forall2_length in Hres. unfold RecentlySkippedTracker.MAX_SKIPPED in Hlen. lia.
Qed.

Lemma skipped_window_reloads_reversed_witness :
  let stoi := λ _ : string, @None Z in
  let alloc := λ _ : gmap ptr Song, 4%positive in
  let st := Session.mk catalog_ABC {[ "A" := 1%positive; "B" := 2%positive ]} ∅ ∅ [] [] [] in
  window_ok RecentlySkippedTracker.MAX_SKIPPED [1; 2]%positive ∧
  title_lines (Playlist.heap catalog_ABC) [1; 2]%positive = Some ["A"; "B"] ∧
  Forall plain_title ["A"; "B"] ∧
  load_lines stoi alloc ("[SONGS]", st) ["[SKIPPED]"; "A"; "B"]
  = Some ("[SKIPPED]", with_skipTracker st [2; 1]%positive).
Proof.
  intros stoi alloc st.
  assert (window_ok RecentlySkippedTracker.MAX_SKIPPED [1; 2]%positive) as Hok.
  { split; [vm_compute; lia|]. apply (bool_decide_unpack _). vm_compute. exact I. }
  assert (title_lines (Playlist.heap catalog_ABC) [1; 2]%positive = Some ["A"; "B"]) as Hts
    by (vm_compute; reflexivity).
  assert (Forall plain_title ["A"; "B"]) as Hplain by (repeat constructor; discriminate).
  assert (Forall2 (λ t a, SongLookup.get (Session.lookup st) t = Some a)
            ["A"; "B"] [1; 2]%positive) as Hres
    by (repeat constructor; vm_compute; reflexivity).
  assert (NoDup [1; 2]%positive) as Hnd by apply Hok.
  do 3 (split; [assumption|]).
  exact (proj2 (skipped_window_reloads_reversed stoi alloc (Playlist.heap catalog_ABC) st
                  "[SONGS]" [1; 2]%positive ["A"; "B"] [1; 2]%positive
                  Hok Hts Hplain Hres Hnd eq_refl)).
Defined.

Section Blocks.
Variable show_int : Z → string.
Variable stoi : string → option Z.
Variable alloc : gmap ptr Song → ptr.
Implicit Types (st : Session.t) (line section : string).

Lemma getRecentlyAdded_all (recentlyAdded : list ptr) (limit : Z) :
  Z.of_nat (length recentlyAdded) ≤ limit →
  RecentlyAddedTracker.getRecentlyAdded recentlyAdded limit = recentlyAdded.
Proof.
  intros Hlen. unfold RecentlyAddedTracker.getRecentlyAdded.
  rewrite Z.min_r, omap_lookup_seq by lia. apply take_ge. lia.
Qed.

(** A session with other play counts. *)
Lemma load_line_count st t n :
  comma_free t → decimal (show_int n) → stoi (show_int n) = Some n →
  load_line stoi alloc ("[PLAY_COUNTS]", st) (count_line show_int t n)
  = Some ("[PLAY_COUNTS]",
          Session.mk (Session.playlist st) (Session.lookup st)
            (<[t := n]> (Session.playCounts st)) (Session.srt st) (Session.ph st)
            (Session.skipTracker st) (Session.recentTracker st)).
Proof.
  intros Ht Hdec Hstoi.
  change (count_line show_int t n) with (t +:+ String "," (show_int n)).
  unfold load_line. rewrite decide_False by apply append_comma_nonempty.
  rewrite (is_header_back (t +:+ String "," (show_int n)))
    by by apply back_field, decimal_back.
  rewrite (decide_False (P := "[PLAY_COUNTS]" = "[SONGS]")) by done.
  rewrite decide_True by done.
  rewrite (getline_comma_field t) by done. cbn [next_field].
  rewrite getline_comma_last by by apply decimal_comma_free.
  by rewrite Hstoi.
Qed.

Lemma load_lines_counts (entries : list (string * Z)) : ∀ st,
  Forall (λ e, comma_free e.1 ∧ decimal (show_int e.2) ∧ stoi (show_int e.2) = Some e.2)
    entries →
  load_lines stoi alloc ("[PLAY_COUNTS]", st)
    ((λ e, count_line show_int e.1 e.2) <$> entries)
  = Some ("[PLAY_COUNTS]",
          Session.mk (Session.playlist st) (Session.lookup st)
            (foldl (λ m e, <[e.1 := e.2]> m) (Session.playCounts st) entries)
            (Session.srt st) (Session.ph st)
            (Session.skipTracker st) (Session.recentTracker st)).
Proof.
  induction entries as [|[t n] entries IH]; intros st Hok.
  - by destruct st.
  - apply Forall_cons in Hok as [(Ht & Hdec & Hstoi) Hok].
    rewrite fmap_cons. cbn [load_lines fst snd].
    rewrite load_line_count by done. cbn [mbind option_bind].
    by rewrite IH.
Qed.

Lemma foldl_insert_list_to_map (entries : list (string * Z)) : ∀ m : gmap string Z,
  NoDup entries.*1 →
  foldl (λ m e, <[e.1 := e.2]> m) m entries = list_to_map entries ∪ m.
Proof.
  induction entries as [|[t n] entries IH]; intros m Hnd.
  - cbn [foldl]. rewrite list_to_map_nil. by rewrite (left_id_L ∅ (∪)).
  - rewrite fmap_cons in Hnd. apply NoDup_cons in Hnd as [Hnotin Hnd].
    cbn [foldl fst snd]. rewrite IH by done.
    rewrite list_to_map_cons, <- insert_union_l.
    rewrite insert_union_r; [done|]. by apply not_elem_of_list_to_map_1.
Qed.

End Blocks.

(** X25. The window of recent additions comes back reversed, like the skip
    window: [save_all_data] writes the titles of the whole window
    ([getRecentlyAdded(15)], most recent first) under [[RECENT_ADDED]], and
    [load_all_data] hands the song of each title to [addRecentSong] in file
    order, so an empty tracker ends with the songs in the reverse of the
    saved order. *)
Theorem recent_window_reloads_reversed (stoi : string → option Z)
    (alloc : gmap ptr Song → ptr) (mem : gmap ptr Song) (st : Session.t)
    (section : string) (recentlyAdded : list ptr) (ts : list string) (songs : list ptr) :
  window_ok RecentlyAddedTracker.MAX_RECENT recentlyAdded →
  title_lines mem recentlyAdded = Some ts →
  Forall plain_title ts →
  Forall2 (λ t a, SongLookup.get (Session.lookup st) t = Some a) ts songs →
  NoDup songs →
  Session.recentTracker st = [] →
  recent_added_block mem recentlyAdded = Some ("[RECENT_ADDED]" :: ts) ∧
  load_lines stoi alloc (section, st) ("[RECENT_ADDED]" :: ts)
  = Some ("[RECENT_ADDED]", with_recentTracker st (reverse songs)).
Proof.
  intros [Hlen _] Hts Hplain Hres Hnd Hempty.
  unfold RecentlyAddedTracker.MAX_RECENT in Hlen. split.
  - unfold recent_added_block. rewrite getRecentlyAdded_all by lia. by rewrite Hts.
  - cbn [load_lines]. rewrite load_line_header by done. cbn [mbind option_bind].
    rewrite load_lines_recent_added by done.
    rewrite (omap_resolved _ _ _ Hres), Hempty.
    change (foldl RecentlyAddedTracker.addRecentSong [] songs)
      with (foldl (touch 15) [] songs).
    rewrite touch_window_reverse; [done|lia|].
    split; [|done]. apply title_lines_length in Hts.
    apply Forall2_length in Hres. lia.
Qed.

Lemma recent_window_reloads_reversed_witness :
  let stoi := λ _ : string, @None Z in
  let alloc := λ _ : gmap ptr Song, 4%positive in
  let st := Session.mk catalog_ABC
              {[ "A" := 1%positive; "B" := 2%positive; "C" := 3%positive ]} ∅ ∅ [] [] [] in
  window_ok RecentlyAddedTracker.MAX_RECENT [3; 2; 1]%positive ∧
  recent_added_block (Playlist.heap catalog_ABC) [3; 2; 1]%positive
  = Some ["[RECENT_ADDED]"; "C"; "B"; "A"] ∧
  load_lines stoi alloc ("[SKIPPED]", st) ["[RECENT_ADDED]"; "C"; "B"; "A"]
  = Some ("[RECENT_ADDED]", with_recentTracker st [1; 2; 3]%positive).
Proof.
  intros stoi alloc st.
  assert (window_ok RecentlyAddedTracker.MAX_RECENT [3; 2; 1]%positive) as Hok.
  { split; [vm_compute; lia|]. apply (bool_decide_unpack _). vm_compute. exact I. }
  assert (title_lines (Playlist.heap catalog_ABC) [3; 2; 1]%positive = Some ["C"; "B"; "A"])
    as Hts by (vm_compute; reflexivity).
  assert (Forall plain_title ["C"; "B"; "A"]) as Hplain by (repeat constructor; discriminate).
  assert (Forall2 (λ t a, SongLookup.get (Session.lookup st) t = Some a)
            ["C"; "B"; "A"] [3; 2; 1]%positive) as Hres
    by (repeat constructor; vm_compute; reflexivity).
  assert (NoDup [3; 2; 1]%positive) as Hnd by apply Hok.
  split; [assumption|].
  exact (recent_window_reloads_reversed stoi alloc (Playlist.heap catalog_ABC) st
           "[SKIPPED]" [3; 2; 1]%positive ["C"; "B"; "A"] [3; 2; 1]%positive
           Hok Hts Hplain Hres Hnd eq_refl).
Defined.

(** X26. The history that survives a save and a load. [save_all_data]
    writes the titles of the five most recently played songs only
    ([get_recently_played()], most recent first) under [[HISTORY]];
    [load_all_data] pushes the song of each title in file order. So at most
    five plays come back, on top of the history that is loaded into, and in
    reverse: the most recent play of the saved session lies deepest. *)
Theorem history_reloads_last_five_reversed (stoi : string → option Z)
    (alloc : gmap ptr Song → ptr) (mem : gmap ptr Song) (st : Session.t)
    (section : string) (ph : list ptr) (ts : list string) (songs : list ptr) :
  title_lines mem (take 5 ph) = Some ts →
  Forall plain_title ts →
  Forall2 (λ t a, SongLookup.get (Session.lookup st) t = Some a) ts songs →
  history_block mem ph = Some ("[HISTORY]" :: ts) ∧
  load_lines stoi alloc (section, st) ("[HISTORY]" :: ts)
  = Some ("[HISTORY]", with_ph st (reverse songs ++ Session.ph st)) ∧
  length songs = (length ph `min` 5)%nat.
Proof.
  intros Hts Hplain Hres. split; [|split].
  - unfold history_block, PlaybackHistory.get_recently_played.
    rewrite recently_played_loop_take. cbn [app length].
    rewrite Nat.sub_0_r. change (Z.to_nat 5) with 5%nat. by rewrite Hts.
  - cbn [load_lines]. rewrite load_line_header by done. cbn [mbind option_bind].
    rewrite load_lines_history by done.
    by rewrite (omap_resolved _ _ _ Hres), foldl_history_add.
  - apply title_lines_length in Hts. apply Forall2_length in Hres.
    rewrite length_take in Hts. lia.
Qed.

Lemma history_reloads_last_five_reversed_witness :
  let stoi := λ _ : string, @None Z in
  let alloc := λ _ : gmap ptr Song, 4%positive in
  let st := Session.mk catalog_ABC
              {[ "A" := 1%positive; "B" := 2%positive; "C" := 3%positive ]} ∅ ∅ [] [] [] in
  let ph := [1; 2; 3; 1; 2; 3; 1]%positive in
  history_block (Playlist.heap catalog_ABC) ph = Some ["[HISTORY]"; "A"; "B"; "C"; "A"; "B"] ∧
  load_lines stoi alloc ("", st) ["[HISTORY]"; "A"; "B"; "C"; "A"; "B"]
  = Some ("[HISTORY]", with_ph st [2; 1; 3; 2; 1]%positive).
Proof.
  intros stoi alloc st ph.
  assert (title_lines (Playlist.heap catalog_ABC) (take 5 ph)
          = Some ["A"; "B"; "C"; "A"; "B"]) as Hts by (vm_compute; reflexivity).
  assert (Forall plain_title ["A"; "B"; "C"; "A"; "B"]) as Hplain
    by (repeat constructor; discriminate).
  assert (Forall2 (λ t a, SongLookup.get (Session.lookup st) t = Some a)
            ["A"; "B"; "C"; "A"; "B"] [1; 2; 3; 1; 2]%positive) as Hres
    by (repeat constructor; vm_compute; reflexivity).
  destruct (history_reloads_last_five_reversed stoi alloc (Playlist.heap catalog_ABC) st
              "" ph ["A"; "B"; "C"; "A"; "B"] [1; 2; 3; 1; 2]%positive Hts Hplain Hres)
    as (Hblock & Hload & _).
  split; [exact Hblock|exact Hload].
Defined.

(** X27. A song line with fewer than four fields ends the program. With
    fewer than three commas the fourth [getline] finds the stream at its end
    and leaves [duration_str] empty; [stoi] throws on the empty text, and
    nothing in [load_all_data] or [main] catches it: the load has no
    result, whatever follows in the file. *)
Theorem load_short_song_line_aborts (stoi : string → option Z)
    (alloc : gmap ptr Song → ptr) (st : Session.t) (line : string) (rest : list string) :
  stoi "" = None →
  line ≠ "" → is_header line = false → (commas line < 3)%nat →
  load_all_data stoi alloc (Some ("[SONGS]" :: line :: rest)) st = None.
Proof.
  intros Hstoi Hne Hhdr Hcommas.
  unfold load_all_data. cbn [load_lines].
  rewrite load_line_header by done. cbn [mbind option_bind].
  assert (load_line stoi alloc ("[SONGS]", st) line = None) as ->; [|done].
  unfold load_line. rewrite decide_False by done. rewrite Hhdr, decide_True by done.
  pose proof (getline_comma_commas line) as H1.
  destruct (getline_comma line) as [f1 s1]. cbn [snd] in H1.
  pose proof (next_field_commas s1) as H2.
  destruct (next_field s1) as [f2 s2]. cbn [snd] in H2.
  pose proof (next_field_commas s2) as H3.
  destruct (next_field s2) as [f3 s3]. cbn [snd] in H3.
  destruct s3 as [s3|]; [simpl in H3; lia|].
  cbn [next_field]. by rewrite Hstoi.
Qed.

Lemma load_short_song_line_aborts_witness :
  let stoi := λ t : string, if decide (t = "") then None else Some 100 in
  let alloc := λ _ : gmap ptr Song, 1%positive in
  is_header "Song,Artist,Jazz" = false ∧ (commas "Song,Artist,Jazz" < 3)%nat ∧
  load_all_data stoi alloc (Some ["[SONGS]"; "Song,Artist,Jazz"; "[END]"]) Session.fresh
  = None.
Proof.
  intros stoi alloc.
  assert (is_header "Song,Artist,Jazz" = false) as Hhdr by reflexivity.
  assert (commas "Song,Artist,Jazz" < 3)%nat as Hcommas by (vm_compute; lia).
  do 2 (split; [assumption|]).
  apply (load_short_song_line_aborts stoi alloc Session.fresh "Song,Artist,Jazz" ["[END]"]);
    [reflexivity|discriminate|exact Hhdr|exact Hcommas].
Defined.

(** X28. The play counts survive a save and a load in whatever order the
    [unordered_map] is walked. For play counts whose titles have no comma
    and whose numbers are written in decimal digits that [stoi] reads back,
    the lines that [save_all_data] writes under [[PLAY_COUNTS]], in any
    order of the entries, make [load_all_data] fill an empty map with
    exactly the saved play counts and change nothing else. *)
Theorem play_counts_round_trip (show_int : Z → string) (stoi : string → option Z)
    (alloc : gmap ptr Song → ptr) (st : Session.t) (section : string)
    (playCounts : gmap string Z) (entries : list (string * Z)) :
  entries ≡ₚ map_to_list playCounts →
  (∀ t n, playCounts !! t = Some n →
          comma_free t ∧ decimal (show_int n) ∧ stoi (show_int n) = Some n) →
  Session.playCounts st = ∅ →
  load_lines stoi alloc (section, st)
    ("[PLAY_COUNTS]" :: ((λ e, count_line show_int e.1 e.2) <$> entries))
  = Some ("[PLAY_COUNTS]",
          Session.mk (Session.playlist st) (Session.lookup st) playCounts
            (Session.srt st) (Session.ph st)
            (Session.skipTracker st) (Session.recentTracker st)).
Proof.
  intros Hperm Hok Hempty.
  cbn [load_lines]. rewrite load_line_header by done. cbn [mbind option_bind].
  rewrite (load_lines_counts show_int).
  - assert (NoDup entries.*1) as Hnd by (rewrite Hperm; apply NoDup_fst_map_to_list).
    rewrite foldl_insert_list_to_map by done. rewrite Hempty, (right_id_L ∅ (∪)).
    rewrite (list_to_map_proper _ _ Hnd Hperm). by rewrite list_to_map_to_list.
  - apply Forall_forall. intros [t n] Hin. apply Hok.
    apply elem_of_map_to_list. by rewrite <- Hperm.
Qed.

Lemma play_counts_round_trip_witness :
  let show_int := λ z : Z, if decide (z = 3) then "3" else "12" in
  let stoi := λ t : string, if decide (t = "3") then Some 3
                            else if decide (t = "12") then Some 12 else None in
  let alloc := λ _ : gmap ptr Song, 4%positive in
  let st := Session.mk catalog_ABC ∅ ∅ ∅ [] [] [] in
  let playCounts : gmap string Z := {[ "A" := 3; "B" := 12 ]} in
  load_lines stoi alloc ("[SONGS]", st) ["[PLAY_COUNTS]"; "B,12"; "A,3"]
  = Some ("[PLAY_COUNTS]",
          Session.mk catalog_ABC ∅ playCounts ∅ [] [] []).
Proof.
  intros show_int stoi alloc st playCounts.
  assert ([("B", 12); ("A", 3)] ≡ₚ map_to_list playCounts) as Hperm.
  { apply (bool_decide_unpack _). vm_compute. exact I. }
  assert (∀ t n, playCounts !! t = Some n →
                 comma_free t ∧ decimal (show_int n) ∧ stoi (show_int n) = Some n) as Hok.
  { intros t n Hin. apply elem_of_map_to_list in Hin. rewrite <- Hperm in Hin.
    apply elem_of_cons in Hin as [[= -> ->]|Hin];
      [|apply elem_of_cons in Hin as [[= -> ->]|Hin]; [|by apply elem_of_nil in Hin]];
      (split; [vm_compute; intuition discriminate|split; [vm_compute; intuition lia|reflexivity]]). }
  exact (play_counts_round_trip show_int stoi alloc st "[SONGS]" playCounts
           [("B", 12); ("A", 3)] Hperm Hok eq_refl).
Defined.

Section RatingsBlock.
Variable show_int : Z → string.
Variable stoi : string → option Z.
Variable alloc : gmap ptr Song → ptr.
Variable new : ptr → ptr.
Implicit Types (st : Session.t) (srt : gmap Z (list ptr)) (r : Z) (songs : list ptr).

Lemma load_lines_app (state : string * Session.t) (l1 l2 : list string) :
  load_lines stoi alloc state (l1 ++ l2)
  = load_lines stoi alloc state l1 ≫= λ state', load_lines stoi alloc state' l2.
Proof.
  revert state. induction l1 as [|line l1 IH]; intros state; [done|].
  cbn [app load_lines]. destruct (load_line stoi alloc state line); [|done].
  cbn [mbind option_bind]. apply IH.
Qed.

Lemma load_line_rating st (t : string) r (a : ptr) :
  comma_free t → decimal (show_int r) → stoi (show_int r) = Some r →
  SongLookup.get (Session.lookup st) t = Some a →
  load_line stoi alloc ("[RATINGS]", st) (rating_line show_int t r)
  = Some ("[RATINGS]", with_srt st (SongRatingTree.insert_song (Session.srt st) a r)).
Proof.
  intros Ht Hdec Hstoi Hget.
  change (rating_line show_int t r) with (t +:+ String "," (show_int r)).
  unfold load_line. rewrite decide_False by apply append_comma_nonempty.
  rewrite (is_header_back (t +:+ String "," (show_int r)))
    by by apply back_field, decimal_back.
  do 2 (rewrite (decide_False (P := "[RATINGS]" = _)) by done).
  rewrite decide_True by done.
  rewrite (getline_comma_field t) by done. cbn [next_field].
  rewrite getline_comma_last by by apply decimal_comma_free.
  by rewrite Hget, Hstoi.
Qed.

Lemma load_lines_group (mem : gmap ptr Song) (lookup : gmap string ptr) r songs :
  ∀ (lines : list string) st,
  decimal (show_int r) → stoi (show_int r) = Some r →
  Session.lookup st = lookup →
  (∀ a s, a ∈ songs → mem !! a = Some s →
          comma_free (title s) ∧ SongLookup.get lookup (title s) = Some (new a)) →
  mapM (λ song, s ← mem !! song; Some (rating_line show_int (title s) r)) songs
  = Some lines →
  load_lines stoi alloc ("[RATINGS]", st) lines
  = Some ("[RATINGS]",
          with_srt st (foldl (λ m call, SongRatingTree.insert_song m call.1 call.2)
                         (Session.srt st) ((λ a, (new a, r)) <$> songs))).
Proof.
  induction songs as [|a songs IH]; intros lines st Hdec Hstoi Hlookup Hres Hlines.
  - injection Hlines as <-. by destruct st.
  - cbn [mapM] in Hlines.
    destruct (mem !! a) as [s|] eqn:Ha; [|done]. cbn [mbind option_bind] in Hlines.
    destruct (mapM _ songs) as [more|] eqn:Hmore; [|done].
    cbn [mbind option_bind mret option_ret] in Hlines. injection Hlines as <-.
    destruct (Hres a s) as [Ht Hget]; [by left|done|].
    cbn [load_lines]. rewrite (load_line_rating st (title s) r (new a))
      by (by rewrite ?Hlookup).
    cbn [mbind option_bind].
    rewrite (IH more) by (try done; intros b sb Hb; apply Hres; by right).
    rewrite fmap_cons. by destruct st.
Qed.

Lemma ratings_loop_load (mem : gmap ptr Song) (lookup : gmap string ptr) srt
    (pairs : list (Z * Z)) : ∀ (lines : list string) srt' st,
  (∀ r c, (r, c) ∈ pairs → ∃ songs, srt !! r = Some songs ∧ c = Z.of_nat (length songs)) →
  (∀ r songs, srt !! r = Some songs →
     decimal (show_int r) ∧ stoi (show_int r) = Some r ∧
     ∀ a s, a ∈ songs → mem !! a = Some s →
            comma_free (title s) ∧ SongLookup.get lookup (title s) = Some (new a)) →
  Session.lookup st = lookup →
  ratings_loop show_int mem pairs srt = Some (lines, srt') →
  srt' = srt ∧
  load_lines stoi alloc ("[RATINGS]", st) lines
  = Some ("[RATINGS]",
          with_srt st (foldl (λ m call, SongRatingTree.insert_song m call.1 call.2)
                         (Session.srt st) (loaded_ratings new srt pairs.*1))).
Proof.
  induction pairs as [|[r c] pairs IH]; intros lines srt' st Hpairs Hok Hlookup Hloop.
  - injection Hloop as <- <-. split; [done|]. by destruct st.
  - destruct (Hpairs r c) as (songs & Hr & ->); [by left|].
    destruct (Hok r songs Hr) as (Hdec & Hstoi & Hres).
    assert (∀ r' c', (r', c') ∈ pairs →
              ∃ songs', srt !! r' = Some songs' ∧ c' = Z.of_nat (length songs')) as Hrest
      by (intros r' c' Hin; apply Hpairs; by right).
    rewrite fmap_cons. unfold loaded_ratings. rewrite bind_cons.
    fold (loaded_ratings new srt pairs.*1). cbn [fst]. rewrite Hr. cbn [default].
    cbn [ratings_loop fst snd] in Hloop.
    destruct (decide (Z.of_nat (length songs) > 0)) as [Hpos|Hzero].
    + unfold SongRatingTree.search_by_rating, SongRatingTree.subscript in Hloop.
      rewrite Hr in Hloop.
      destruct (mapM _ songs) as [group_lines|] eqn:Hgroup; [|done].
      cbn [mbind option_bind] in Hloop.
      destruct (ratings_loop show_int mem pairs srt) as [[more srt'']|] eqn:Hmore; [|done].
      cbn [mbind option_bind] in Hloop. injection Hloop as <- <-.
      destruct (IH more srt''
                  (with_srt st (foldl (λ m call, SongRatingTree.insert_song m call.1 call.2)
                                  (Session.srt st) ((λ a, (new a, r)) <$> songs))))
        as [-> Hload]; [done|done|done|done|].
      split; [done|].
      rewrite load_lines_app, (load_lines_group mem lookup r songs group_lines st) by done.
      cbn [mbind option_bind]. rewrite Hload, foldl_app. by destruct st.
    + destruct songs as [|a songs]; [|simpl in Hzero; lia].
      by apply IH.
Qed.

Lemma filter_group r r' songs :
  filter (λ call : ptr * Z, call.2 = r) ((λ a, (new a, r')) <$> songs)
  = if decide (r' = r) then (λ a, (new a, r')) <$> songs else [].
Proof.
  induction songs as [|a songs IH]; [by case_decide|].
  rewrite fmap_cons. case_decide as Heq.
  - by rewrite filter_cons_True, IH.
  - by rewrite filter_cons_False, IH.
Qed.

Lemma loaded_ratings_filter srt (ratings : list Z) r :
  NoDup ratings →
  (filter (λ call : ptr * Z, call.2 = r) (loaded_ratings new srt ratings)).*1
  = if decide (r ∈ ratings) then new <$> default [] (srt !! r) else [].
Proof.
  induction ratings as [|r' ratings IH]; intros Hnd.
  - rewrite decide_False; [done|]. apply not_elem_of_nil.
  - apply NoDup_cons in Hnd as [Hnotin Hnd].
    unfold loaded_ratings. rewrite bind_cons. fold (loaded_ratings new srt ratings).
    rewrite filter_app, fmap_app, filter_group, IH by done.
    destruct (decide (r' = r)) as [->|Hne].
    + rewrite (decide_False (P := r ∈ ratings)) by done.
      rewrite (decide_True (P := r ∈ r :: ratings)) by by left.
      rewrite app_nil_r, <- list_fmap_compose. done.
    + destruct (decide (r ∈ ratings)) as [Hin|Hin].
      * rewrite decide_True; [done|]. by right.
      * rewrite decide_False; [done|]. by intros [?|?]%elem_of_cons.
Qed.

Lemma rating_called (calls : list (ptr * Z)) r :
  r ∈ calls.*2 ↔ filter (λ call : ptr * Z, call.2 = r) calls ≠ [].
Proof.
  split.
  - intros ([a r'] & -> & Hin)%list_elem_of_fmap Hnil. cbn [snd] in Hnil.
    assert ((a, r') ∈ filter (λ call : ptr * Z, call.2 = r') calls) as Hf
      by by apply list_elem_of_filter.
    rewrite Hnil in Hf. by apply elem_of_nil in Hf.
  - intros Hne. destruct (decide (r ∈ calls.*2)) as [|Hnot]; [done|].
    by apply filter_rating_absent in Hnot.
Qed.

Lemma in_key_order_lookup {A} (m : gmap Z A) r (x : A) :
  (r, x) ∈ in_key_order m ↔ m !! r = Some x.
Proof.
  unfold in_key_order. by rewrite merge_sort_Permutation, elem_of_map_to_list.
Qed.

Lemma in_key_order_keys {A} (m : gmap Z A) :
  NoDup (in_key_order m).*1 ∧ ∀ r, r ∈ (in_key_order m).*1 ↔ is_Some (m !! r).
Proof.
  split.
  - unfold in_key_order. rewrite merge_sort_Permutation. apply NoDup_fst_map_to_list.
  - intros r. rewrite list_elem_of_fmap. split.
    + intros ([r' x] & -> & Hin). apply in_key_order_lookup in Hin. by eexists.
    + intros [x Hx]. exists (r, x). split; [done|]. by apply in_key_order_lookup.
Qed.

End RatingsBlock.

(** X29. The ratings that survive a save and a load. [save_all_data]
    walks the ratings in ascending order and writes one line for each song
    of each group that is not empty; [load_all_data] files the song that a
    line's title resolves to under the line's rating. With titles that have
    no comma and resolve, and ratings written in decimal digits that [stoi]
    reads back, writing the block leaves the rating map as it is, and
    loading it into an empty rating map restores every group that is not
    empty, with its songs in their order; a rating whose group is empty
    comes back with no entry at all. *)
Theorem ratings_round_trip (show_int : Z → string) (stoi : string → option Z)
    (alloc : gmap ptr Song → ptr) (new : ptr → ptr) (mem : gmap ptr Song)
    (st : Session.t) (section : string) (srt srt' : gmap Z (list ptr))
    (lines : list string) :
  ratings_block show_int mem srt = Some (lines, srt') →
  (∀ r songs, srt !! r = Some songs →
     decimal (show_int r) ∧ stoi (show_int r) = Some r ∧
     ∀ a s, a ∈ songs → mem !! a = Some s →
            comma_free (title s) ∧
            SongLookup.get (Session.lookup st) (title s) = Some (new a)) →
  Session.srt st = ∅ →
  srt' = srt ∧
  ∃ loaded,
    load_lines stoi alloc (section, st) lines = Some ("[RATINGS]", with_srt st loaded) ∧
    ∀ r, loaded !! r = match srt !! r with
                       | Some (a :: songs) => Some (new <$> a :: songs)
                       | _ => None
                       end.
Proof.
  intros Hblock Hok Hempty. unfold ratings_block in Hblock.
  set (pairs := in_key_order (SongRatingTree.get_song_count_by_rating srt)) in *.
  destruct (ratings_loop show_int mem pairs srt) as [[body srt'']|] eqn:Hloop; [|done].
  cbn [mbind option_bind] in Hblock. injection Hblock as <- <-.
  destruct (ratings_loop_load show_int stoi alloc new mem (Session.lookup st) srt pairs
              body srt'' st) as [-> Hload]; [|done|done|done|].
  { intros r c Hin. apply in_key_order_lookup in Hin.
    unfold SongRatingTree.get_song_count_by_rating in Hin.
    rewrite lookup_fmap in Hin. destruct (srt !! r) as [songs|]; [|done].
    injection Hin as <-. by exists songs. }
  split; [done|].
  exists (after_insertions (loaded_ratings new srt pairs.*1)). split.
  - cbn [load_lines]. rewrite load_line_header by done. cbn [mbind option_bind].
    rewrite Hload, Hempty. done.
  - intros r. rewrite after_insertions_lookup.
    destruct (in_key_order_keys (SongRatingTree.get_song_count_by_rating srt))
      as [Hnd Hkeys]. fold pairs in Hnd, Hkeys.
    pose proof (loaded_ratings_filter new srt pairs.*1 r Hnd) as Hfilter.
    assert (r ∈ pairs.*1 ↔ is_Some (srt !! r)) as Hkey.
    { rewrite Hkeys. unfold SongRatingTree.get_song_count_by_rating.
      by rewrite lookup_fmap, fmap_is_Some. }
    rewrite Hfilter.
    destruct (decide (r ∈ (loaded_ratings new srt pairs.*1).*2)) as [Hin|Hnot].
    + apply rating_called in Hin.
      assert ((filter (λ call : ptr * Z, call.2 = r)
                 (loaded_ratings new srt pairs.*1)).*1 ≠ []) as Hne
        by (intros Hnil%fmap_nil_inv; done).
      rewrite Hfilter in Hne.
      destruct (decide (r ∈ pairs.*1)); [|done].
      destruct (srt !! r) as [[|a songs]|]; done.
    + assert (filter (λ call : ptr * Z, call.2 = r)
                (loaded_ratings new srt pairs.*1) = []) as Hnil
        by by apply filter_rating_absent.
      rewrite Hnil in Hfilter.
      destruct (decide (r ∈ pairs.*1)) as [Hin|Hnotin].
      * destruct (srt !! r) as [[|a songs]|]; done.
      * destruct (srt !! r) as [songs|] eqn:Hr; [|done].
        exfalso. apply Hnotin, Hkey. by eexists.
Qed.

Lemma ratings_round_trip_witness :
  let show_int := λ z : Z, if decide (z = 5) then "5" else if decide (z = 4) then "4" else "3" in
  let stoi := λ t : string, if decide (t = "5") then Some 5
                            else if decide (t = "4") then Some 4
                            else if decide (t = "3") then Some 3 else None in
  let alloc := λ _ : gmap ptr Song, 4%positive in
  let st := Session.mk catalog_ABC
              {[ "A" := 1%positive; "B" := 2%positive; "C" := 3%positive ]} ∅ ∅ [] [] [] in
  let srt : gmap Z (list ptr) := {[ 5 := [1; 2]%positive; 3 := [3%positive]; 4 := [] ]} in
  ratings_block show_int (Playlist.heap catalog_ABC) srt
  = Some (["[RATINGS]"; "C,3"; "A,5"; "B,5"], srt) ∧
  ∃ loaded,
    load_lines stoi alloc ("[PLAY_COUNTS]", st) ["[RATINGS]"; "C,3"; "A,5"; "B,5"]
    = Some ("[RATINGS]", with_srt st loaded) ∧
    loaded !! 5 = Some [1; 2]%positive ∧ loaded !! 4 = None.
Proof.
  intros show_int stoi alloc st srt.
  assert (ratings_block show_int (Playlist.heap catalog_ABC) srt
          = Some (["[RATINGS]"; "C,3"; "A,5"; "B,5"], srt)) as Hblock
    by (vm_compute; reflexivity).
  assert ([(5, [1; 2]%positive); (3, [3%positive]); (4, [])] ≡ₚ map_to_list srt) as Hperm.
  { apply (bool_decide_unpack _). vm_compute. exact I. }
  assert (∀ r songs, srt !! r = Some songs →
            decimal (show_int r) ∧ stoi (show_int r) = Some r ∧
            ∀ a s, a ∈ songs → Playlist.heap catalog_ABC !! a = Some s →
                   comma_free (title s) ∧
                   SongLookup.get (Session.lookup st) (title s) = Some (id a)) as Hok.
  { intros r songs Hin. apply elem_of_map_to_list in Hin. rewrite <- Hperm in Hin.
    repeat (apply elem_of_cons in Hin as [[= -> ->]|Hin]);
      [| | |by apply elem_of_nil in Hin];
      (split; [vm_compute; intuition lia|split; [reflexivity|]]);
      intros a s Ha Hs;
      repeat (apply elem_of_cons in Ha as [->|Ha]);
      try (by apply elem_of_nil in Ha);
      vm_compute in Hs; injection Hs as <-;
      (split; [vm_compute; intuition discriminate|vm_compute; reflexivity]). }
  split; [exact Hblock|].
  destruct (ratings_round_trip show_int stoi alloc id (Playlist.heap catalog_ABC) st
              "[PLAY_COUNTS]" srt srt ["[RATINGS]"; "C,3"; "A,5"; "B,5"] Hblock Hok eq_refl)
    as (_ & loaded & Hload & Hgroups).
  exists loaded. split; [exact Hload|]. split.
  - exact (Hgroups 5).
  - exact (Hgroups 4).
Defined.

Section Dangling.
Variable show_int : Z → string.
Implicit Types (mem : gmap ptr Song) (srt : gmap Z (list ptr)) (songs : list ptr).

Lemma delete_song_frees pl ls index a :
  Playlist_dll pl ls → ls !! Z.to_nat index = Some a →
  Playlist.heap (Playlist.delete_song pl index) !! a = None.
Proof.
  intros Hdll Ha. unfold Playlist.delete_song.
  destruct (Playlist.head pl) as [hd|] eqn:Hhd.
  2:{ assert (ls = []) as -> by by eapply Playlist_dll_nil. done. }
  rewrite <- Hhd, (advance_dll _ _ _ Hdll), Ha. playlist_fields.
  apply lookup_delete_eq.
Qed.

Lemma title_lines_dangling mem songs a :
  a ∈ songs → mem !! a = None → title_lines mem songs = None.
Proof.
  intros Hin Hdead. apply mapM_None_2, Exists_exists. exists a.
  split; [done|]. by rewrite Hdead.
Qed.

Lemma ratings_loop_dangling mem srt a r songs (pairs : list (Z * Z)) :
  (∀ r' c, (r', c) ∈ pairs →
           ∃ songs', srt !! r' = Some songs' ∧ c = Z.of_nat (length songs')) →
  srt !! r = Some songs → a ∈ songs → mem !! a = None → r ∈ pairs.*1 →
  ratings_loop show_int mem pairs srt = None.
Proof.
  intros Hpairs Hr Ha Hdead.
  induction pairs as [|[r0 c0] pairs IH]; intros Hin; [by apply elem_of_nil in Hin|].
  destruct (Hpairs r0 c0) as (songs0 & Hr0 & ->); [by left|].
  assert (r0 ≠ r → ratings_loop show_int mem pairs srt = None) as Hrest.
  { intros Hne. apply IH; [intros r' c Hc; apply Hpairs; by right|].
    rewrite fmap_cons in Hin. by apply elem_of_cons in Hin as [?|?]. }
  cbn [ratings_loop fst snd].
  destruct (decide (r0 = r)) as [->|Hne].
  - rewrite Hr in Hr0. injection Hr0 as <-.
    rewrite decide_True by (destruct songs; [by apply elem_of_nil in Ha|simpl; lia]).
    unfold SongRatingTree.search_by_rating, SongRatingTree.subscript. rewrite Hr.
    rewrite (mapM_None_2 _ songs); [done|].
    apply Exists_exists. exists a. split; [done|]. by rewrite Hdead.
  - case_decide; [|by apply Hrest].
    unfold SongRatingTree.search_by_rating, SongRatingTree.subscript. rewrite Hr0.
    destruct (mapM _ songs0); [|done]. cbn [mbind option_bind].
    by rewrite Hrest.
Qed.

End Dangling.

(** X30. Deleting a song and saving. [Playlist::delete_song] frees the
    node, but the history, the skip window, the window of recent additions
    and the rating map keep their pointers to it, and the menu saves right
    after the deletion. When the deleted song is among the five most
    recent plays, in the skip window, in the window of recent additions or
    in a rating group, [save_all_data] reads [song->title] through the
    dangling pointer: that part of the save has no defined result. *)
Theorem delete_then_save_reads_freed_song (show_int : Z → string) (pl : Playlist.t)
    (ls : list ptr) (index : Z) (a : ptr) (ph skipTracker recentTracker : list ptr)
    (srt : gmap Z (list ptr)) :
  Playlist_dll pl ls → 0 ≤ index → ls !! Z.to_nat index = Some a →
  let mem := Playlist.heap (Playlist.delete_song pl index) in
  (a ∈ take 5 ph → history_block mem ph = None) ∧
  (a ∈ skipTracker → skipped_block mem skipTracker = None) ∧
  (a ∈ take 15 recentTracker → recent_added_block mem recentTracker = None) ∧
  ((∃ r songs, srt !! r = Some songs ∧ a ∈ songs) → ratings_block show_int mem srt = None).
Proof.
  intros Hdll Hidx Ha mem.
  assert (mem !! a = None) as Hdead by by eapply delete_song_frees.
  split; [|split; [|split]].
  - intros Hin. unfold history_block, PlaybackHistory.get_recently_played.
    rewrite recently_played_loop_take. cbn [app length]. rewrite Nat.sub_0_r.
    change (Z.to_nat 5) with 5%nat. by rewrite (title_lines_dangling mem _ a).
  - intros Hin. unfold skipped_block, RecentlySkippedTracker.getSkippedSongs.
    by rewrite (title_lines_dangling mem _ a).
  - intros Hin. unfold recent_added_block, RecentlyAddedTracker.getRecentlyAdded.
    assert (omap (λ i, recentTracker !! i)
              (seq 0 (Z.to_nat (15 `min` Z.of_nat (length recentTracker))))
            = take 15 recentTracker) as ->.
    { rewrite omap_lookup_seq by lia.
      destruct (decide (15 ≤ Z.of_nat (length recentTracker))).
      - by rewrite Z.min_l.
      - rewrite Z.min_r, !take_ge by lia. done. }
    by rewrite (title_lines_dangling mem _ a).
  - intros (r & songs & Hr & Hin). unfold ratings_block.
    rewrite (ratings_loop_dangling show_int mem srt a r songs); [done| |done|done|done|].
    + intros r' c Hc. apply in_key_order_lookup in Hc.
      unfold SongRatingTree.get_song_count_by_rating in Hc.
      rewrite lookup_fmap in Hc. destruct (srt !! r') as [songs'|]; [|done].
      injection Hc as <-. by exists songs'.
    + apply in_key_order_keys. unfold SongRatingTree.get_song_count_by_rating.
      by rewrite lookup_fmap, Hr.
Qed.

Lemma delete_then_save_reads_freed_song_witness :
  let show_int := λ _ : Z, "5" in
  let mem := Playlist.heap (Playlist.delete_song catalog_ABC 1) in
  Playlist_dll catalog_ABC [1; 2; 3]%positive ∧
  [1; 2; 3]%positive !! Z.to_nat 1 = Some 2%positive ∧
  history_block mem [1; 2]%positive = None ∧
  skipped_block mem [2%positive] = None ∧
  recent_added_block mem [3; 2; 1]%positive = None ∧
  ratings_block show_int mem {[ 5 := [2%positive] ]} = None.
Proof.
  intros show_int mem.
  assert (0 ≤ 1) as H01 by lia.
  assert ([1; 2; 3]%positive !! Z.to_nat 1 = Some 2%positive) as H2 by reflexivity.
  split; [exact catalog_ABC_dll|]. split; [exact H2|].
  destruct (delete_then_save_reads_freed_song show_int catalog_ABC [1; 2; 3]%positive 1
              2%positive [1; 2]%positive [2%positive] [3; 2; 1]%positive
              {[ 5 := [2%positive] ]} catalog_ABC_dll H01 H2)
    as (Hph & Hskip & Hrecent & Hsrt).
  split; [apply Hph; vm_compute; set_solver|].
  split; [apply Hskip; set_solver|].
  split; [apply Hrecent; vm_compute; set_solver|].
  apply Hsrt. exists 5, [2%positive]. split; [reflexivity|set_solver].
Defined.
